(** * A work-stealing job scheduler: shallow embedding and verified properties

    The development follows the C++ sources under [src/jobs]:
    - [Config.h]        the compile-time constants,
    - [JobQueue.h]      the fixed-capacity work-stealing deque,
    - [JobAllocator.h]  the chunk allocator and the per-worker job allocator,
    - [JobGraph.h/.cpp] the dependency graph and the node completion protocol,
    - [JobSpawner.cpp]  spawning of jobs from a running job,
    - [Scheduler.cpp]   the victim selection and the termination protocol.

    Conventions.
    - Fixed-width integers are values of [Z]; every arithmetic operation of the
      source is followed by the wrap-around of its C++ type ([wrap_u32] for
      [uint32_t], [wrap_i32] for [int32_t], [to_size_t] for conversions to
      [size_t]).  Overflow of [int32_t] is undefined in C++; the model wraps
      in two's complement, and no theorem rests on a wrapped signed value.
    - A pointer to a graph node is the index of the node in the arena
      [JobGraph::nodes]; a null pointer is [None].
    - [assert] aborts the program: a failed assertion is the outcome
      [Fault AssertionFailed]; dereferencing a null pointer is the outcome
      [Fault NullDereference], dereferencing a pointer outside its arena
      [Fault InvalidPointer].  Recursion of the source that is not structural
      takes a fuel argument and answers [Fault OutOfFuel] when it runs dry. *)

From Stdlib Require Import ZArith Lia List Bool.
From stdpp Require Import base option list relations.
Import ListNotations.

Local Open Scope Z_scope.

(** ** Outcomes of fallible operations *)

Inductive fault : Type :=
| AssertionFailed
| NullDereference
| InvalidPointer
| OutOfFuel.

Inductive result (A : Type) : Type :=
| Ok (a : A)
| Fault (f : fault).
Arguments Ok {A} a.
Arguments Fault {A} f.

#[global] Instance result_bind : MBind result :=
  fun A B (k : A -> result B) (r : result A) =>
    match r with
    | Ok a => k a
    | Fault f => Fault f
    end.

#[global] Instance result_ret : MRet result := fun A a => Ok a.

Definition assert (b : bool) : result unit :=
  if b then Ok tt else Fault AssertionFailed.

(** A pointer used as a condition. *)
Definition non_null {A : Type} (p : option A) : bool :=
  match p with
  | Some _ => true
  | None => false
  end.

(** ** Fixed-width arithmetic *)

Definition wrap_u32 (z : Z) : Z := z mod 2 ^ 32.
Definition wrap_i32 (z : Z) : Z := (z + 2 ^ 31) mod 2 ^ 32 - 2 ^ 31.
Definition to_size_t (z : Z) : Z := z mod 2 ^ 64.

Definition uint32_max : Z := 2 ^ 32 - 1.
Definition int32_max : Z := 2 ^ 31 - 1.

(** ** Config.h *)

Definition queue_capacity : Z := 4096.
Definition allocation_chunk_size : Z := 2048.
Definition min_param_buffer_size : Z := 32.

(** [std::hardware_destructive_interference_size]; 64 on the usual x86-64
    toolchains.  Only the size of the parameter buffer depends on it. *)
Definition cacheline_size : Z := 64.

(** ** Job.h *)

(** A [Job*] that is not null points either at the root job stored inside a
    graph node or at a slot of a chunk of the chunk allocator. *)
Inductive JobRef : Type :=
| RootJobOf (node : nat)
| ChunkJob (chunk : nat) (slot : nat).

Abbreviation JobPtr := (option JobRef).
Abbreviation NodePtr := (option nat).

(** [sizeof(JobFunction* ) + sizeof(JobGraphNode* )] with 8-byte pointers. *)
Definition job_core_size : Z := 8 + 8.
Definition min_job_size : Z := min_param_buffer_size + job_core_size.
Definition job_size : Z :=
  ((min_job_size + cacheline_size - 1) / cacheline_size) * cacheline_size.
Definition param_buffer_size : Z := job_size - job_core_size.

(** A job function is identified by its address; [None] is the null function
    pointer.  The parameter buffer is a list of bytes. *)
Module Job.

Record t : Type := mk {
  param_buffer : list Z;
  function : option nat;
  node : NodePtr
}.

(** A value-initialised [Job]. *)
Definition zero : t := mk (replicate (Z.to_nat param_buffer_size) 0) None None.

Definition set_param_buffer (j : t) (v : list Z) : t := mk v (function j) (node j).
Definition set_function (j : t) (v : option nat) : t := mk (param_buffer j) v (node j).
Definition set_node (j : t) (v : NodePtr) : t := mk (param_buffer j) (function j) v.

End Job.

(** [std::memcpy(dest, src, len)] on byte lists. *)
Definition memcpy (dest src : list Z) : list Z :=
  src ++ drop (List.length src) dest.

(** ** JobQueue.h *)

Module JobQueue.

Definition size_max : Z := int32_max.

Record t : Type := mk {
  ring_buffer : list JobPtr;
  top : Z;
  bottom : Z
}.

Definition set_slot (q : t) (i : nat) (job : JobPtr) : t :=
  mk (<[i := job]> (ring_buffer q)) (top q) (bottom q).
Definition set_top (q : t) (v : Z) : t := mk (ring_buffer q) v (bottom q).
Definition set_bottom (q : t) (v : Z) : t := mk (ring_buffer q) (top q) v.

(** [ring_buffer[i % queue_capacity]]: [i] is an [int32_t] and
    [queue_capacity] a [size_t], so [i] is converted to [size_t] first. *)
Definition slot_index (i : Z) : nat := Z.to_nat (to_size_t i mod queue_capacity).

Definition load_slot (q : t) (i : Z) : JobPtr :=
  default None (ring_buffer q !! slot_index i).

(** A freshly constructed queue: every slot null, both counters zero. *)
Definition new : t := mk (replicate (Z.to_nat queue_capacity) None) 0 0.

Definition reset (q : t) : t := set_top (set_bottom q 0) 0.

Definition push (job : JobPtr) (q : t) : result (bool * t) :=
  let local_bottom := bottom q in
  assert (local_bottom <? size_max);;
  let local_top := top q in
  if to_size_t (wrap_i32 (local_bottom - local_top)) =? queue_capacity then
    Ok (false, q)
  else
    let q := set_slot q (slot_index local_bottom) job in
    let q := set_bottom q (wrap_i32 (local_bottom + 1)) in
    Ok (true, q).

(** [top.compare_exchange_strong(expected, desired)] on the current value
    [current] of [top]: the success flag and the value [top] holds after. *)
Definition compare_exchange_strong (current expected desired : Z) : bool * Z :=
  if current =? expected then (true, desired) else (false, current).

(** [pop], with the other threads' effect on [top] between the owner's load of
    [top] and its compare-and-swap given by [thieves] (thieves only ever write
    [top]).  The identity is the uncontended execution. *)
Definition pop_with (thieves : Z -> Z) (q : t) : JobPtr * t :=
  let local_bottom := wrap_i32 (bottom q - 1) in
  let q := set_bottom q local_bottom in
  let local_top := top q in
  if local_bottom <? local_top then
    (None, set_bottom q (wrap_i32 (local_bottom + 1)))
  else
    let job := load_slot q local_bottom in
    if local_bottom >? local_top then (job, q)
    else
      let q := set_top q (thieves (top q)) in
      let '(ok, new_top) :=
        compare_exchange_strong (top q) local_top (wrap_i32 (local_top + 1)) in
      let q := set_top q new_top in
      if negb ok then (None, set_bottom q (wrap_i32 (local_bottom + 1)))
      else (job, set_bottom q (wrap_i32 (local_bottom + 1))).

Definition pop (q : t) : JobPtr * t := pop_with (fun v => v) q.

Definition steal_with (thieves : Z -> Z) (q : t) : JobPtr * t :=
  let local_top := top q in
  let local_bottom := bottom q in
  if local_top >=? local_bottom then (None, q)
  else
    let job := load_slot q local_top in
    let q := set_top q (thieves (top q)) in
    let '(ok, new_top) :=
      compare_exchange_strong (top q) local_top (wrap_i32 (local_top + 1)) in
    let q := set_top q new_top in
    if negb ok then (None, q) else (job, q).

Definition steal (q : t) : JobPtr * t := steal_with (fun v => v) q.

(** [bottom - top], the current length of the deque. *)
Definition length (q : t) : Z := bottom q - top q.

(** The states a deque is in between two operations of its owner: the array
    has its [queue_capacity] slots and the counters, which start at zero and
    only grow, satisfy [0 <= top <= bottom <= size_max]. *)
Definition valid (q : t) : Prop :=
  List.length (ring_buffer q) = Z.to_nat queue_capacity /\
  0 <= top q /\ top q <= bottom q /\ bottom q <= size_max.

(** States reached from a fresh queue by uncontended operations. *)
Inductive reachable : t -> Prop :=
| reachable_new : reachable new
| reachable_reset q : reachable q -> reachable (reset q)
| reachable_push q job b q' :
    reachable q -> push job q = Ok (b, q') -> reachable q'
| reachable_pop q : reachable q -> reachable (snd (pop q))
| reachable_steal q : reachable q -> reachable (snd (steal q)).

End JobQueue.

(** ** JobAllocator.h *)

(** [struct JobChunk { Job buffer[allocation_chunk_size]; }] *)
Abbreviation JobChunk := (list Job.t).

Definition zero_chunk : JobChunk :=
  replicate (Z.to_nat allocation_chunk_size) Job.zero.

Module JobChunkAllocator.

Definition size_max : Z := uint32_max.

Record t : Type := mk {
  chunks : list JobChunk;
  next_index : Z
}.

(** [JobChunkAllocator(Size chunk_amount) : chunks(chunk_amount)] *)
Definition new (chunk_amount : Z) : t :=
  mk (replicate (Z.to_nat chunk_amount) zero_chunk) 0.

Definition set_next_index (a : t) (v : Z) : t := mk (chunks a) v.

(** [next_index.fetch_add(1)]: the old value and the allocator after. *)
Definition fetch_add_next_index (a : t) : Z * t :=
  (next_index a, set_next_index a (wrap_u32 (next_index a + 1))).

(** The pointer [chunks.data() + index] is the index of the chunk. *)
Definition allocate (a : t) : result (option nat * t) :=
  let '(index, a) := fetch_add_next_index a in
  assert (index <? size_max);;
  if index >=? Z.of_nat (List.length (chunks a)) then Ok (None, a)
  else Ok (Some (Z.to_nat index), a).

Definition reset (a : t) : t := set_next_index a 0.

(** The allocator after [n] calls of [allocate] that all returned. *)
Definition after_calls (n : N) (a : t) : result t :=
  N.iter n (fun r => a ← r; '(_, a) ← allocate a; Ok a) (Ok a).

(** The [n]-th call of [allocate] (counting from one) on [a]. *)
Definition nth_call (n : N) (a : t) : result (option nat * t) :=
  a ← after_calls (n - 1) a; allocate a.

End JobChunkAllocator.

Module JobAllocator.

Record t : Type := mk {
  chunk : option nat;
  next_index : Z
}.

Definition new : t := mk None 0.

(** The part of [allocate] after the refill: hand out [chunk->buffer +
    next_index] and drop the chunk once its last slot is taken. *)
Definition take_slot (a : t) : result (JobPtr * t) :=
  match chunk a with
  | None => Fault NullDereference
  | Some c =>
      let job := ChunkJob c (Z.to_nat (next_index a)) in
      let next := wrap_u32 (next_index a + 1) in
      if next =? allocation_chunk_size then Ok (Some job, mk None next)
      else Ok (Some job, mk (Some c) next)
  end.

Definition allocate (a : t) (chunk_allocator : JobChunkAllocator.t)
  : result (JobPtr * t * JobChunkAllocator.t) :=
  match chunk a with
  | None =>
      '(c, chunk_allocator) ← JobChunkAllocator.allocate chunk_allocator;
      match c with
      | None => Ok (None, mk None (next_index a), chunk_allocator)
      | Some _ =>
          '(job, a) ← take_slot (mk c 0);
          Ok (job, a, chunk_allocator)
      end
  | Some _ =>
      '(job, a) ← take_slot a;
      Ok (job, a, chunk_allocator)
  end.

Definition reset (a : t) : t := mk None (next_index a).

End JobAllocator.

(** ** JobGraph.h, JobGraph.cpp *)

(** [any_result f l]: a loop over [l] that returns true at the first element on
    which [f] does, false when it reaches the end of [l]. *)
Fixpoint any_result {A : Type} (f : A -> result bool) (l : list A) : result bool :=
  match l with
  | [] => Ok false
  | x :: l => b ← f x; if b : bool then Ok true else any_result f l
  end.

Module JobGraphNode.

Record t : Type := mk {
  root_job : Job.t;
  initial_predecessor_amount : Z;
  predecessor_amount : Z;
  unfinished_amount : Z;
  successors : list nat;
  owner : nat
}.

Definition set_initial_predecessor_amount (n : t) (v : Z) : t :=
  mk (root_job n) v (predecessor_amount n) (unfinished_amount n) (successors n) (owner n).
Definition set_predecessor_amount (n : t) (v : Z) : t :=
  mk (root_job n) (initial_predecessor_amount n) v (unfinished_amount n) (successors n) (owner n).
Definition set_unfinished_amount (n : t) (v : Z) : t :=
  mk (root_job n) (initial_predecessor_amount n) (predecessor_amount n) v (successors n) (owner n).
Definition set_successors (n : t) (v : list nat) : t :=
  mk (root_job n) (initial_predecessor_amount n) (predecessor_amount n) (unfinished_amount n) v (owner n).

(** The constructor, for the node that is stored at index [this] of the arena.
    The constructor copies the parameter bytes into [root_job.param_buffer] and
    leaves the bytes after them uninitialised; they are taken as zero here, and
    nothing below reads them. *)
Definition new (root_job_function : option nat) (params : list Z) (owner this : nat) : t :=
  mk (Job.mk (memcpy (Job.param_buffer Job.zero) params) root_job_function (Some this))
     0 0 1 [] owner.

(** The nodes live in the arena [JobGraph::nodes]; a [JobGraphNode*] is an
    index into it. *)
Definition deref (m : list t) (p : nat) : result t :=
  match m !! p with
  | Some n => Ok n
  | None => Fault InvalidPointer
  end.

Definition job_added (p : nat) (m : list t) : result (list t) :=
  n ← deref m p;
  Ok (<[p := set_unfinished_amount n (wrap_u32 (unfinished_amount n + 1))]> m).

(** [&root_job] of the node at [p]. *)
Definition get_root_job (p : nat) : JobRef := RootJobOf p.

(** The loop of [job_completed] over the successors. *)
Fixpoint fire_successors (succs : list nat) (m : list t) (queue : JobQueue.t)
  : result (list t * JobQueue.t) :=
  match succs with
  | [] => Ok (m, queue)
  | successor :: succs =>
      s ← deref m successor;
      let old_predecessor_amount := predecessor_amount s in
      let m := <[successor := set_predecessor_amount s (wrap_u32 (old_predecessor_amount - 1))]> m in
      assert (old_predecessor_amount >? 0);;
      queue ← (if old_predecessor_amount =? 1 then
                 '(pushed, queue) ← JobQueue.push (Some (RootJobOf successor)) queue;
                 assert pushed;;
                 Ok queue
               else Ok queue);
      fire_successors succs m queue
  end.

Definition job_completed (p : nat) (m : list t) (queue : JobQueue.t)
  : result (list t * JobQueue.t) :=
  n ← deref m p;
  let old_unfinished_amount := unfinished_amount n in
  let m := <[p := set_unfinished_amount n (wrap_u32 (old_unfinished_amount - 1))]> m in
  assert (old_unfinished_amount >? 0);;
  if old_unfinished_amount >? 1 then Ok (m, queue)
  else
    '(m, queue) ← fire_successors (successors n) m queue;
    n ← deref m p;
    let m := <[p := set_unfinished_amount n 1]> m in
    n ← deref m p;
    let m := <[p := set_predecessor_amount n (initial_predecessor_amount n)]> m in
    Ok (m, queue).

Definition add_successor (p successor : nat) (m : list t) : result (list t) :=
  n ← deref m p;
  let m := <[p := set_successors n (successors n ++ [successor])]> m in
  s ← deref m successor;
  let s := set_initial_predecessor_amount s (wrap_u32 (initial_predecessor_amount s + 1)) in
  let s := set_predecessor_amount s (initial_predecessor_amount s) in
  Ok (<[successor := s]> m).

(** [is_ancestor_of] recurses along successor edges; [fuel] bounds the depth. *)
Fixpoint is_ancestor_of_fuel (fuel : nat) (m : list t) (p descendant : nat) : result bool :=
  match fuel with
  | O => Fault OutOfFuel
  | S fuel =>
      n ← deref m p;
      if existsb (fun successor => Nat.eqb successor descendant) (successors n) then Ok true
      else any_result (fun successor => is_ancestor_of_fuel fuel m successor descendant)
                      (successors n)
  end.

(** A path in an arena of [length m] nodes without cycles has fewer than
    [length m] edges. *)
Definition is_ancestor_of (m : list t) (p descendant : nat) : result bool :=
  is_ancestor_of_fuel (S (List.length m)) m p descendant.

End JobGraphNode.

Module JobGraph.

(** [this] is the address of the graph, what the nodes' [owner] points at. *)
Record t : Type := mk {
  this : nat;
  nodes : list JobGraphNode.t;
  root_nodes : list nat
}.

Definition new (this : nat) : t := mk this [] [].

(** [new_node(root_job_function, params)] *)
Definition new_node (root_job_function : option nat) (params : list Z) (g : t) : nat * t :=
  let node := List.length (nodes g) in
  (node,
   mk (this g)
      (nodes g ++ [JobGraphNode.new root_job_function params (this g) node])
      (root_nodes g ++ [node])).

(** The inner loop of the predecessor form. *)
Definition redundant (m : list JobGraphNode.t) (predecessors : list nat) (predecessor : nat)
  : result bool :=
  any_result
    (fun descendant_candidate =>
       if negb (Nat.eqb descendant_candidate predecessor)
       then JobGraphNode.is_ancestor_of m predecessor descendant_candidate
       else Ok false)
    predecessors.

(** The outer loop of the predecessor form, over the part [rest] of the array
    [predecessors] that is still to be visited. *)
Fixpoint wire_predecessors (g_this : nat) (predecessors rest : list nat) (node : nat)
    (m : list JobGraphNode.t) : result (list JobGraphNode.t) :=
  match rest with
  | [] => Ok m
  | predecessor :: rest =>
      n ← JobGraphNode.deref m predecessor;
      assert (Nat.eqb (JobGraphNode.owner n) g_this);;
      r ← redundant m predecessors predecessor;
      m ← (if r : bool then Ok m else JobGraphNode.add_successor predecessor node m);
      wire_predecessors g_this predecessors rest node m
  end.

(** [new_node(root_job_function, params, predecessors)] *)
Definition new_node_after (root_job_function : option nat) (params : list Z)
    (predecessors : list nat) (g : t) : result (nat * t) :=
  let node := List.length (nodes g) in
  let m := nodes g ++ [JobGraphNode.new root_job_function params (this g) node] in
  m ← wire_predecessors (this g) predecessors predecessors node m;
  Ok (node, mk (this g) m (root_nodes g)).

Definition get_root_job (index : Z) (g : t) : JobPtr :=
  if index >=? Z.of_nat (List.length (root_nodes g)) then None
  else JobGraphNode.get_root_job <$> (root_nodes g !! Z.to_nat index).

(** *** Clients of the construction interface *)

(** A client builds a graph by a sequence of [new_node] calls on a fresh graph.
    The predecessors it passes are pointers that earlier calls returned. *)
Inductive call : Type :=
| NewNode (root_job_function : option nat) (params : list Z)
| NewNodeAfter (root_job_function : option nat) (params : list Z) (predecessors : list nat).

Definition do_call (c : call) (g : t) : result t :=
  match c with
  | NewNode f params => Ok (snd (new_node f params g))
  | NewNodeAfter f params predecessors =>
      '(_, g) ← new_node_after f params predecessors g; Ok g
  end.

Fixpoint do_calls (cs : list call) (g : t) : result t :=
  match cs with
  | [] => Ok g
  | c :: cs => g ← do_call c g; do_calls cs g
  end.

(** The pointers returned by the calls of the no-predecessor form, in the order
    of the calls, when the first call of [cs] creates node number [k]. *)
Fixpoint root_calls (k : nat) (cs : list call) : list nat :=
  match cs with
  | [] => []
  | NewNode _ _ :: cs => k :: root_calls (S k) cs
  | NewNodeAfter _ _ _ :: cs => root_calls (S k) cs
  end.

(** Every predecessor passed by a call is a node created by an earlier call,
    and the arrays are shorter than [2^32] entries. *)
Fixpoint well_scoped (k : nat) (cs : list call) : Prop :=
  match cs with
  | [] => True
  | NewNode _ _ :: cs => well_scoped (S k) cs
  | NewNodeAfter _ _ predecessors :: cs =>
      Forall (fun p => (p < k)%nat) predecessors /\
      Z.of_nat (List.length predecessors) <= uint32_max /\
      well_scoped (S k) cs
  end.

(** *** The successor relation *)

Definition edge (m : list JobGraphNode.t) (a b : nat) : Prop :=
  exists n, m !! a = Some n /\ In b (JobGraphNode.successors n).

(** [b] is reachable from [a] via one or more successor edges. *)
Definition reaches (m : list JobGraphNode.t) : nat -> nat -> Prop := tc (edge m).

(** The arena's order is a topological order of the graph, and every node is
    owned by the graph. *)
Definition topological (m : list JobGraphNode.t) : Prop :=
  forall a n, m !! a = Some n ->
    Forall (fun s => (a < s < List.length m)%nat) (JobGraphNode.successors n).

Definition owned (g_this : nat) (m : list JobGraphNode.t) : Prop :=
  Forall (fun n => JobGraphNode.owner n = g_this) m.

Definition well_formed (g : t) : Prop :=
  topological (nodes g) /\ owned (this g) (nodes g) /\
  Forall (fun r => (r < List.length (nodes g))%nat) (root_nodes g).

(** The state of the arena inside the loop of the predecessor form, while node
    [node], the last of the arena, has been given [k] predecessors. *)
Definition wiring (g_this node : nat) (m : list JobGraphNode.t) (k : Z) : Prop :=
  topological m /\ owned g_this m /\ List.length m = S node /\
  exists nn, m !! node = Some nn /\
    JobGraphNode.initial_predecessor_amount nn = k /\
    JobGraphNode.predecessor_amount nn = k.

(** Successor lists are only ever appended to. *)
Definition successors_grow (m m' : list JobGraphNode.t) : Prop :=
  forall i ni, m !! i = Some ni ->
    exists ni' l, m' !! i = Some ni' /\
      JobGraphNode.successors ni' = JobGraphNode.successors ni ++ l.

End JobGraph.

(** ** The completion protocol, in the words of the specification *)

Module Protocol.

(** The deque after a successful [push] of [job]. *)
Definition pushed (job : JobRef) (q : JobQueue.t) : JobQueue.t :=
  JobQueue.mk
    (<[Z.to_nat (JobQueue.bottom q mod queue_capacity) := Some job]> (JobQueue.ring_buffer q))
    (JobQueue.top q) (JobQueue.bottom q + 1).

(** Firing successors: for each successor [s], in list order, decrement
    [s.predecessor_amount]; if the old value was 1, push the root job of [s]
    onto the firing worker's own deque. *)
Inductive fires :
  list JobGraphNode.t -> JobQueue.t -> list nat -> list JobGraphNode.t -> JobQueue.t -> Prop :=
| fires_done m q : fires m q [] m q
| fires_next m q s succs ns m' q' :
    m !! s = Some ns ->
    fires (<[s := JobGraphNode.set_predecessor_amount ns (JobGraphNode.predecessor_amount ns - 1)]> m)
          (if JobGraphNode.predecessor_amount ns =? 1 then pushed (RootJobOf s) q else q)
          succs m' q' ->
    fires m q (s :: succs) m' q'.

(** Counter reset: store 1 to [unfinished_amount] and
    [initial_predecessor_amount] to [predecessor_amount]. *)
Definition counters_reset (n : JobGraphNode.t) : JobGraphNode.t :=
  JobGraphNode.set_predecessor_amount
    (JobGraphNode.set_unfinished_amount n 1)
    (JobGraphNode.initial_predecessor_amount n).

(** The successors that become ready when [succs] are fired from the arena [m]:
    those whose [predecessor_amount] is 1 when their turn comes, in list
    order. *)
Fixpoint ready_successors (m : list JobGraphNode.t) (succs : list nat) : list nat :=
  match succs with
  | [] => []
  | s :: succs =>
      match m !! s with
      | Some ns =>
          (if JobGraphNode.predecessor_amount ns =? 1 then [s] else []) ++
          ready_successors
            (<[s := JobGraphNode.set_predecessor_amount ns
                      (JobGraphNode.predecessor_amount ns - 1)]> m) succs
      | None => []
      end
  end.

(** What a call of [job_completed] on a node with successors [succs] needs for
    its assertions to hold: every successor is a node of the arena that still
    waits for at least as many predecessors as this node has edges to it, and
    the worker's deque has room for the root jobs that become ready. *)
Definition can_fire (m : list JobGraphNode.t) (q : JobQueue.t) (succs : list nat) : Prop :=
  (forall s, In s succs ->
     exists ns, m !! s = Some ns /\
       Z.of_nat (count_occ Nat.eq_dec succs s) <= JobGraphNode.predecessor_amount ns <= uint32_max) /\
  JobQueue.valid q /\
  JobQueue.length q + Z.of_nat (List.length (ready_successors m succs)) <= queue_capacity /\
  JobQueue.bottom q + Z.of_nat (List.length (ready_successors m succs)) <= JobQueue.size_max.

End Protocol.

(** ** JobSpawner.h, JobSpawner.cpp, Job.cpp *)

(** What a running job can reach: its worker's allocator and deque, the shared
    chunk allocator (which holds the storage of the spawned jobs) and the nodes
    of the graph. *)
Record machine : Type := mkMachine {
  allocator : JobAllocator.t;
  chunk_allocator : JobChunkAllocator.t;
  queue : JobQueue.t;
  graph_nodes : list JobGraphNode.t
}.

(** Reading and writing a [Job] through a pointer. *)
Definition load_job (job : JobRef) (w : machine) : result Job.t :=
  match job with
  | RootJobOf p => n ← JobGraphNode.deref (graph_nodes w) p; Ok (JobGraphNode.root_job n)
  | ChunkJob c s =>
      match JobChunkAllocator.chunks (chunk_allocator w) !! c with
      | Some chunk =>
          match chunk !! s with
          | Some j => Ok j
          | None => Fault InvalidPointer
          end
      | None => Fault InvalidPointer
      end
  end.

Definition store_job (job : JobRef) (j : Job.t) (w : machine) : result machine :=
  match job with
  | RootJobOf p =>
      n ← JobGraphNode.deref (graph_nodes w) p;
      Ok (mkMachine (allocator w) (chunk_allocator w) (queue w)
            (<[p := JobGraphNode.mk j
                      (JobGraphNode.initial_predecessor_amount n)
                      (JobGraphNode.predecessor_amount n)
                      (JobGraphNode.unfinished_amount n)
                      (JobGraphNode.successors n) (JobGraphNode.owner n)]> (graph_nodes w)))
  | ChunkJob c s =>
      match JobChunkAllocator.chunks (chunk_allocator w) !! c with
      | Some chunk =>
          match chunk !! s with
          | Some _ =>
              Ok (mkMachine (allocator w)
                    (JobChunkAllocator.mk
                       (<[c := <[s := j]> chunk]> (JobChunkAllocator.chunks (chunk_allocator w)))
                       (JobChunkAllocator.next_index (chunk_allocator w)))
                    (queue w) (graph_nodes w))
          | None => Fault InvalidPointer
          end
      | None => Fault InvalidPointer
      end
  end.

Module JobSpawner.

(** The spawner's references [allocator] and [queue] are those of the
    [machine]; [node] is the node of the job that is running, possibly null. *)
Record t : Type := mk {
  node : NodePtr
}.

Definition spawn_impl (self : t) (function : option nat) (params : list Z)
    (is_sub_job : bool) (w : machine) : result machine :=
  '(job, a, ca) ← JobAllocator.allocate (allocator w) (chunk_allocator w);
  let w := mkMachine a ca (queue w) (graph_nodes w) in
  assert (non_null job);;
  match job with
  | None => Fault NullDereference
  | Some job =>
      j ← load_job job w;
      w ← store_job job (Job.set_param_buffer j (memcpy (Job.param_buffer j) params)) w;
      j ← load_job job w;
      w ← store_job job (Job.set_function j function) w;
      w ← (if is_sub_job then
             j ← load_job job w;
             w ← store_job job (Job.set_node j (node self)) w;
             match node self with
             | None => Fault NullDereference
             | Some p =>
                 m ← JobGraphNode.job_added p (graph_nodes w);
                 Ok (mkMachine (allocator w) (chunk_allocator w) (queue w) m)
             end
           else
             j ← load_job job w;
             store_job job (Job.set_node j None) w);
      '(pushed, q) ← JobQueue.push (Some job) (queue w);
      assert pushed;;
      Ok (mkMachine (allocator w) (chunk_allocator w) q (graph_nodes w))
  end.

(** [spawn] adds compile-time checks on the type of the parameters only. *)
Definition spawn := spawn_impl.

End JobSpawner.

(** A job function is given the parameter bytes and a spawner; what it does to
    the machine it does through the spawner. *)
Abbreviation JobFunction := (list Z -> JobSpawner.t -> machine -> result machine).

(** [Job::run], for the table [functions] of the job functions by address. *)
Definition Job_run (functions : nat -> JobFunction) (job : Job.t) (w : machine)
  : result machine :=
  assert (non_null (Job.function job));;
  match Job.function job with
  | None => Fault NullDereference
  | Some f =>
      w ← functions f (Job.param_buffer job) (JobSpawner.mk (Job.node job)) w;
      match Job.node job with
      | Some p =>
          '(m, q) ← JobGraphNode.job_completed p (graph_nodes w) (queue w);
          Ok (mkMachine (allocator w) (chunk_allocator w) q m)
      | None => Ok w
      end
  end.

(** One round of the own-queue loop of [work_loop]: pop a job from the worker's
    deque and run it. *)
Definition run_own_job (functions : nat -> JobFunction) (w : machine) : result machine :=
  let '(own_job, q) := JobQueue.pop (queue w) in
  let w := mkMachine (allocator w) (chunk_allocator w) q (graph_nodes w) in
  match own_job with
  | None => Ok w
  | Some own_job => j ← load_job own_job w; Job_run functions j w
  end.

Definition is_ok {A : Type} (r : result A) : bool :=
  match r with
  | Ok _ => true
  | Fault _ => false
  end.

(** *** A client whose detached job spawns a sub-job

    Job function 0, the root job of the only node, spawns a job that is not a
    sub-job; that job's function 1 spawns a sub-job. *)
Definition detached_client_functions (f : nat) : JobFunction :=
  match f with
  | O => fun _ spawner => JobSpawner.spawn spawner (Some 1%nat) [] false
  | S _ => fun _ spawner => JobSpawner.spawn spawner (Some 2%nat) [] true
  end.

Definition detached_client_machine : machine :=
  mkMachine JobAllocator.new (JobChunkAllocator.new 1) JobQueue.new
    (JobGraph.nodes (snd (JobGraph.new_node (Some 0%nat) [] (JobGraph.new 0)))).

(** The worker runs the root job of node 0, as [run_worker] does. *)
Definition detached_client_root_run : result machine :=
  root ← load_job (RootJobOf 0) detached_client_machine;
  Job_run detached_client_functions root detached_client_machine.

(** ** Scheduler.h, Scheduler.cpp *)

Module Scheduler.

(** [worker_amount(std::max(desired_worker_amount, 1u))] *)
Definition worker_amount_of (desired_worker_amount : Z) : Z :=
  Z.max desired_worker_amount 1.

(** The bounds of [steal_distribution] set by the constructor of [Worker]:
    [1u + index] and [std::max(worker_amount - 1u, 1u) + index]. *)
Definition steal_distribution_a (index : Z) : Z := wrap_u32 (1 + index).
Definition steal_distribution_b (index worker_amount : Z) : Z :=
  wrap_u32 (Z.max (wrap_u32 (worker_amount - 1)) 1 + index).

(** [d] is a value [worker.steal_distribution(worker.random_generator)] can
    produce: a [std::uniform_int_distribution] over [[a, b]] produces integers
    [a <= d <= b]. *)
Definition drawn (index worker_amount d : Z) : Prop :=
  steal_distribution_a index <= d <= steal_distribution_b index worker_amount.

(** [... % worker_amount] *)
Definition target_index (d worker_amount : Z) : Z := d mod worker_amount.

(** *** The step relation of [work_loop] *)

(** The two atomics of the termination protocol. *)
Record shared : Type := mkShared {
  stealer_amount : Z;
  active_amount : Z
}.

(** Program points of [work_loop], named after what the worker does next. *)
Inductive point : Type :=
| OwnQueue          (* [worker.job_queue.pop()] *)
| EnterStealing     (* [stealer_amount.fetch_add(1)] *)
| Steal             (* [workers[target_index]->job_queue.steal()] *)
| Stolen            (* [stealer_amount.fetch_sub(1)], then run the stolen job *)
| CheckAllStealing  (* [stealer_amount.load(relaxed) >= worker_amount] *)
| Deactivate        (* [active_amount.fetch_sub(1) == 1] *)
| PublishDone       (* [stealer_amount.store(worker_amount + 1)] *)
| Wait              (* [stealer_amount.wait(worker_amount)] *)
| Woken             (* [stealer_amount.load(seq_cst) > worker_amount] *)
| Reactivate        (* [active_amount.fetch_add(1)] *)
| Yield             (* [std::this_thread::yield()] *)
| Returned.         (* [return] *)

(** What a step does to the shared state, with the value it observed. *)
Inductive event : Type :=
| EvPop (got_job : bool)
| EvStealerFetchAdd (old : Z)
| EvSteal (target : Z) (got_job : bool)
| EvStealerFetchSub (old : Z)
| EvStealerLoadRelaxed (v : Z)
| EvActiveFetchSub (old : Z)
| EvStealerStore (v : Z)
| EvStealerWait (v : Z)
| EvStealerLoad (v : Z)
| EvActiveFetchAdd (old : Z)
| EvYield.

(** One step of the worker [index].  The deques and the jobs are left out: a
    [pop] or a [steal] may or may not return a job, and running a job touches
    neither [stealer_amount] nor [active_amount]. *)
Inductive worker_step (worker_amount index : Z) :
  point -> shared -> event -> point -> shared -> Prop :=
| step_own_job s :
    worker_step worker_amount index OwnQueue s (EvPop true) OwnQueue s
| step_own_empty s :
    worker_step worker_amount index OwnQueue s (EvPop false) EnterStealing s
| step_enter_stealing s :
    worker_step worker_amount index EnterStealing s
      (EvStealerFetchAdd (stealer_amount s)) Steal
      (mkShared (wrap_u32 (stealer_amount s + 1)) (active_amount s))
| step_steal_job s d :
    drawn index worker_amount d ->
    worker_step worker_amount index Steal s
      (EvSteal (target_index d worker_amount) true) Stolen s
| step_steal_nothing s d :
    drawn index worker_amount d ->
    worker_step worker_amount index Steal s
      (EvSteal (target_index d worker_amount) false) CheckAllStealing s
| step_stolen s :
    worker_step worker_amount index Stolen s
      (EvStealerFetchSub (stealer_amount s)) OwnQueue
      (mkShared (wrap_u32 (stealer_amount s - 1)) (active_amount s))
| step_all_stealing s :
    stealer_amount s >= worker_amount ->
    worker_step worker_amount index CheckAllStealing s
      (EvStealerLoadRelaxed (stealer_amount s)) Deactivate s
| step_not_all_stealing s :
    stealer_amount s < worker_amount ->
    worker_step worker_amount index CheckAllStealing s
      (EvStealerLoadRelaxed (stealer_amount s)) Yield s
| step_deactivate_last s :
    active_amount s = 1 ->
    worker_step worker_amount index Deactivate s
      (EvActiveFetchSub (active_amount s)) PublishDone
      (mkShared (stealer_amount s) (wrap_u32 (active_amount s - 1)))
| step_deactivate s :
    active_amount s <> 1 ->
    worker_step worker_amount index Deactivate s
      (EvActiveFetchSub (active_amount s)) Wait
      (mkShared (stealer_amount s) (wrap_u32 (active_amount s - 1)))
| step_publish_done s :
    worker_step worker_amount index PublishDone s
      (EvStealerStore (wrap_u32 (worker_amount + 1))) Wait
      (mkShared (wrap_u32 (worker_amount + 1)) (active_amount s))
| step_wait s :
    stealer_amount s <> worker_amount ->
    worker_step worker_amount index Wait s
      (EvStealerWait (stealer_amount s)) Woken s
| step_woken_done s :
    stealer_amount s > worker_amount ->
    worker_step worker_amount index Woken s
      (EvStealerLoad (stealer_amount s)) Returned s
| step_woken_false_wait s :
    stealer_amount s <= worker_amount ->
    worker_step worker_amount index Woken s
      (EvStealerLoad (stealer_amount s)) Reactivate s
| step_reactivate s :
    worker_step worker_amount index Reactivate s
      (EvActiveFetchAdd (active_amount s)) Yield
      (mkShared (stealer_amount s) (wrap_u32 (active_amount s + 1)))
| step_yield s :
    worker_step worker_amount index Yield s EvYield Steal s.

(** The scheduler's workers inside [work_loop]: the shared atomics and the
    program point of every worker. *)
Record system : Type := mkSystem {
  atomics : shared;
  points : list point
}.

(** [run] stores 0 to [stealer_amount] and [worker_amount] to [active_amount]
    before the workers enter [work_loop]. *)
Definition initial (worker_amount : Z) : system :=
  mkSystem (mkShared 0 worker_amount) (replicate (Z.to_nat worker_amount) OwnQueue).

(** Interleaving: any worker takes the next step. *)
Inductive step (worker_amount : Z) : system -> nat * event -> system -> Prop :=
| step_worker sys i e pt pt' s' :
    points sys !! i = Some pt ->
    worker_step worker_amount (Z.of_nat i) pt (atomics sys) e pt' s' ->
    step worker_amount sys (i, e) (mkSystem s' (<[i := pt']> (points sys))).

(** Executions with the trace of their steps, oldest first. *)
Inductive execution (worker_amount : Z) : system -> list (nat * event) -> system -> Prop :=
| execution_start sys : execution worker_amount sys [] sys
| execution_step sys tr sys' le sys'' :
    execution worker_amount sys tr sys' ->
    step worker_amount sys' le sys'' ->
    execution worker_amount sys (tr ++ [le]) sys''.

(** The events of worker [i] in a trace, and the latest of them. *)
Definition events_of (i : nat) (tr : list (nat * event)) : list event :=
  snd <$> List.filter (fun le => Nat.eqb (fst le) i) tr.

Definition last_event (i : nat) (tr : list (nat * event)) : option event :=
  last (events_of i tr).

(** The program point a worker is at after its latest event. *)
Definition point_after (worker_amount : Z) (e : option event) : point :=
  match e with
  | None => OwnQueue
  | Some (EvPop true) => OwnQueue
  | Some (EvPop false) => EnterStealing
  | Some (EvStealerFetchAdd _) => Steal
  | Some (EvSteal _ true) => Stolen
  | Some (EvSteal _ false) => CheckAllStealing
  | Some (EvStealerFetchSub _) => OwnQueue
  | Some (EvStealerLoadRelaxed v) => if v >=? worker_amount then Deactivate else Yield
  | Some (EvActiveFetchSub old) => if old =? 1 then PublishDone else Wait
  | Some (EvStealerStore _) => Wait
  | Some (EvStealerWait _) => Woken
  | Some (EvStealerLoad v) => if v >? worker_amount then Returned else Reactivate
  | Some (EvActiveFetchAdd _) => Yield
  | Some EvYield => Steal
  end.

End Scheduler.

(** ** Small inputs used to exercise the theorems *)

(** The graph of two nodes [0 -> 1], as [new_node] builds it. *)
Definition chain_graph : JobGraph.t :=
  JobGraph.mk 0
    [JobGraphNode.set_successors (JobGraphNode.new (Some 0%nat) [] 0 0) [1%nat];
     JobGraphNode.set_predecessor_amount
       (JobGraphNode.set_initial_predecessor_amount
          (JobGraphNode.new (Some 1%nat) [] 0 1) 1) 1]
    [0%nat].

(** A worker with one chunk of jobs and an empty deque, on the chain graph;
    the same worker with a deque that holds [queue_capacity] jobs. *)
Definition fresh_worker : machine :=
  mkMachine JobAllocator.new (JobChunkAllocator.new 1) JobQueue.new (JobGraph.nodes chain_graph).

Definition full_worker : machine :=
  mkMachine JobAllocator.new (JobChunkAllocator.new 1)
    (JobQueue.mk (JobQueue.ring_buffer JobQueue.new) 0 queue_capacity)
    (JobGraph.nodes chain_graph).

(** A run of a single worker through [work_loop] that finds no work. *)
Definition lone_worker_trace : list (nat * Scheduler.event) :=
  [(0%nat, Scheduler.EvPop false);
   (0%nat, Scheduler.EvStealerFetchAdd 0);
   (0%nat, Scheduler.EvSteal 0 false);
   (0%nat, Scheduler.EvStealerLoadRelaxed 1);
   (0%nat, Scheduler.EvActiveFetchSub 1);
   (0%nat, Scheduler.EvStealerStore 2);
   (0%nat, Scheduler.EvStealerWait 2);
   (0%nat, Scheduler.EvStealerLoad 2)].


(** ** The deque as a sequence of jobs *)

Module Deque.

(** The jobs the deque holds, oldest first: the slots [top], ..., [bottom - 1]
    of the ring buffer. *)
Definition contents (q : JobQueue.t) : list JobPtr :=
  (fun i => JobQueue.load_slot q (JobQueue.top q + Z.of_nat i))
    <$> seq 0 (Z.to_nat (JobQueue.length q)).

(** A deque state that holds at most [queue_capacity] jobs. *)
Definition bounded (q : JobQueue.t) : Prop :=
  JobQueue.valid q /\ JobQueue.length q <= queue_capacity.

End Deque.


(** ** Sequences of job allocations *)

Module Allocation.

(** The worker's allocator and the chunk allocator after [n] calls of
    [JobAllocator::allocate] that all returned. *)
Fixpoint after_allocations (n : nat) (a : JobAllocator.t) (ca : JobChunkAllocator.t)
  : result (JobAllocator.t * JobChunkAllocator.t) :=
  match n with
  | O => Ok (a, ca)
  | S n =>
      '(a, ca) ← after_allocations n a ca;
      '(_, a, ca) ← JobAllocator.allocate a ca;
      Ok (a, ca)
  end.

(** The call of [JobAllocator::allocate] that follows [n] earlier ones. *)
Definition allocation_after (n : nat) (a : JobAllocator.t) (ca : JobChunkAllocator.t)
  : result (JobPtr * JobAllocator.t * JobChunkAllocator.t) :=
  '(a, ca) ← after_allocations n a ca; JobAllocator.allocate a ca.

(** Where the worker stands after [k] allocations from a reset state: in the
    middle of chunk [k / allocation_chunk_size], or between two chunks. *)
Definition progress (k : Z) (chunk_list : list JobChunk)
    (a : JobAllocator.t) (ca : JobChunkAllocator.t) : Prop :=
  JobChunkAllocator.chunks ca = chunk_list /\
  (k mod allocation_chunk_size = 0 ->
     JobAllocator.chunk a = None /\
     JobChunkAllocator.next_index ca = k / allocation_chunk_size) /\
  (k mod allocation_chunk_size <> 0 ->
     JobAllocator.chunk a = Some (Z.to_nat (k / allocation_chunk_size)) /\
     JobAllocator.next_index a = k mod allocation_chunk_size /\
     JobChunkAllocator.next_index ca = k / allocation_chunk_size + 1).

End Allocation.


(** ** What a run leaves alone *)

Module Shape.

(** [m'] has the nodes of [m] with the same successors, the same
    [initial_predecessor_amount], the same owner and the same root job: only
    the two atomic counters may differ. *)
Definition same_shape (m m' : list JobGraphNode.t) : Prop :=
  Forall2
    (fun n n' =>
       JobGraphNode.successors n' = JobGraphNode.successors n /\
       JobGraphNode.initial_predecessor_amount n' = JobGraphNode.initial_predecessor_amount n /\
       JobGraphNode.owner n' = JobGraphNode.owner n /\
       JobGraphNode.root_job n' = JobGraphNode.root_job n)
    m m'.

End Shape.


(** ** Predecessor counts *)

Module Degree.

(** The number of successor edges that point at node [i]. *)
Definition in_degree (m : list JobGraphNode.t) (i : nat) : nat :=
  sum_list_with (fun n => count_occ Nat.eq_dec (JobGraphNode.successors n) i) m.

(** Every node's counters are at their start-of-run values: the two predecessor
    counters equal the number of edges into the node, [unfinished_amount] is 1;
    and the root job points back at its node. *)
Definition counters_match (g_this : nat) (m : list JobGraphNode.t) : Prop :=
  forall i n, m !! i = Some n ->
    JobGraphNode.initial_predecessor_amount n = Z.of_nat (in_degree m i) /\
    JobGraphNode.predecessor_amount n = JobGraphNode.initial_predecessor_amount n /\
    JobGraphNode.unfinished_amount n = 1 /\
    Job.node (JobGraphNode.root_job n) = Some i /\
    JobGraphNode.owner n = g_this.

End Degree.


(** ** The redundant-edge rule *)

Module Filter.

(** Some other listed predecessor is reachable from [p]. *)
Definition redundant_in (m : list JobGraphNode.t) (predecessors : list nat) (p : nat) : Prop :=
  exists c, In c predecessors /\ c <> p /\ JobGraph.reaches m p c.

(** No other listed predecessor is reachable from [p]. *)
Definition survives_in (m : list JobGraphNode.t) (predecessors : list nat) (p : nat) : Prop :=
  forall c, In c predecessors -> c <> p -> ~ JobGraph.reaches m p c.

(** The arena [m] is the graph [m0] in which the entries [visited] of the
    array [predecessors] have been wired to the new node [node]: a surviving
    node has gained [node] once per visited entry, a redundant one nothing. *)
Definition wired (m0 : list JobGraphNode.t) (predecessors visited : list nat) (node : nat)
    (m : list JobGraphNode.t) : Prop :=
  forall p np, m0 !! p = Some np ->
    exists np' k,
      m !! p = Some np' /\
      JobGraphNode.successors np' = JobGraphNode.successors np ++ replicate k node /\
      (redundant_in m0 predecessors p -> k = 0%nat) /\
      (survives_in m0 predecessors p -> k = count_occ Nat.eq_dec visited p).

End Filter.


(** ** Which workers the two counters of [work_loop] count *)

Module Activity.
Import Scheduler.

(** The worker has added itself to [stealer_amount] and not taken itself out:
    it is between [stealer_amount.fetch_add(1)] and the [fetch_sub(1)] that
    follows a successful steal. *)
Definition stealing (pt : point) : bool :=
  match pt with
  | OwnQueue | EnterStealing => false
  | _ => true
  end.

(** The worker has taken itself out of [active_amount] and not put itself
    back: it is between [active_amount.fetch_sub(1)] and the [fetch_add(1)]
    that follows a false wait. *)
Definition deactivated (pt : point) : bool :=
  match pt with
  | PublishDone | Wait | Woken | Reactivate | Returned => true
  | _ => false
  end.

Definition count (f : point -> bool) (pts : list point) : nat :=
  sum_list_with (fun pt => if f pt then 1%nat else 0%nat) pts.

(** Some worker has executed [stealer_amount.store(worker_amount + 1)]. *)
Definition published (tr : list (nat * event)) : bool :=
  existsb (fun le => match snd le with EvStealerStore _ => true | _ => false end) tr.

End Activity.


(** The trace [tr] passes through a state in which [active_amount] is 0 and
    every worker has deactivated itself. *)
Definition quiescent_before (worker_amount : Z) (tr : list (nat * Scheduler.event)) : Prop :=
  exists tr1 tr2 sys1,
    tr = tr1 ++ tr2 /\
    Scheduler.execution worker_amount (Scheduler.initial worker_amount) tr1 sys1 /\
    Scheduler.active_amount (Scheduler.atomics sys1) = 0 /\
    Forall (fun pt => Activity.deactivated pt = true) (Scheduler.points sys1).


(** ** The root jobs a worker starts with *)

Module RootJobs.

(** The first loop of [run_worker]:
    [for (Size i = index; root_job = job_graph->get_root_job(i); i += worker_amount)
       root_job->run(...)].
    The loop has no bound of its own; [fuel] bounds the iterations of the
    model. *)
Fixpoint run_root_jobs (fuel : nat) (functions : nat -> JobFunction) (g : JobGraph.t)
    (worker_amount i : Z) (w : machine) : result machine :=
  match fuel with
  | O => Fault OutOfFuel
  | S fuel =>
      match JobGraph.get_root_job i g with
      | None => Ok w
      | Some root_job =>
          j ← load_job root_job w;
          w ← Job_run functions j w;
          run_root_jobs fuel functions g worker_amount (wrap_u32 (i + worker_amount)) w
      end
  end.

(** Running the jobs of a list in order. *)
Fixpoint run_each (functions : nat -> JobFunction) (jobs : list JobRef) (w : machine)
  : result machine :=
  match jobs with
  | [] => Ok w
  | job :: jobs =>
      j ← load_job job w;
      w ← Job_run functions j w;
      run_each functions jobs w
  end.

(** The positions in [root_nodes], from [first] on, that are congruent to
    [index] modulo [worker_amount], in increasing order. *)
Definition positions_from (first amount : nat) (worker_amount index : Z) : list nat :=
  List.filter (fun j => Z.of_nat j mod worker_amount =? index) (seq first amount).

Definition positions (g : JobGraph.t) (worker_amount index : Z) : list nat :=
  positions_from 0 (List.length (JobGraph.root_nodes g)) worker_amount index.

(** The root jobs at these positions. *)
Definition share (g : JobGraph.t) (worker_amount index : Z) : list JobRef :=
  (fun j => JobGraphNode.get_root_job (JobGraph.root_nodes g !!! j))
    <$> positions g worker_amount index.

End RootJobs.


(** ** Several workers allocating from one chunk allocator *)

Module Pool.

(** The [JobAllocator] of every worker and the [JobChunkAllocator] they
    share. *)
Record t : Type := mk {
  allocators : list JobAllocator.t;
  chunk_allocator : JobChunkAllocator.t
}.

(** Worker [i] calls [allocate] on its allocator. *)
Definition allocate_by (i : nat) (p : t) : result (JobPtr * t) :=
  match allocators p !! i with
  | None => Fault InvalidPointer
  | Some a =>
      '(job, a, ca) ← JobAllocator.allocate a (chunk_allocator p);
      Ok (job, mk (<[i := a]> (allocators p)) ca)
  end.

(** The workers [callers] call [allocate] one after the other, in any order
    of the workers; the pointers returned, in the order of the calls. *)
Fixpoint allocations (callers : list nat) (p : t) : result (list JobPtr * t) :=
  match callers with
  | [] => Ok ([], p)
  | i :: callers =>
      '(job, p) ← allocate_by i p;
      '(jobs, p) ← allocations callers p;
      Ok (job :: jobs, p)
  end.

(** The state at the start of a run: no worker holds a chunk and no chunk has
    been handed out. *)
Definition fresh (p : t) : Prop :=
  Forall (fun a => JobAllocator.chunk a = None) (allocators p) /\
  JobChunkAllocator.next_index (chunk_allocator p) = 0.

(** Worker [i] holds chunk [c] and has handed out its first [n] slots. *)
Definition owns (p : t) (i c : nat) (n : Z) : Prop :=
  exists a, allocators p !! i = Some a /\
    JobAllocator.chunk a = Some c /\ JobAllocator.next_index a = n.

(** The jobs [out] handed out so far are distinct slots of chunks that have
    been handed out, below the cursor of the worker that holds the chunk. *)
Definition invariant (p : t) (out : list JobRef) : Prop :=
  let N := JobChunkAllocator.next_index (chunk_allocator p) in
  let C := List.length (JobChunkAllocator.chunks (chunk_allocator p)) in
  0 <= N <= uint32_max /\
  (forall i c n, owns p i c n ->
     Z.of_nat c < N /\ (c < C)%nat /\ 0 < n < allocation_chunk_size) /\
  (forall i j c n n', owns p i c n -> owns p j c n' -> i = j) /\
  (forall job, In job out ->
     exists c s, job = ChunkJob c s /\ Z.of_nat c < N /\ (c < C)%nat /\
       Z.of_nat s < allocation_chunk_size /\
       forall i n, owns p i c n -> Z.of_nat s < n) /\
  NoDup out.

(** The pointers of a list that are not null. *)
Definition non_null_jobs (jobs : list JobPtr) : list JobRef := omap id jobs.

End Pool.


(** Two workers on a chunk allocator of a single chunk. *)
Definition two_worker_pool : Pool.t :=
  Pool.mk [JobAllocator.new; JobAllocator.new] (JobChunkAllocator.new 1).


(** ** One worker running a whole graph *)

Module Run.

(** The own-queue loop of [work_loop],
    [while (own_job = worker.job_queue.pop()) own_job->run(...)], together
    with the jobs it ran, in the order it ran them.  The loop has no bound of
    its own; [fuel] bounds the iterations of the model. *)
Fixpoint run_own_jobs (fuel : nat) (functions : nat -> JobFunction) (w : machine)
  : result (list JobRef * machine) :=
  match fuel with
  | O => Fault OutOfFuel
  | S fuel =>
      let '(own_job, q) := JobQueue.pop (queue w) in
      let w := mkMachine (allocator w) (chunk_allocator w) q (graph_nodes w) in
      match own_job with
      | None => Ok ([], w)
      | Some own_job =>
          j ← load_job own_job w;
          w ← Job_run functions j w;
          '(ran, w) ← run_own_jobs fuel functions w;
          Ok (own_job :: ran, w)
      end
  end.

(** The successors of node [u] of the arena [m]. *)
Definition successors_of (m : list JobGraphNode.t) (u : nat) : list nat :=
  match m !! u with
  | Some n => JobGraphNode.successors n
  | None => []
  end.

(** The number of edges into [v] from the nodes [done]. *)
Definition fired (m : list JobGraphNode.t) (done : list nat) (v : nat) : nat :=
  sum_list_with (fun u => count_occ Nat.eq_dec (successors_of m u) v) done.

(** What [predecessor_amount] of node [v] holds once the nodes [done] have
    completed and, of the successor list of the node that is completing, the
    part [visited] has been visited: a completed node is back at its initial
    value, another node has lost one for every edge that fired. *)
Definition pending (m0 : list JobGraphNode.t) (done visited : list nat) (v : nat)
    (n0 : JobGraphNode.t) : Z :=
  if decide (v ∈ done) then JobGraphNode.initial_predecessor_amount n0
  else JobGraphNode.initial_predecessor_amount n0
       - Z.of_nat (fired m0 done v) - Z.of_nat (count_occ Nat.eq_dec visited v).

(** Node [v] has predecessors, has not completed, and all the edges into it
    have fired. *)
Definition ready (m0 : list JobGraphNode.t) (done visited : list nat) (v : nat) : Prop :=
  exists n0, m0 !! v = Some n0 /\
    0 < JobGraphNode.initial_predecessor_amount n0 /\
    (v ∉ done) /\
    (fired m0 done v + count_occ Nat.eq_dec visited v)%nat = Degree.in_degree m0 v.

(** The state of the arena [m] and of the deque [q] between two jobs of a run
    of the graph [m0] on a deque whose [bottom] was [b0] at the start: the
    nodes [done] have completed, in this order, each after its predecessors,
    and the deque holds the root jobs of the nodes [queued].  [popped] is 1
    when a job has been popped and not yet run, and 0 otherwise. *)
Record state_ok (m0 : list JobGraphNode.t) (b0 : Z) (popped : nat)
    (m : list JobGraphNode.t) (q : JobQueue.t) (done queued : list nat) : Prop := {
  ok_length : List.length m = List.length m0;
  ok_arena : forall v n0, m0 !! v = Some n0 ->
    m !! v = Some (JobGraphNode.set_predecessor_amount n0 (pending m0 done [] v n0));
  ok_bounded : Deque.bounded q;
  ok_contents : Deque.contents q = (fun v => Some (RootJobOf v)) <$> queued;
  ok_bottom : JobQueue.bottom q <= b0 + Z.of_nat (List.length (done ++ queued) + popped);
  ok_nodup : NoDup (done ++ queued);
  ok_range : Forall (fun v => (v < List.length m0)%nat) (done ++ queued);
  ok_queued : forall v, v ∈ queued -> ready m0 done [] v;
  ok_order : forall pre v post, done = pre ++ v :: post ->
    forall u, JobGraph.edge m0 u v -> u ∈ pre
}.

(** The same inside the loop of [job_completed] of node [p], whose
    [unfinished_amount] is 0, after the part [visited] of its successors. *)
Record mid_ok (m0 : list JobGraphNode.t) (b0 : Z) (p : nat) (done visited : list nat)
    (m : list JobGraphNode.t) (q : JobQueue.t) (queued : list nat) : Prop := {
  mid_length : List.length m = List.length m0;
  mid_arena : forall v n0, m0 !! v = Some n0 ->
    m !! v = Some (if decide (v = p)
                   then JobGraphNode.set_unfinished_amount
                          (JobGraphNode.set_predecessor_amount n0 (pending m0 done [] v n0)) 0
                   else JobGraphNode.set_predecessor_amount n0 (pending m0 done visited v n0));
  mid_bounded : Deque.bounded q;
  mid_contents : Deque.contents q = (fun v => Some (RootJobOf v)) <$> queued;
  mid_bottom : JobQueue.bottom q <= b0 + Z.of_nat (List.length (done ++ p :: queued));
  mid_nodup : NoDup (done ++ p :: queued);
  mid_range : Forall (fun v => (v < List.length m0)%nat) (done ++ p :: queued);
  mid_queued : forall v, v ∈ queued -> ready m0 done visited v;
  mid_complete : forall v, ready m0 done visited v -> v <> p -> v ∈ queued
}.

(** A graph at the start of a run: built in topological order, counters at
    their initial values, every root job with a function, and no more nodes
    than a deque has slots. *)
Record runnable (g_this : nat) (m0 : list JobGraphNode.t) : Prop := {
  run_topological : JobGraph.topological m0;
  run_counters : Degree.counters_match g_this m0;
  run_degree : forall v, Z.of_nat (Degree.in_degree m0 v) <= uint32_max;
  run_function : forall v n0, m0 !! v = Some n0 ->
    is_Some (Job.function (JobGraphNode.root_job n0));
  run_size : Z.of_nat (List.length m0) <= queue_capacity
}.

(** A call a run can start from: the node has a job function and, in the
    predecessor form, at least one predecessor. *)
Definition startable (c : JobGraph.call) : Prop :=
  match c with
  | JobGraph.NewNode f _ => is_Some f
  | JobGraph.NewNodeAfter f _ predecessors => is_Some f /\ predecessors <> []
  end.

(** What such calls establish for every node. *)
Definition started (g : JobGraph.t) : Prop :=
  forall v n0, JobGraph.nodes g !! v = Some n0 ->
    is_Some (Job.function (JobGraphNode.root_job n0)) /\
    0 <= JobGraphNode.initial_predecessor_amount n0 <= uint32_max /\
    ((v ∉ JobGraph.root_nodes g) -> 0 < JobGraphNode.initial_predecessor_amount n0).

End Run.


(* ================================================================== *)
(** * Properties *)
(* ================================================================== *)

(** ** Fixed-width arithmetic *)

Lemma wrap_i32_id z : - 2 ^ 31 <= z <= int32_max -> wrap_i32 z = z.
Proof.
  unfold wrap_i32, int32_max. intros H.
  rewrite Z.mod_small by lia. lia.
Qed.

Lemma wrap_u32_id z : 0 <= z <= uint32_max -> wrap_u32 z = z.
Proof. unfold wrap_u32, uint32_max. intros H. apply Z.mod_small. lia. Qed.

Lemma to_size_t_id z : 0 <= z < 2 ^ 64 -> to_size_t z = z.
Proof. unfold to_size_t. intros H. apply Z.mod_small. lia. Qed.

(** ** The work-stealing deque *)

Section JobQueueFacts.
Import JobQueue.

Lemma valid_new : valid new.
Proof.
unfold valid, new, size_max, int32_max; cbn [ring_buffer top bottom].
rewrite length_replicate. lia.
Qed.

Lemma slot_index_mod i :
  0 <= i <= size_max -> slot_index i = Z.to_nat (i mod queue_capacity).
Proof.
  unfold slot_index, size_max, int32_max. intros H.
  rewrite to_size_t_id by lia. reflexivity.
Qed.

Lemma slot_index_lt i : (slot_index i < Z.to_nat queue_capacity)%nat.
Proof.
  unfold slot_index, queue_capacity.
  pose proof (Z.mod_pos_bound (to_size_t i) 4096). lia.
Qed.

Lemma length_difference q :
  valid q ->
  to_size_t (wrap_i32 (bottom q - top q)) = bottom q - top q.
Proof.
  unfold valid, size_max, int32_max. intros (_ & H0 & H1 & H2).
  rewrite wrap_i32_id by (unfold int32_max; lia).
  apply to_size_t_id. lia.
Qed.

(** What [push] computes on a state whose [bottom] is below [size_max]. *)
Lemma push_eq job q :
  valid q -> bottom q < size_max ->
  push job q =
    if length q =? queue_capacity then Ok (false, q)
    else Ok (true, mk (<[Z.to_nat (bottom q mod queue_capacity) := job]> (ring_buffer q))
                      (top q) (bottom q + 1)).
Proof.
  intros Hv Hb. pose proof Hv as (Hl & H0 & H1 & H2).
  unfold push, assert.
  destruct (Z.ltb_spec (bottom q) size_max) as [_ | ?]; [simpl | lia].
  rewrite length_difference by assumption. fold (length q).
  destruct (length q =? queue_capacity); [reflexivity |].
  unfold set_bottom, set_slot; simpl.
  rewrite slot_index_mod by lia.
  rewrite wrap_i32_id by (unfold size_max, int32_max in *; lia).
  reflexivity.
Qed.

Lemma pop_with_empty thieves q :
  valid q -> bottom q - 1 < top q -> pop_with thieves q = (None, q).
Proof.
  intros (Hl & H0 & H1 & H2) He. unfold pop_with, size_max, int32_max in *.
  simpl. rewrite (wrap_i32_id (bottom q - 1)) by (unfold int32_max; lia).
  destruct (Z.ltb_spec (bottom q - 1) (top q)) as [_ | ?]; [| lia].
  unfold set_bottom; simpl.
  rewrite wrap_i32_id by (unfold int32_max; lia).
  replace (bottom q - 1 + 1) with (bottom q) by lia. destruct q; reflexivity.
Qed.

Lemma pop_with_many thieves q :
  valid q -> 1 < length q ->
  pop_with thieves q = (load_slot q (bottom q - 1), set_bottom q (bottom q - 1)).
Proof.
  intros (Hl & H0 & H1 & H2) He. unfold length, pop_with, size_max, int32_max in *.
  simpl. rewrite (wrap_i32_id (bottom q - 1)) by (unfold int32_max; lia).
  destruct (Z.ltb_spec (bottom q - 1) (top q)) as [? | _]; [lia |].
  destruct (Z.gtb_spec (bottom q - 1) (top q)) as [_ | ?]; [| lia].
  reflexivity.
Qed.

Lemma pop_with_last thieves q :
  valid q -> length q = 1 ->
  pop_with thieves q =
    if thieves (top q) =? top q
    then (load_slot q (bottom q - 1), mk (ring_buffer q) (top q + 1) (bottom q - 1 + 1))
    else (None, mk (ring_buffer q) (thieves (top q)) (bottom q - 1 + 1)).
Proof.
  intros (Hl & H0 & H1 & H2) He. unfold length, pop_with, size_max, int32_max in *.
  simpl. rewrite (wrap_i32_id (bottom q - 1)) by (unfold int32_max; lia).
  destruct (Z.ltb_spec (bottom q - 1) (top q)) as [? | _]; [lia |].
  destruct (Z.gtb_spec (bottom q - 1) (top q)) as [? | _]; [lia |].
  unfold compare_exchange_strong.
  rewrite !wrap_i32_id by (unfold int32_max; lia).
  destruct (thieves (top q) =? top q); reflexivity.
Qed.

Lemma load_slot_pushed job q q' :
  valid q -> push job q = Ok (true, q') -> load_slot q' (bottom q' - 1) = job.
Proof.
  intros Hv Hp. pose proof Hv as (Hl & H0 & H1 & H2).
  assert (Hb : bottom q < size_max).
  { unfold push, assert in Hp.
    destruct (Z.ltb_spec (bottom q) size_max); [assumption | discriminate]. }
  rewrite push_eq in Hp by assumption.
  destruct (length q =? queue_capacity); [discriminate |].
  injection Hp as <-. unfold load_slot; cbn [ring_buffer bottom].
  replace (bottom q + 1 - 1) with (bottom q) by lia.
  rewrite slot_index_mod by lia.
  rewrite list_lookup_insert_eq; [reflexivity |].
  rewrite Hl, <- slot_index_mod by lia. apply slot_index_lt.
Qed.

Lemma push_preserves_valid job q b q' :
  valid q -> push job q = Ok (b, q') -> valid q'.
Proof.
  intros Hv Hp. pose proof Hv as (Hl & H0 & H1 & H2).
  assert (Hb : bottom q < size_max).
  { unfold push, assert in Hp.
    destruct (Z.ltb_spec (bottom q) size_max); [assumption | discriminate]. }
  rewrite push_eq in Hp by assumption.
  destruct (length q =? queue_capacity); injection Hp as <- <-; [assumption |].
  unfold valid; cbn [ring_buffer top bottom]. rewrite length_insert. lia.
Qed.

Lemma pop_preserves_valid q : valid q -> valid (snd (pop q)).
Proof.
  intros Hv. pose proof Hv as (Hl & H0 & H1 & H2). unfold pop.
  destruct (Z.lt_trichotomy (length q) 1) as [Hlt | [Heq | Hgt]].
  - rewrite pop_with_empty by (unfold length in Hlt; lia || assumption). assumption.
  - rewrite pop_with_last by assumption. rewrite Z.eqb_refl.
    unfold length in Heq. unfold valid; cbn [snd ring_buffer top bottom]. lia.
  - rewrite pop_with_many by assumption.
    unfold length in Hgt. unfold valid, set_bottom; cbn [snd ring_buffer top bottom]. lia.
Qed.

Lemma steal_preserves_valid q : valid q -> valid (snd (steal q)).
Proof.
  intros Hv. pose proof Hv as (Hl & H0 & H1 & H2).
  unfold steal, steal_with, compare_exchange_strong, size_max, int32_max in *.
  destruct (Z.geb_spec (top q) (bottom q)); [assumption |].
  cbn [set_top top]. rewrite Z.eqb_refl. cbn [negb snd].
  unfold valid, set_top, size_max, int32_max; cbn [ring_buffer top bottom].
  rewrite wrap_i32_id by (unfold int32_max; lia). lia.
Qed.

Lemma reachable_valid q : reachable q -> valid q.
Proof.
  induction 1 as [| q _ IH | q job b q' _ IH Hp | q _ IH | q _ IH].
  - apply valid_new.
  - destruct IH as (Hl & _). unfold valid, reset, set_top, set_bottom, size_max, int32_max.
    cbn [ring_buffer top bottom]. lia.
  - eapply push_preserves_valid; eassumption.
  - apply pop_preserves_valid, IH.
  - apply steal_preserves_valid, IH.
Qed.

(** C2. In an uncontended execution [pop] on an empty deque returns null and
    leaves [bottom] (and the length, zero) as it was; on a deque of more than
    one element it returns the job of the most recent [push] and leaves [top]
    alone; on the last element it restores [bottom] to the claim value plus one
    whether the compare-and-swap on [top] succeeds or fails, returning the job
    on success and null on failure. *)
Theorem pop_single_threaded_cases q :
  valid q ->
  (bottom q - 1 < top q ->
     pop q = (None, q) /\ length (snd (pop q)) = 0) /\
  (bottom q - 1 > top q ->
     fst (pop q) = load_slot q (bottom q - 1) /\
     top (snd (pop q)) = top q /\
     forall q0 job, valid q0 -> push job q0 = Ok (true, q) -> fst (pop q) = job) /\
  (bottom q - 1 = top q ->
     forall thieves,
       bottom (snd (pop_with thieves q)) = (bottom q - 1) + 1 /\
       (thieves (top q) = top q ->
          fst (pop_with thieves q) = load_slot q (bottom q - 1) /\
          top (snd (pop_with thieves q)) = top q + 1) /\
       (thieves (top q) <> top q ->
          fst (pop_with thieves q) = None)).
Proof.
  intros Hv. pose proof Hv as (Hl & H0 & H1 & H2). split; [| split].
  - intros He. unfold pop. rewrite pop_with_empty by assumption.
    split; [reflexivity |]. unfold length; cbn [snd]. lia.
  - intros Hm. unfold pop. rewrite pop_with_many by (unfold length; lia || assumption).
    cbn [fst snd set_bottom top]. repeat split.
    intros q0 job Hv0 Hp. eapply load_slot_pushed; eassumption.
  - intros Hlast thieves.
    rewrite pop_with_last by (unfold length; lia || assumption).
    destruct (Z.eqb_spec (thieves (top q)) (top q)) as [He | Hn]; cbn [fst snd top bottom].
    + split; [reflexivity |]. split; [intros _; split; reflexivity |].
      intros Hn. contradiction.
    + split; [reflexivity |]. split; [intros He; contradiction |].
      intros _. reflexivity.
Qed.

Lemma pop_single_threaded_cases_witness :
  valid new /\ pop new = (None, new).
Proof.
  split; [apply valid_new |].
  apply (pop_single_threaded_cases new valid_new). reflexivity.
Defined.

(** C3 (amended). On every deque state whose [bottom] is below [size_max], the
    precondition [push] asserts, [push] returns false exactly when the length
    [bottom - top] equals the capacity, and then changes nothing; otherwise it
    stores the job into slot [bottom mod capacity], increments [bottom] by one
    and returns true. *)
Theorem push_full_or_stored job q :
  valid q -> bottom q < size_max ->
  ((exists q', push job q = Ok (false, q')) <-> length q = queue_capacity) /\
  (length q = queue_capacity -> push job q = Ok (false, q)) /\
  (length q <> queue_capacity ->
     push job q =
       Ok (true, mk (<[Z.to_nat (bottom q mod queue_capacity) := job]> (ring_buffer q))
                    (top q) (bottom q + 1))).
Proof.
  intros Hv Hb. rewrite (push_eq job q Hv Hb).
  destruct (Z.eqb_spec (length q) queue_capacity) as [He | Hn].
  - split; [| split].
    + split; [intros _; exact He | intros _; exists q; reflexivity].
    + intros _. reflexivity.
    + intros Hn. contradiction.
  - split; [| split].
    + split; [intros [q' Hq]; discriminate | intros He; contradiction].
    + intros He. contradiction.
    + intros _. reflexivity.
Qed.

Lemma push_full_or_stored_witness :
  push (Some (RootJobOf 0)) new =
    Ok (true, mk (<[0%nat := Some (RootJobOf 0)]> (ring_buffer new)) 0 1).
Proof.
  apply (push_full_or_stored (Some (RootJobOf 0)) new valid_new); vm_compute; congruence.
Defined.

(** C3 as stated fails on the state whose [bottom] has reached [size_max]: the
    length is zero, not the capacity, yet [push] neither returns true nor
    increments [bottom]; its assertion [local_bottom < size_max] aborts. *)
Lemma push_at_size_max_aborts :
  let q := mk (replicate (Z.to_nat queue_capacity) None) size_max size_max in
  valid q /\
  length q <> queue_capacity /\
  push (Some (RootJobOf 0)) q = Fault AssertionFailed /\
  ~ (exists q', push (Some (RootJobOf 0)) q = Ok (true, q') /\ bottom q' = bottom q + 1).
Proof.
  cbv zeta. split; [| split; [| split]].
  - unfold valid, size_max, int32_max; cbn [ring_buffer top bottom].
    rewrite length_replicate. lia.
  - unfold length, queue_capacity, size_max; cbn [top bottom]. lia.
  - reflexivity.
  - intros [q' [Hq _]]. discriminate.
Qed.

(** The counters of a deque do reach [size_max]: push a job and let it be
    stolen, [size_max] times over. *)
Lemma reachable_counters k :
  0 <= k <= size_max -> exists ring, reachable (mk ring k k).
Proof.
  intros [H0 Hk]. revert Hk. pattern k. apply natlike_ind; [| | exact H0]; clear k H0.
  - intros _. eexists. apply reachable_new.
  - intros k H0 IH Hk. destruct IH as [ring Hr]; [lia |].
    pose proof (reachable_valid _ Hr) as Hv.
    assert (Hp : push None (mk ring k k) =
                 Ok (true, mk (<[Z.to_nat (k mod queue_capacity) := None]> ring) k (k + 1))).
    { rewrite push_eq by (assumption || (cbn [bottom]; lia)).
      unfold length; cbn [top bottom]. rewrite Z.sub_diag. reflexivity. }
    pose proof (reachable_push _ _ _ _ Hr Hp) as Hr1.
    pose proof (reachable_steal _ Hr1) as Hr2.
    exists (<[Z.to_nat (k mod queue_capacity) := None]> ring).
    replace (mk _ (Z.succ k) (Z.succ k)) with
      (snd (steal (mk (<[Z.to_nat (k mod queue_capacity) := None]> ring) k (k + 1))));
      [exact Hr2 |].
    unfold steal, steal_with, compare_exchange_strong; cbn [top bottom set_top ring_buffer].
    destruct (Z.geb_spec k (k + 1)); [lia |]. rewrite Z.eqb_refl. cbn [negb snd].
    unfold size_max, int32_max in Hk.
    rewrite wrap_i32_id by (unfold int32_max; lia). reflexivity.
Qed.

Lemma reachable_size_max :
  exists q, reachable q /\ top q = size_max /\ bottom q = size_max /\
    forall job, push job q = Fault AssertionFailed.
Proof.
  destruct (reachable_counters size_max) as [ring Hr];
    [unfold size_max, int32_max; lia |].
  eexists. split; [exact Hr |]. split; [reflexivity |]. split; [reflexivity |].
  intros job. unfold push, assert; cbn [bottom]. rewrite Z.ltb_irrefl. reflexivity.
Qed.

End JobQueueFacts.

(** ** The chunk allocator *)

Section JobChunkAllocatorFacts.
Import JobChunkAllocator.

Lemma allocate_eq a :
  0 <= next_index a < size_max ->
  allocate a =
    Ok (if next_index a <? Z.of_nat (List.length (chunks a))
        then Some (Z.to_nat (next_index a)) else None,
        set_next_index a (next_index a + 1)).
Proof.
  intros H. unfold allocate, fetch_add_next_index, assert.
  destruct (Z.ltb_spec (next_index a) size_max) as [_ | ?]; [| lia].
  cbn [mbind result_bind set_next_index chunks].
  unfold size_max, uint32_max in H. rewrite wrap_u32_id by (unfold uint32_max; lia).
  destruct (Z.geb_spec (next_index a) (Z.of_nat (List.length (chunks a))));
    destruct (Z.ltb_spec (next_index a) (Z.of_nat (List.length (chunks a))));
    try lia; reflexivity.
Qed.

Lemma after_calls_succ n a :
  after_calls (N.succ n) a = (a' ← after_calls n a; '(_, a'') ← allocate a'; Ok a'').
Proof. unfold after_calls. rewrite N.iter_succ. reflexivity. Qed.

Lemma after_calls_eq n a :
  0 <= next_index a -> next_index a + Z.of_N n <= size_max ->
  after_calls n a = Ok (set_next_index a (next_index a + Z.of_N n)).
Proof.
  induction n as [| n IH] using N.peano_ind; intros H0 Hn.
  - unfold after_calls; cbn [N.iter Z.of_N]. rewrite Z.add_0_r.
    destruct a; reflexivity.
  - rewrite N2Z.inj_succ in Hn.
    rewrite after_calls_succ, IH by lia. cbn [mbind result_bind].
    rewrite allocate_eq by (cbn [set_next_index next_index]; lia).
    cbn [mbind result_bind]. unfold set_next_index; cbn [chunks next_index].
    rewrite N2Z.inj_succ. do 2 f_equal. lia.
Qed.

(** C7 (amended). Every returning call of [allocate] advances [next_index] by
    one [fetch_add] and does nothing else to the allocator; counted from
    construction or from the last [reset], the [n]-th call, for [n] up to
    [size_max = 2^32 - 1], returns the [n]-th chunk when [n] is at most the
    chunk count and null when it is greater; [reset] stores zero to
    [next_index], so the count starts again from the first chunk. *)
Theorem chunk_allocate_nth_call :
  (forall a r a', allocate a = Ok (r, a') -> a' = snd (fetch_add_next_index a)) /\
  (forall a n,
     next_index a = 0 -> (1 <= n)%N -> Z.of_N n <= size_max ->
     nth_call n a =
       Ok (if Z.of_N n <=? Z.of_nat (List.length (chunks a))
           then Some (N.to_nat n - 1)%nat else None,
           set_next_index a (Z.of_N n))) /\
  (forall chunk_amount,
     0 <= chunk_amount ->
     next_index (new chunk_amount) = 0 /\
     Z.of_nat (List.length (chunks (new chunk_amount))) = chunk_amount) /\
  (forall a, next_index (reset a) = 0 /\ chunks (reset a) = chunks a).
Proof.
  split; [| split; [| split]].
  - intros a r a'. unfold allocate, fetch_add_next_index, assert.
    destruct (next_index a <? size_max); [| discriminate].
    cbn [mbind result_bind snd].
    destruct (_ >=? _); intros [= _ <-]; reflexivity.
  - intros a n H0 H1 Hn. unfold nth_call.
    rewrite after_calls_eq by lia. cbn [mbind result_bind].
    rewrite allocate_eq by (cbn [set_next_index next_index]; lia).
    cbn [set_next_index next_index chunks]. rewrite H0.
    replace (0 + Z.of_N (n - 1)) with (Z.of_N n - 1) by lia.
    replace (Z.of_N n - 1 + 1) with (Z.of_N n) by lia.
    replace (Z.to_nat (Z.of_N n - 1)) with (N.to_nat n - 1)%nat by lia.
    destruct (Z.ltb_spec (Z.of_N n - 1) (Z.of_nat (List.length (chunks a))));
      destruct (Z.leb_spec (Z.of_N n) (Z.of_nat (List.length (chunks a))));
      try lia; reflexivity.
  - intros c Hc. unfold new; cbn [next_index chunks]. rewrite length_replicate. lia.
  - intros a. split; reflexivity.
Qed.

Lemma chunk_allocate_nth_call_witness :
  nth_call 1 (new 1) = Ok (Some 0%nat, set_next_index (new 1) 1) /\
  nth_call 2 (new 1) = Ok (None, set_next_index (new 1) 2).
Proof.
  split.
  - apply (proj1 (proj2 chunk_allocate_nth_call) (new 1) 1%N);
      [reflexivity | lia | unfold size_max, uint32_max; lia].
  - apply (proj1 (proj2 chunk_allocate_nth_call) (new 1) 2%N);
      [reflexivity | lia | unfold size_max, uint32_max; lia].
Defined.

(** C7 as stated fails for the call number [2^32]: it is greater than the chunk
    count, yet the call does not return null.  [next_index] has reached
    [size_max] and the assertion [index < size_max] aborts. *)
Lemma chunk_allocate_call_4294967296_aborts :
  (4294967296 > N.of_nat (List.length (chunks (new 1))))%N /\
  nth_call 4294967296 (new 1) = Fault AssertionFailed /\
  ~ (exists a', nth_call 4294967296 (new 1) = Ok (None, a')).
Proof.
  assert (H : nth_call 4294967296 (new 1) = Fault AssertionFailed).
  { unfold nth_call.
    rewrite after_calls_eq by (unfold new, size_max, uint32_max; cbn [next_index]; lia).
    reflexivity. }
  split; [| split].
  - unfold new; cbn [chunks]. rewrite length_replicate. lia.
  - exact H.
  - intros [a' Ha]. rewrite H in Ha. discriminate.
Qed.

End JobChunkAllocatorFacts.

(** ** Graph construction: sizes and the root list *)

Section JobGraphRootFacts.
Import JobGraphNode JobGraph.

Lemma add_successor_length p s m m' :
  add_successor p s m = Ok m' -> List.length m' = List.length m.
Proof.
  unfold add_successor, deref. intros H.
  destruct (m !! p) as [n |]; [| discriminate]. cbn [mbind result_bind] in H.
  destruct (_ !! s) as [n' |]; [| discriminate]. cbn [mbind result_bind] in H.
  injection H as <-. rewrite !length_insert. reflexivity.
Qed.

Lemma wire_predecessors_length g_this predecessors rest node m m' :
  wire_predecessors g_this predecessors rest node m = Ok m' ->
  List.length m' = List.length m.
Proof.
  revert m. induction rest as [| p rest IH]; intros m H; cbn [wire_predecessors] in H.
  - injection H as <-. reflexivity.
  - destruct (deref m p) as [n | e]; [| discriminate]. cbn [mbind result_bind] in H.
    destruct (assert _) as [[] | e]; [| discriminate]. cbn [mbind result_bind] in H.
    destruct (redundant m predecessors p) as [[] | e]; [| | discriminate];
      cbn [mbind result_bind] in H.
    + apply IH in H. exact H.
    + destruct (add_successor p node m) as [m1 | e] eqn:Ha; [| discriminate].
      cbn [mbind result_bind] in H. apply IH in H. rewrite H.
      eapply add_successor_length; eassumption.
Qed.

Lemma do_call_shape c g g' :
  do_call c g = Ok g' ->
  List.length (nodes g') = S (List.length (nodes g)) /\
  root_nodes g' = root_nodes g ++ root_calls (List.length (nodes g)) [c].
Proof.
  destruct c as [f params | f params predecessors]; cbn [do_call root_calls].
  - intros [= <-]. cbn [new_node snd nodes root_nodes].
    rewrite length_app. cbn [List.length]. split; [lia | reflexivity].
  - unfold new_node_after.
    destruct (wire_predecessors _ _ _ _ _) as [m | e] eqn:Hw; [| discriminate].
    cbn [mbind result_bind]. intros [= <-]. cbn [nodes root_nodes].
    apply wire_predecessors_length in Hw. rewrite Hw, length_app. cbn [List.length].
    split; [lia | rewrite app_nil_r; reflexivity].
Qed.

Lemma do_calls_shape cs g g' :
  do_calls cs g = Ok g' ->
  List.length (nodes g') = (List.length (nodes g) + List.length cs)%nat /\
  root_nodes g' = root_nodes g ++ root_calls (List.length (nodes g)) cs.
Proof.
  revert g. induction cs as [| c cs IH]; intros g H; cbn [do_calls] in H.
  - injection H as <-. cbn [List.length root_calls]. rewrite app_nil_r. split; [lia | reflexivity].
  - destruct (do_call c g) as [g1 | e] eqn:Hc; [| discriminate].
    cbn [mbind result_bind] in H.
    apply do_call_shape in Hc. destruct Hc as [Hn Hr].
    apply IH in H. destruct H as [Hn' Hr'].
    rewrite Hn', Hr', Hr, Hn. cbn [List.length]. split; [lia |].
    rewrite <- app_assoc. f_equal.
    destruct c; reflexivity.
Qed.

(** The entries of [root_calls] are, in increasing order, exactly the positions
    of the calls of the no-predecessor form. *)
Lemma root_calls_spec cs k r :
  In r (root_calls k cs) <->
  (k <= r)%nat /\ exists f params, cs !! (r - k)%nat = Some (NewNode f params).
Proof.
  revert k. induction cs as [| c cs IH]; intros k.
  - cbn [root_calls In]. split; [tauto |]. intros (_ & f & p & H). discriminate.
  - assert (Hshift : forall r, (S k <= r)%nat -> (c :: cs) !! (r - k)%nat = cs !! (r - S k)%nat).
    { intros r' Hr. replace (r' - k)%nat with (S (r' - S k)) by lia. reflexivity. }
    destruct c as [f0 p0 | f0 p0 preds]; cbn [root_calls In]; rewrite IH.
    + split.
      * intros [<- | (Hk & f & p & H)].
        -- split; [lia |]. exists f0, p0. rewrite Nat.sub_diag. reflexivity.
        -- split; [lia |]. exists f, p. rewrite Hshift by lia. exact H.
      * intros (Hk & f & p & H).
        destruct (Nat.eq_dec k r) as [-> | Hne]; [left; reflexivity | right].
        split; [lia |]. exists f, p. rewrite <- Hshift by lia. exact H.
    + split.
      * intros (Hk & f & p & H). split; [lia |]. exists f, p. rewrite Hshift by lia. exact H.
      * intros (Hk & f & p & H).
        destruct (Nat.eq_dec k r) as [-> | Hne].
        -- rewrite Nat.sub_diag in H. discriminate.
        -- split; [lia |]. exists f, p. rewrite <- Hshift by lia. exact H.
Qed.

Lemma root_calls_increasing cs k i j ri rj :
  root_calls k cs !! i = Some ri -> root_calls k cs !! j = Some rj ->
  (i < j)%nat -> (ri < rj)%nat.
Proof.
  revert k i j. induction cs as [| c cs IH]; intros k i j Hi Hj Hij.
  - discriminate.
  - destruct c as [f0 p0 | f0 p0 preds]; cbn [root_calls] in Hi, Hj.
    + destruct j as [| j]; [lia |]. cbn in Hj.
      destruct i as [| i].
      * injection Hi as <-.
        assert (In rj (root_calls (S k) cs)) as Hin
          by (apply list_elem_of_In, list_elem_of_lookup; eauto).
        apply root_calls_spec in Hin. lia.
      * cbn in Hi. eapply IH; [exact Hi | exact Hj | lia].
    + eapply IH; eassumption.
Qed.

(** C8. On the graph built by any sequence of [new_node] calls,
    [get_root_job(i)] is the root job of the [i]-th node created with the
    no-predecessor form, in creation order, when [i] is less than the number of
    those nodes, and null when [i] is greater or equal. *)
Theorem get_root_job_nth_root cs g_this g index :
  do_calls cs (new g_this) = Ok g ->
  0 <= index ->
  (index < Z.of_nat (List.length (root_calls 0 cs)) ->
     exists r f params,
       root_calls 0 cs !! Z.to_nat index = Some r /\
       cs !! r = Some (NewNode f params) /\
       get_root_job index g = Some (RootJobOf r)) /\
  (Z.of_nat (List.length (root_calls 0 cs)) <= index ->
     get_root_job index g = None).
Proof.
  intros Hb Hi. apply do_calls_shape in Hb. destruct Hb as [_ Hr].
  cbn [new nodes root_nodes List.length app] in Hr.
  unfold get_root_job. rewrite Hr. split.
  - intros Hlt.
    destruct (Z.geb_spec index (Z.of_nat (List.length (root_calls 0 cs)))); [lia |].
    destruct (root_calls 0 cs !! Z.to_nat index) as [r |] eqn:Hl.
    + assert (In r (root_calls 0 cs)) as Hin
        by (apply list_elem_of_In, list_elem_of_lookup; eauto).
      apply root_calls_spec in Hin. destruct Hin as (_ & f & params & Hc).
      rewrite Nat.sub_0_r in Hc. exists r, f, params. auto.
    + apply lookup_ge_None in Hl. lia.
  - intros Hge.
    destruct (Z.geb_spec index (Z.of_nat (List.length (root_calls 0 cs)))); [reflexivity | lia].
Qed.

Lemma get_root_job_nth_root_witness :
  get_root_job 1
    (mk 7 [JobGraphNode.new (Some 1%nat) [] 7 0; JobGraphNode.new (Some 2%nat) [] 7 1]
          [0%nat; 1%nat])
  = Some (RootJobOf 1) /\
  get_root_job 2
    (mk 7 [JobGraphNode.new (Some 1%nat) [] 7 0; JobGraphNode.new (Some 2%nat) [] 7 1]
          [0%nat; 1%nat])
  = None.
Proof.
  split.
  - destruct (get_root_job_nth_root [NewNode (Some 1%nat) []; NewNode (Some 2%nat) []] 7 _ 1
                eq_refl ltac:(lia)) as [H _].
    destruct H as (r & f & params & Hr & _ & Hg); [cbn; lia |].
    cbn in Hr. injection Hr as <-. exact Hg.
  - apply (get_root_job_nth_root [NewNode (Some 1%nat) []; NewNode (Some 2%nat) []] 7 _ 2
             eq_refl ltac:(lia)).
    cbn. lia.
Defined.

End JobGraphRootFacts.

(** ** The node completion protocol *)

Section CompletionFacts.
Import JobGraphNode Protocol.

Lemma deref_Some (m : list t) p n : m !! p = Some n -> deref m p = Ok n.
Proof. unfold deref. intros ->. reflexivity. Qed.

Lemma can_fire_next m q s succs ns :
  can_fire m q (s :: succs) -> m !! s = Some ns ->
  1 <= predecessor_amount ns <= uint32_max /\
  (predecessor_amount ns = 1 ->
     JobQueue.bottom q < JobQueue.size_max /\ JobQueue.length q <> queue_capacity) /\
  can_fire (<[s := set_predecessor_amount ns (predecessor_amount ns - 1)]> m)
           (if predecessor_amount ns =? 1 then pushed (RootJobOf s) q else q) succs.
Proof.
  intros (Hs & Hv & Hlen & Hbot) Hns.
  cbn [ready_successors] in Hlen, Hbot. rewrite Hns in Hlen, Hbot.
  rewrite length_app in Hlen, Hbot.
  destruct (Hs s (or_introl eq_refl)) as (ns' & Hns' & Hc1 & Hc2).
  rewrite Hns in Hns'. injection Hns' as <-.
  rewrite count_occ_cons_eq in Hc1 by reflexivity.
  split; [lia |]. split.
  { intros H1. rewrite H1 in Hlen, Hbot. cbn in Hlen, Hbot. lia. }
  split; [| split; [| split]].
  - intros s' Hin. destruct (Nat.eq_dec s s') as [<- | Hne].
    + eexists. split.
      * apply list_lookup_insert_eq. eapply lookup_lt_Some; eassumption.
      * cbn [set_predecessor_amount predecessor_amount]. lia.
    + destruct (Hs s' (or_intror Hin)) as (ns' & Hns' & Hc).
      exists ns'. rewrite list_lookup_insert_ne by assumption.
      split; [assumption |]. rewrite count_occ_cons_neq in Hc by assumption. exact Hc.
  - destruct (predecessor_amount ns =? 1); [| assumption].
    cbn [List.length] in Hbot.
    destruct Hv as (Hl & H0 & H1 & H2).
    unfold JobQueue.valid, pushed; cbn [JobQueue.ring_buffer JobQueue.top JobQueue.bottom].
    rewrite length_insert. lia.
  - destruct (predecessor_amount ns =? 1); cbn [List.length] in Hlen; [| lia].
    unfold JobQueue.length, pushed in *; cbn [JobQueue.top JobQueue.bottom]. lia.
  - destruct (predecessor_amount ns =? 1); cbn [List.length] in Hbot; [| lia].
    unfold pushed; cbn [JobQueue.bottom]. lia.
Qed.

(** The loop of the source performs the firing of the protocol and returns. *)
Lemma fire_successors_fires succs : forall m q,
  can_fire m q succs ->
  exists m' q', fire_successors succs m q = Ok (m', q') /\ fires m q succs m' q'.
Proof.
  induction succs as [| s succs IH]; intros m q Hc.
  - exists m, q. split; [reflexivity | constructor].
  - destruct (proj1 Hc s (or_introl eq_refl)) as (ns & Hns & _).
    destruct (can_fire_next _ _ _ _ _ Hc Hns) as (Hp & Hroom & Hc').
    destruct (IH _ _ Hc') as (m' & q' & Hf & Hfs).
    exists m', q'. split; [| econstructor; eassumption].
    cbn [fire_successors]. rewrite (deref_Some _ _ _ Hns). cbn [mbind result_bind].
    unfold assert. destruct (Z.gtb_spec (predecessor_amount ns) 0) as [_ | ?]; [| lia].
    cbn [mbind result_bind].
    rewrite wrap_u32_id by lia.
    destruct (Z.eqb_spec (predecessor_amount ns) 1) as [H1 | _].
    + destruct (Hroom H1) as [Hb Hl].
      rewrite push_eq by (apply Hc || assumption).
      destruct (Z.eqb_spec (JobQueue.length q) queue_capacity) as [? | _]; [contradiction |].
      cbn [mbind result_bind]. exact Hf.
    + cbn [mbind result_bind]. exact Hf.
Qed.

(** The deque after firing holds, pushed in list order, the root jobs of the
    successors that became ready. *)
Lemma fires_queue m q succs m' q' :
  fires m q succs m' q' ->
  q' = foldl (fun q s => pushed (RootJobOf s) q) q (ready_successors m succs).
Proof.
  induction 1 as [m q | m q s succs ns m' q' Hns _ IH]; [reflexivity |].
  cbn [ready_successors]. rewrite Hns, foldl_app, IH.
  destruct (predecessor_amount ns =? 1); reflexivity.
Qed.

(** Readiness depends on the [predecessor_amount] counters only. *)
Lemma ready_successors_ext succs : forall m1 m2,
  (forall i, predecessor_amount <$> m1 !! i = predecessor_amount <$> m2 !! i) ->
  ready_successors m1 succs = ready_successors m2 succs.
Proof.
  induction succs as [| s succs IH]; intros m1 m2 Hext; [reflexivity |].
  cbn [ready_successors]. pose proof (Hext s) as Hs.
  destruct (m1 !! s) as [n1 |] eqn:H1; destruct (m2 !! s) as [n2 |] eqn:H2;
    cbn in Hs; try discriminate; [| reflexivity].
  injection Hs as Hs. rewrite Hs. f_equal. apply IH. intros i.
  destruct (Nat.eq_dec s i) as [<- | Hne].
  - rewrite !list_lookup_insert_eq by (eapply lookup_lt_Some; eassumption).
    reflexivity.
  - rewrite !list_lookup_insert_ne by assumption. apply Hext.
Qed.

Lemma fires_deterministic m q succs m1 q1 m2 q2 :
  fires m q succs m1 q1 -> fires m q succs m2 q2 -> m1 = m2 /\ q1 = q2.
Proof.
  intros H1. revert m2 q2. induction H1 as [m q | m q s succs ns m' q' Hns _ IH];
    intros m2 q2 H2; inversion H2; subst.
  - split; reflexivity.
  - match goal with H : m !! s = Some ?x |- _ =>
      rewrite Hns in H; injection H as <- end.
    apply IH. assumption.
Qed.

(** Firing changes nothing in the arena but the successors' [predecessor_amount],
    which drops by the number of edges from the firing node. *)
Lemma fires_lookup m q succs m' q' :
  fires m q succs m' q' ->
  forall i ni, m !! i = Some ni ->
    m' !! i = Some (set_predecessor_amount ni
                      (predecessor_amount ni - Z.of_nat (count_occ Nat.eq_dec succs i))).
Proof.
  induction 1 as [m q | m q s succs ns m' q' Hns _ IH]; intros i ni Hi.
  - cbn [count_occ]. rewrite Hi. f_equal. destruct ni; unfold set_predecessor_amount; cbn.
    f_equal. lia.
  - destruct (Nat.eq_dec s i) as [<- | Hne].
    + rewrite Hns in Hi. injection Hi as <-.
      rewrite count_occ_cons_eq by reflexivity.
      erewrite IH by (apply list_lookup_insert_eq; eapply lookup_lt_Some; eassumption).
      f_equal. unfold set_predecessor_amount; cbn. f_equal. lia.
    + rewrite count_occ_cons_neq by assumption.
      apply IH. rewrite list_lookup_insert_ne by assumption. exact Hi.
Qed.

Lemma fires_length m q succs m' q' :
  fires m q succs m' q' -> List.length m' = List.length m.
Proof.
  induction 1 as [| m q s succs ns m' q' _ _ IH]; [reflexivity |].
  rewrite IH, length_insert. reflexivity.
Qed.

Lemma can_fire_unfinished m q succs p n v :
  m !! p = Some n -> can_fire m q succs ->
  can_fire (<[p := set_unfinished_amount n v]> m) q succs.
Proof.
  intros Hp (Hs & Hrest).
  assert (Hready : ready_successors (<[p := set_unfinished_amount n v]> m) succs
                   = ready_successors m succs).
  { apply ready_successors_ext. intros i. destruct (Nat.eq_dec p i) as [<- | Hne].
    - rewrite list_lookup_insert_eq by (eapply lookup_lt_Some; eassumption).
      rewrite Hp. reflexivity.
    - rewrite list_lookup_insert_ne by assumption. reflexivity. }
  split; [| rewrite Hready; exact Hrest].
  intros s Hin. destruct (Hs s Hin) as (ns & Hns & Hc).
  destruct (Nat.eq_dec p s) as [<- | Hne].
  - rewrite Hp in Hns. injection Hns as <-. eexists. split.
    + apply list_lookup_insert_eq. eapply lookup_lt_Some; eassumption.
    + exact Hc.
  - exists ns. rewrite list_lookup_insert_ne by assumption. auto.
Qed.

(** C4. [job_completed] takes one off [unfinished_amount].  When the old value
    was greater than 1 nothing else changes.  When it was exactly 1 the
    successors are fired in list order (each successor's [predecessor_amount]
    goes down by one, and its root job is pushed onto the caller's deque exactly
    when the old value was 1) and then the node's [unfinished_amount] is stored
    to 1 and its [predecessor_amount] to [initial_predecessor_amount]. *)
Theorem job_completed_protocol p m q n :
  m !! p = Some n ->
  (1 < unfinished_amount n <= uint32_max ->
     job_completed p m q =
       Ok (<[p := set_unfinished_amount n (unfinished_amount n - 1)]> m, q)) /\
  (unfinished_amount n = 1 ->
     can_fire m q (successors n) ->
     exists m1 q1 n1,
       fires (<[p := set_unfinished_amount n (unfinished_amount n - 1)]> m) q
             (successors n) m1 q1 /\
       q1 = foldl (fun q s => pushed (RootJobOf s) q) q
              (ready_successors m (successors n)) /\
       m1 !! p = Some n1 /\
       initial_predecessor_amount n1 = initial_predecessor_amount n /\
       job_completed p m q = Ok (<[p := counters_reset n1]> m1, q1)).
Proof.
  intros Hp. pose proof (lookup_lt_Some _ _ _ Hp) as Hlt. split.
  - intros Hu. unfold job_completed. rewrite (deref_Some _ _ _ Hp). cbn [mbind result_bind].
    unfold assert. destruct (Z.gtb_spec (unfinished_amount n) 0) as [_ | ?]; [| lia].
    cbn [mbind result_bind].
    destruct (Z.gtb_spec (unfinished_amount n) 1) as [_ | ?]; [| lia].
    rewrite wrap_u32_id by lia. reflexivity.
  - intros Hu Hc.
    assert (Hready : ready_successors
                       (<[p := set_unfinished_amount n (unfinished_amount n - 1)]> m)
                       (successors n)
                     = ready_successors m (successors n)).
    { apply ready_successors_ext. intros i. destruct (Nat.eq_dec p i) as [<- | Hne].
      - rewrite list_lookup_insert_eq by assumption. rewrite Hp. reflexivity.
      - rewrite list_lookup_insert_ne by assumption. reflexivity. }
    apply (can_fire_unfinished _ _ _ _ _ (unfinished_amount n - 1) Hp) in Hc.
    destruct (fire_successors_fires _ _ _ Hc) as (m1 & q1 & Hf & Hfs).
    assert (Hp0 : (<[p := set_unfinished_amount n (unfinished_amount n - 1)]> m) !! p
                  = Some (set_unfinished_amount n (unfinished_amount n - 1)))
      by (apply list_lookup_insert_eq; assumption).
    pose proof (fires_lookup _ _ _ _ _ Hfs _ _ Hp0) as Hp1.
    eexists m1, q1, _. split; [exact Hfs |].
    split; [rewrite <- Hready; eapply fires_queue; exact Hfs |].
    split; [exact Hp1 |]. split; [reflexivity |].
    unfold job_completed. rewrite (deref_Some _ _ _ Hp). cbn [mbind result_bind].
    unfold assert. destruct (Z.gtb_spec (unfinished_amount n) 0) as [_ | ?]; [| lia].
    cbn [mbind result_bind].
    destruct (Z.gtb_spec (unfinished_amount n) 1) as [? | _]; [lia |].
    rewrite (wrap_u32_id (unfinished_amount n - 1)) by (unfold uint32_max; lia).
    rewrite Hf. cbn [mbind result_bind].
    rewrite (deref_Some _ _ _ Hp1). cbn [mbind result_bind].
    assert (Hlt1 : (p < List.length m1)%nat) by (eapply lookup_lt_Some; eassumption).
    rewrite (deref_Some _ _ _ (list_lookup_insert_eq _ _ _ Hlt1)). cbn [mbind result_bind].
    rewrite list_insert_insert_eq. reflexivity.
Qed.

(** A call on a node whose [unfinished_amount] is already 0 trips the assertion
    [old_unfinished_amount > 0]. *)
Lemma job_completed_underflow p m q n :
  m !! p = Some n -> unfinished_amount n = 0 ->
  job_completed p m q = Fault AssertionFailed.
Proof.
  intros Hp Hu. unfold job_completed. rewrite (deref_Some _ _ _ Hp).
  cbn [mbind result_bind]. rewrite Hu. reflexivity.
Qed.

End CompletionFacts.

(** ** Reachability and the ancestor test *)

Section AncestorFacts.
Import JobGraphNode JobGraph.

Lemma any_result_spec {A : Type} (f : A -> result bool) (P : A -> Prop) l :
  (forall x, In x l -> exists b, f x = Ok b /\ (b = true <-> P x)) ->
  exists b, any_result f l = Ok b /\ (b = true <-> exists x, In x l /\ P x).
Proof.
  induction l as [| x l IH]; intros H.
  - exists false. split; [reflexivity |]. split; [discriminate |].
    intros (x & [] & _).
  - destruct (H x (or_introl eq_refl)) as (bx & Hfx & Hbx).
    cbn [any_result]. rewrite Hfx. cbn [mbind result_bind]. destruct bx.
    + exists true. split; [reflexivity |]. split; [| reflexivity].
      intros _. exists x. split; [left; reflexivity | apply Hbx; reflexivity].
    + destruct IH as (b & Hb & Hiff); [intros y Hy; apply H; right; exact Hy |].
      exists b. split; [exact Hb |]. rewrite Hiff. split.
      * intros (y & Hy & HP). exists y. split; [right; exact Hy | exact HP].
      * intros (y & [<- | Hy] & HP).
        -- apply Hbx in HP. discriminate.
        -- exists y. split; assumption.
Qed.

Lemma edge_bounds m a b : topological m -> edge m a b -> (a < b < List.length m)%nat.
Proof.
  intros Ht (n & Hn & Hin). specialize (Ht a n Hn).
  rewrite Forall_forall in Ht. apply Ht, list_elem_of_In, Hin.
Qed.

(** Successor edges go up in the arena: the graph has no cycle. *)
Lemma reaches_bounds m a b : topological m -> reaches m a b -> (a < b < List.length m)%nat.
Proof.
  intros Ht. induction 1 as [a b He | a b c He _ IH].
  - apply edge_bounds; assumption.
  - pose proof (edge_bounds _ _ _ Ht He). lia.
Qed.

Lemma reaches_unfold m a d :
  reaches m a d <-> edge m a d \/ exists s, edge m a s /\ reaches m s d.
Proof.
  split.
  - intros H. inversion H; subst; [left; assumption | right; eauto].
  - intros [He | (s & He & Hr)]; [apply tc_once; exact He | eapply tc_l; eassumption].
Qed.

Lemma existsb_eqb_In (l : list nat) d :
  existsb (fun s => Nat.eqb s d) l = true <-> In d l.
Proof.
  rewrite existsb_exists. split.
  - intros (s & Hin & He). apply Nat.eqb_eq in He. subst. exact Hin.
  - intros Hin. exists d. split; [exact Hin | apply Nat.eqb_refl].
Qed.

(** On an arena in topological order the ancestor test returns, with enough
    fuel, and decides reachability. *)
Lemma is_ancestor_of_fuel_spec m d : topological m ->
  forall fuel p, (List.length m - p <= fuel)%nat -> (p < List.length m)%nat ->
  exists b, is_ancestor_of_fuel fuel m p d = Ok b /\ (b = true <-> reaches m p d).
Proof.
  intros Ht. induction fuel as [| fuel IH]; intros p Hfuel Hp; [lia |].
  destruct (lookup_lt_is_Some_2 m p Hp) as [n Hn].
  cbn [is_ancestor_of_fuel]. unfold deref. rewrite Hn. cbn [mbind result_bind].
  destruct (existsb (fun s => Nat.eqb s d) (successors n)) eqn:Hex.
  - exists true. split; [reflexivity |]. split; [| reflexivity].
    intros _. apply tc_once. exists n. split; [exact Hn |]. apply existsb_eqb_In, Hex.
  - destruct (any_result_spec
                (fun s => is_ancestor_of_fuel fuel m s d)
                (fun s => reaches m s d) (successors n)) as (b & Hb & Hiff).
    { intros s Hin.
      assert (p < s < List.length m)%nat as Hs
        by (apply edge_bounds; [assumption | exists n; split; assumption]).
      apply IH; lia. }
    exists b. split; [exact Hb |]. rewrite Hiff, reaches_unfold. split.
    + intros (s & Hin & Hr). right. exists s. split; [exists n; split; assumption | exact Hr].
    + intros [(n' & Hn' & Hin) | (s & (n' & Hn' & Hin) & Hr)];
        rewrite Hn in Hn'; injection Hn' as <-.
      * apply existsb_eqb_In in Hin. congruence.
      * exists s. split; assumption.
Qed.

Lemma is_ancestor_of_spec m p d :
  topological m -> (p < List.length m)%nat ->
  exists b, is_ancestor_of m p d = Ok b /\ (b = true <-> reaches m p d).
Proof.
  intros Ht Hp. unfold is_ancestor_of. apply is_ancestor_of_fuel_spec; [assumption | lia | assumption].
Qed.

(** The inner loop of the predecessor form returns, and answers whether some
    other listed predecessor is reachable from [p]. *)
Lemma redundant_spec m predecessors p :
  topological m -> (p < List.length m)%nat ->
  exists b, redundant m predecessors p = Ok b /\
    (b = true <-> exists c, In c predecessors /\ c <> p /\ reaches m p c).
Proof.
  intros Ht Hp. unfold redundant.
  destruct (any_result_spec
              (fun c => if negb (Nat.eqb c p) then is_ancestor_of m p c else Ok false)
              (fun c => c <> p /\ reaches m p c) predecessors) as (b & Hb & Hiff).
  - intros c _. destruct (Nat.eqb_spec c p) as [-> | Hne]; cbn [negb].
    + exists false. split; [reflexivity |]. split; [discriminate | intros [Hc _]; congruence].
    + destruct (is_ancestor_of_spec m p c Ht Hp) as (b & Hb & Hiff).
      exists b. split; [exact Hb |]. rewrite Hiff. tauto.
  - exists b. split; [exact Hb |]. exact Hiff.
Qed.

End AncestorFacts.

(** ** The predecessor form of [new_node] *)

Section WiringFacts.
Import JobGraphNode JobGraph.

Lemma add_successor_eq m p node np nn :
  m !! p = Some np -> m !! node = Some nn -> p <> node ->
  add_successor p node m =
    Ok (<[node := set_predecessor_amount
                    (set_initial_predecessor_amount nn
                       (wrap_u32 (initial_predecessor_amount nn + 1)))
                    (wrap_u32 (initial_predecessor_amount nn + 1))]>
          (<[p := set_successors np (successors np ++ [node])]> m)).
Proof.
  intros Hp Hn Hne. unfold add_successor, deref. rewrite Hp. cbn [mbind result_bind].
  rewrite list_lookup_insert_ne by assumption. rewrite Hn. reflexivity.
Qed.

Lemma successors_grow_refl m : successors_grow m m.
Proof. intros i ni Hi. exists ni, []. rewrite app_nil_r. auto. Qed.

Lemma successors_grow_trans m1 m2 m3 :
  successors_grow m1 m2 -> successors_grow m2 m3 -> successors_grow m1 m3.
Proof.
  intros H12 H23 i n1 H1.
  destruct (H12 i n1 H1) as (n2 & l2 & H2 & E2).
  destruct (H23 i n2 H2) as (n3 & l3 & H3 & E3).
  exists n3, (l2 ++ l3). split; [exact H3 |]. rewrite E3, E2, app_assoc. reflexivity.
Qed.

Lemma topological_extend g_this m f params :
  topological m -> owned g_this m ->
  wiring g_this (List.length m) (m ++ [JobGraphNode.new f params g_this (List.length m)]) 0.
Proof.
  intros Ht Ho. split; [| split; [| split]].
  - intros a n Ha. rewrite length_app. cbn [List.length].
    apply lookup_app_Some in Ha. destruct Ha as [Hl | [Hge Hr]].
    + eapply Forall_impl; [exact (Ht a n Hl) |]. cbn. intros; lia.
    + destruct (a - List.length m)%nat; [| discriminate].
      injection Hr as <-. constructor.
  - unfold owned. apply Forall_app. split; [exact Ho |]. repeat constructor.
  - rewrite length_app. cbn [List.length]. lia.
  - eexists. split.
    + rewrite lookup_app_r, Nat.sub_diag by lia. reflexivity.
    + split; reflexivity.
Qed.

Lemma add_successor_wiring g_this node m k p :
  wiring g_this node m k -> (p < node)%nat -> 0 <= k < uint32_max ->
  exists m', add_successor p node m = Ok m' /\
    wiring g_this node m' (k + 1) /\
    successors_grow m m' /\
    exists np', m' !! p = Some np' /\ In node (successors np').
Proof.
  intros (Ht & Ho & Hlen & nn & Hnn & Hi & Hpa) Hp Hk.
  destruct (lookup_lt_is_Some_2 m p ltac:(lia)) as [np Hnp].
  assert (Hne : p <> node) by lia.
  rewrite (add_successor_eq _ _ _ _ _ Hnp Hnn Hne). rewrite Hi.
  rewrite wrap_u32_id by lia.
  eexists. split; [reflexivity |].
  assert (Hp1 : (<[p := set_successors np (successors np ++ [node])]> m) !! p
                = Some (set_successors np (successors np ++ [node])))
    by (apply list_lookup_insert_eq; lia).
  split; [| split].
  - split; [| split; [| split]].
    + intros a n Ha. rewrite !length_insert.
      destruct (Nat.eq_dec node a) as [<- | Hna].
      * rewrite list_lookup_insert_eq in Ha by (rewrite length_insert; lia).
        injection Ha as <-. cbn [set_predecessor_amount set_initial_predecessor_amount successors].
        exact (Ht node nn Hnn).
      * rewrite list_lookup_insert_ne in Ha by assumption.
        destruct (Nat.eq_dec p a) as [<- | Hpa'].
        -- rewrite Hp1 in Ha. injection Ha as <-. cbn [set_successors successors].
           apply Forall_app. split; [exact (Ht p np Hnp) |].
           constructor; [lia | constructor].
        -- rewrite list_lookup_insert_ne in Ha by assumption. exact (Ht a n Ha).
    + unfold owned in *. rewrite Forall_forall in Ho. apply Forall_forall.
      intros n Hin. apply list_elem_of_lookup in Hin. destruct Hin as [a Ha].
      destruct (Nat.eq_dec node a) as [<- | Hna].
      * rewrite list_lookup_insert_eq in Ha by (rewrite length_insert; lia).
        injection Ha as <-. cbn. apply Ho, list_elem_of_lookup. eauto.
      * rewrite list_lookup_insert_ne in Ha by assumption.
        destruct (Nat.eq_dec p a) as [<- | Hpa'].
        -- rewrite Hp1 in Ha. injection Ha as <-. cbn. apply Ho, list_elem_of_lookup. eauto.
        -- rewrite list_lookup_insert_ne in Ha by assumption.
           apply Ho, list_elem_of_lookup. eauto.
    + rewrite !length_insert. exact Hlen.
    + eexists. split; [apply list_lookup_insert_eq; rewrite length_insert; lia |].
      split; reflexivity.
  - intros a n Ha.
    destruct (Nat.eq_dec node a) as [<- | Hna].
    + rewrite Hnn in Ha. injection Ha as <-. eexists _, [].
      split; [apply list_lookup_insert_eq; rewrite length_insert; lia |].
      cbn. rewrite app_nil_r. reflexivity.
    + rewrite list_lookup_insert_ne by assumption.
      destruct (Nat.eq_dec p a) as [<- | Hpa'].
      * rewrite Hnp in Ha. injection Ha as <-. eexists _, [node].
        split; [exact Hp1 | reflexivity].
      * rewrite list_lookup_insert_ne by assumption. exists n, [].
        split; [exact Ha | rewrite app_nil_r; reflexivity].
  - eexists. split.
    + rewrite list_lookup_insert_ne by lia. exact Hp1.
    + cbn [set_successors successors]. apply in_or_app. right. left. reflexivity.
Qed.

Lemma wire_predecessors_spec g_this predecessors node : forall rest m k,
  wiring g_this node m k ->
  Forall (fun p => (p < node)%nat) rest ->
  0 <= k -> k + Z.of_nat (List.length rest) <= uint32_max ->
  exists m' k',
    wire_predecessors g_this predecessors rest node m = Ok m' /\
    wiring g_this node m' k' /\
    k <= k' <= k + Z.of_nat (List.length rest) /\
    successors_grow m m' /\
    forall p, In p rest -> (forall c, In c predecessors -> (c <= p)%nat) ->
      k < k' /\ exists np', m' !! p = Some np' /\ In node (successors np').
Proof.
  induction rest as [| p rest IH]; intros m k Hw Hrest Hk0 Hk.
  - exists m, k. split; [reflexivity |]. split; [exact Hw |].
    cbn [List.length]. split; [lia |]. split; [apply successors_grow_refl |].
    intros p [].
  - cbn [List.length] in Hk. inversion Hrest as [| ? ? Hp Hrest']; subst.
    pose proof Hw as (Ht & Ho & Hlen & _).
    destruct (lookup_lt_is_Some_2 m p ltac:(lia)) as [np Hnp].
    cbn [wire_predecessors]. unfold deref. rewrite Hnp. cbn [mbind result_bind].
    rewrite (Forall_lookup_1 _ _ _ _ Ho Hnp), Nat.eqb_refl. cbn [assert mbind result_bind].
    destruct (redundant_spec m predecessors p Ht ltac:(lia)) as (b & Hb & Hiff).
    rewrite Hb. cbn [mbind result_bind]. destruct b.
    + cbn [mbind result_bind].
      destruct (IH m k Hw Hrest' Hk0 ltac:(lia)) as (m' & k' & Hwire & Hw' & Hk' & Hg & Hmax).
      exists m', k'. split; [exact Hwire |]. split; [exact Hw' |].
      cbn [List.length]. split; [lia |]. split; [exact Hg |].
      intros p' [<- | Hin] Hm; [| apply Hmax; assumption].
      destruct (proj1 Hiff eq_refl) as (c & Hc & Hne & Hr).
      pose proof (reaches_bounds _ _ _ Ht Hr). specialize (Hm c Hc). lia.
    + destruct (add_successor_wiring g_this node m k p Hw Hp ltac:(lia))
        as (m1 & Ha & Hw1 & Hg1 & np1 & Hnp1 & Hin1).
      rewrite Ha. cbn [mbind result_bind].
      destruct (IH m1 (k + 1) Hw1 Hrest' ltac:(lia) ltac:(lia))
        as (m' & k' & Hwire & Hw' & Hk' & Hg & Hmax).
      exists m', k'. split; [exact Hwire |]. split; [exact Hw' |].
      cbn [List.length]. split; [lia |].
      split; [eapply successors_grow_trans; eassumption |].
      intros p' [<- | Hin] Hm.
      * split; [lia |].
        destruct (Hg p np1 Hnp1) as (np' & l & Hnp' & El).
        exists np'. split; [exact Hnp' |]. rewrite El. apply in_or_app. left. exact Hin1.
      * destruct (Hmax p' Hin Hm) as [? ?]. split; [lia | assumption].
Qed.

Lemma new_node_after_spec f params predecessors g :
  well_formed g ->
  Forall (fun p => (p < List.length (nodes g))%nat) predecessors ->
  Z.of_nat (List.length predecessors) <= uint32_max ->
  exists m' k',
    new_node_after f params predecessors g
      = Ok (List.length (nodes g), mk (this g) m' (root_nodes g)) /\
    wiring (this g) (List.length (nodes g)) m' k' /\
    0 <= k' <= Z.of_nat (List.length predecessors) /\
    successors_grow (nodes g) m' /\
    forall p, In p predecessors -> (forall c, In c predecessors -> (c <= p)%nat) ->
      0 < k' /\ exists np', m' !! p = Some np' /\ In (List.length (nodes g)) (successors np').
Proof.
  intros (Ht & Ho & Hr) Hp Hlen.
  pose proof (topological_extend (this g) (nodes g) f params Ht Ho) as Hw.
  destruct (wire_predecessors_spec (this g) predecessors (List.length (nodes g))
              predecessors _ 0 Hw Hp ltac:(lia) ltac:(lia))
    as (m' & k' & Hwire & Hw' & Hk' & Hg & Hmax).
  exists m', k'. unfold new_node_after. rewrite Hwire. cbn [mbind result_bind].
  split; [reflexivity |]. split; [exact Hw' |]. split; [lia |]. split; [| exact Hmax].
  intros i ni Hi. apply Hg. apply lookup_app_l_Some. exact Hi.
Qed.

Lemma wiring_well_formed g m' k :
  well_formed g -> wiring (this g) (List.length (nodes g)) m' k ->
  well_formed (mk (this g) m' (root_nodes g)).
Proof.
  intros (_ & _ & Hr) (Ht & Ho & Hlen & _). split; [exact Ht |]. split; [exact Ho |].
  cbn [nodes root_nodes]. eapply Forall_impl; [exact Hr |]. cbn. intros; lia.
Qed.

Lemma new_node_well_formed f params g :
  well_formed g -> well_formed (snd (new_node f params g)).
Proof.
  intros (Ht & Ho & Hr).
  destruct (topological_extend (this g) (nodes g) f params Ht Ho) as (Ht' & Ho' & Hlen & _).
  cbn [new_node snd]. split; [exact Ht' |]. split; [exact Ho' |].
  cbn [nodes root_nodes]. rewrite Hlen. apply Forall_app. split.
  - eapply Forall_impl; [exact Hr |]. cbn. intros; lia.
  - constructor; [lia | constructor].
Qed.

Lemma new_well_formed g_this : well_formed (new g_this).
Proof.
  split; [| split]; cbn [new nodes root_nodes this].
  - intros a n Ha. discriminate.
  - constructor.
  - constructor.
Qed.

(** Every sequence of calls whose predecessors are earlier nodes returns a
    graph, and the graph is in topological order. *)
Lemma do_calls_well_formed cs : forall g,
  well_formed g -> well_scoped (List.length (nodes g)) cs ->
  exists g', do_calls cs g = Ok g' /\ well_formed g'.
Proof.
  induction cs as [| c cs IH]; intros g Hwf Hs.
  - exists g. split; [reflexivity | exact Hwf].
  - destruct c as [f params | f params predecessors]; cbn [well_scoped] in Hs;
      cbn [do_calls do_call].
    + cbn [mbind result_bind]. apply IH; [apply new_node_well_formed; exact Hwf |].
      cbn [new_node snd nodes]. rewrite length_app. cbn [List.length].
      replace (List.length (nodes g) + 1)%nat with (S (List.length (nodes g))) by lia.
      exact Hs.
    + destruct Hs as (Hp & Hlen & Hs).
      destruct (new_node_after_spec f params predecessors g Hwf Hp Hlen)
        as (m' & k' & Hn & Hw & _).
      rewrite Hn. cbn [mbind result_bind].
      apply IH; [eapply wiring_well_formed; eassumption |].
      cbn [nodes]. destruct Hw as (_ & _ & -> & _). exact Hs.
Qed.

Lemma list_max_exists (l : list nat) :
  l <> [] -> exists p, In p l /\ forall c, In c l -> (c <= p)%nat.
Proof.
  induction l as [| x l IH]; [congruence |]. intros _.
  destruct l as [| y l].
  - exists x. split; [left; reflexivity |]. intros c [<- | []]. lia.
  - destruct IH as (p & Hin & Hmax); [discriminate |].
    destruct (le_lt_dec x p) as [Hle | Hlt].
    + exists p. split; [right; exact Hin |]. intros c [<- | Hc]; [exact Hle | apply Hmax, Hc].
    + exists x. split; [left; reflexivity |].
      intros c [<- | Hc]; [lia |]. specialize (Hmax c Hc). lia.
Qed.

Lemma get_root_job_In index g r :
  get_root_job index g = Some (RootJobOf r) -> In r (root_nodes g).
Proof.
  unfold get_root_job. destruct (_ >=? _); [discriminate |].
  destruct (root_nodes g !! Z.to_nat index) as [r' |] eqn:Hl; [| discriminate].
  cbn. intros [= <-]. apply list_elem_of_In, list_elem_of_lookup. eauto.
Qed.

(** C9. A call of the predecessor form on a graph in topological order, with a
    non-empty array of nodes of the graph, returns; some listed predecessor has
    no other listed predecessor reachable from it and receives the new node as
    a successor; the new node ends with [initial_predecessor_amount >= 1]; the
    root list is left as it was, so no [get_root_job] returns the new node's
    root job.  On the graph built by any sequence of calls, [get_root_job]
    never returns the root job of a node created by the predecessor form. *)
Theorem predecessor_form_never_root :
  (forall f params predecessors g,
     well_formed g ->
     predecessors <> [] ->
     Forall (fun p => (p < List.length (nodes g))%nat) predecessors ->
     Z.of_nat (List.length predecessors) <= uint32_max ->
     exists g',
       new_node_after f params predecessors g = Ok (List.length (nodes g), g') /\
       well_formed g' /\
       (exists p np',
          In p predecessors /\
          (forall c, In c predecessors -> c <> p -> ~ reaches (nodes g) p c) /\
          nodes g' !! p = Some np' /\ In (List.length (nodes g)) (successors np')) /\
       (exists nn,
          nodes g' !! List.length (nodes g) = Some nn /\
          1 <= initial_predecessor_amount nn /\
          predecessor_amount nn = initial_predecessor_amount nn) /\
       root_nodes g' = root_nodes g /\
       forall index, get_root_job index g' <> Some (RootJobOf (List.length (nodes g)))) /\
  (forall cs g_this g k f params predecessors,
     do_calls cs (new g_this) = Ok g ->
     cs !! k = Some (NewNodeAfter f params predecessors) ->
     ~ In k (root_nodes g) /\
     forall index, get_root_job index g <> Some (RootJobOf k)).
Proof.
  split.
  - intros f params predecessors g Hwf Hne Hp Hlen.
    destruct (new_node_after_spec f params predecessors g Hwf Hp Hlen)
      as (m' & k' & Hn & Hw & Hk' & Hg & Hmax).
    destruct (list_max_exists predecessors Hne) as (p & Hin & Hle).
    destruct (Hmax p Hin Hle) as (Hpos & np' & Hnp' & Hsucc).
    exists (mk (this g) m' (root_nodes g)).
    split; [exact Hn |]. split; [eapply wiring_well_formed; eassumption |].
    split; [| split; [| split]].
    + exists p, np'. split; [exact Hin |]. split; [| split; assumption].
      intros c Hc Hcp Hr. pose proof (reaches_bounds _ _ _ (proj1 Hwf) Hr).
      specialize (Hle c Hc). lia.
    + destruct Hw as (_ & _ & _ & nn & Hnn & Hi & Hpa).
      exists nn. cbn [nodes]. split; [exact Hnn |]. split; lia.
    + reflexivity.
    + intros index Hget. apply get_root_job_In in Hget. cbn [root_nodes] in Hget.
      destruct Hwf as (_ & _ & Hr). rewrite Forall_forall in Hr.
      apply list_elem_of_In, Hr in Hget. lia.
  - intros cs g_this g k f params predecessors Hb Hk.
    apply do_calls_shape in Hb. destruct Hb as [_ Hr].
    cbn [new nodes root_nodes List.length app] in Hr.
    assert (Hnot : ~ In k (root_nodes g)).
    { rewrite Hr. intros Hin. apply root_calls_spec in Hin.
      destruct Hin as (_ & f' & params' & Hc). rewrite Nat.sub_0_r in Hc. congruence. }
    split; [exact Hnot |].
    intros index Hget. apply Hnot. eapply get_root_job_In; eassumption.
Qed.

Lemma reaches_app m l a b : reaches m a b -> reaches (m ++ l) a b.
Proof.
  induction 1 as [a b (n & Hn & Hin) | a b c (n & Hn & Hin) _ IH].
  - apply tc_once. exists n. split; [apply lookup_app_l_Some; exact Hn | exact Hin].
  - eapply tc_l; [| exact IH]. exists n. split; [apply lookup_app_l_Some; exact Hn | exact Hin].
Qed.

Lemma redundant_true m predecessors p c :
  topological m -> (p < List.length m)%nat ->
  In c predecessors -> c <> p -> reaches m p c ->
  redundant m predecessors p = Ok true.
Proof.
  intros Ht Hp Hc Hne Hr.
  destruct (redundant_spec m predecessors p Ht Hp) as ([] & Hb & Hiff); [exact Hb |].
  assert (false = true) by (apply Hiff; eauto). discriminate.
Qed.

Lemma redundant_false m predecessors p :
  topological m -> (p < List.length m)%nat ->
  (forall c, In c predecessors -> c <> p -> ~ reaches m p c) ->
  redundant m predecessors p = Ok false.
Proof.
  intros Ht Hp Hno.
  destruct (redundant_spec m predecessors p Ht Hp) as ([] & Hb & Hiff); [| exact Hb].
  destruct (proj1 Hiff eq_refl) as (c & Hc & Hne & Hr). destruct (Hno c Hc Hne Hr).
Qed.

(** C5. When [B] is reachable from [A], creating a node after [{A, B}] wires
    the graph exactly as creating it after [{B}]: [A] is left as it was, [B]
    gains the new node as a successor once, and the new node's
    [initial_predecessor_amount] and [predecessor_amount] are 1. *)
Theorem redundant_predecessor_dropped f params g A B :
  well_formed g -> A <> B -> reaches (nodes g) A B ->
  exists nA nB g',
    nodes g !! A = Some nA /\ nodes g !! B = Some nB /\
    new_node_after f params [A; B] g = Ok (List.length (nodes g), g') /\
    new_node_after f params [B] g = Ok (List.length (nodes g), g') /\
    g' = mk (this g)
            (<[B := set_successors nB (successors nB ++ [List.length (nodes g)])]> (nodes g)
             ++ [set_predecessor_amount
                   (set_initial_predecessor_amount
                      (JobGraphNode.new f params (this g) (List.length (nodes g))) 1) 1])
            (root_nodes g) /\
    nodes g' !! A = Some nA /\
    nodes g' !! B = Some (set_successors nB (successors nB ++ [List.length (nodes g)])) /\
    count_occ Nat.eq_dec (successors nB) (List.length (nodes g)) = 0%nat.
Proof.
  intros Hwf Hne Hr. pose proof Hwf as (Ht & Ho & Hroots).
  pose proof (reaches_bounds _ _ _ Ht Hr) as HAB.
  destruct (lookup_lt_is_Some_2 (nodes g) A ltac:(lia)) as [nA HnA].
  destruct (lookup_lt_is_Some_2 (nodes g) B ltac:(lia)) as [nB HnB].
  set (node := List.length (nodes g)) in *.
  set (fresh := JobGraphNode.new f params (this g) node).
  set (m0 := nodes g ++ [fresh]).
  destruct (topological_extend (this g) (nodes g) f params Ht Ho) as (Ht0 & Ho0 & Hlen0 & _).
  fold node fresh m0 in Ht0, Ho0, Hlen0.
  assert (HA0 : m0 !! A = Some nA) by (apply lookup_app_l_Some; exact HnA).
  assert (HB0 : m0 !! B = Some nB) by (apply lookup_app_l_Some; exact HnB).
  assert (Hn0 : m0 !! node = Some fresh)
    by (unfold m0; rewrite lookup_app_r, Nat.sub_diag by (unfold node; lia); reflexivity).
  assert (Hr0 : reaches m0 A B) by (apply reaches_app; exact Hr).
  assert (HredA : redundant m0 [A; B] A = Ok true).
  { apply (redundant_true m0 [A; B] A B); [assumption | lia | right; left; reflexivity | auto | assumption]. }
  assert (HredB : redundant m0 [A; B] B = Ok false).
  { apply redundant_false; [assumption | lia |].
    intros c [<- | [<- | []]] Hc Hrc; [| congruence].
    pose proof (reaches_bounds _ _ _ Ht0 Hrc). lia. }
  assert (HredB' : redundant m0 [B] B = Ok false).
  { apply redundant_false; [assumption | lia |]. intros c [<- | []] Hc. congruence. }
  assert (Hadd : add_successor B node m0 =
                 Ok (<[B := set_successors nB (successors nB ++ [node])]> (nodes g)
                     ++ [set_predecessor_amount (set_initial_predecessor_amount fresh 1) 1])).
  { rewrite (add_successor_eq m0 B node nB fresh HB0 Hn0 ltac:(lia)). f_equal.
    unfold m0. rewrite insert_app_l by lia.
    rewrite insert_app_r_alt by (rewrite length_insert; fold node; lia).
    rewrite length_insert. fold node. rewrite Nat.sub_diag. reflexivity. }
  eexists nA, nB, _. split; [exact HnA |]. split; [exact HnB |].
  split; [| split; [| split; [reflexivity |]]].
  - unfold new_node_after. fold node fresh m0. cbn [wire_predecessors].
    rewrite (deref_Some _ _ _ HA0). cbn [mbind result_bind].
    rewrite (Forall_lookup_1 _ _ _ _ Ho0 HA0), Nat.eqb_refl. cbn [assert mbind result_bind].
    rewrite HredA. cbn [mbind result_bind].
    rewrite (deref_Some _ _ _ HB0). cbn [mbind result_bind].
    rewrite (Forall_lookup_1 _ _ _ _ Ho0 HB0), Nat.eqb_refl. cbn [assert mbind result_bind].
    rewrite HredB. cbn [mbind result_bind]. rewrite Hadd. reflexivity.
  - unfold new_node_after. fold node fresh m0. cbn [wire_predecessors].
    rewrite (deref_Some _ _ _ HB0). cbn [mbind result_bind].
    rewrite (Forall_lookup_1 _ _ _ _ Ho0 HB0), Nat.eqb_refl. cbn [assert mbind result_bind].
    rewrite HredB'. cbn [mbind result_bind]. rewrite Hadd. reflexivity.
  - cbn [nodes]. split; [| split].
    + apply lookup_app_l_Some. rewrite list_lookup_insert_ne by auto. exact HnA.
    + apply lookup_app_l_Some. apply list_lookup_insert_eq. lia.
    + apply count_occ_not_In. intros Hin.
      specialize (Ht B nB HnB). rewrite Forall_forall in Ht.
      apply list_elem_of_In, Ht in Hin. fold node in Hin. lia.
Qed.

End WiringFacts.

(** ** Victim selection *)

Section VictimFacts.
Import Scheduler.

(** With at most [2^31] workers the distribution's range is not empty. *)
Lemma drawn_exists worker_amount index :
  1 <= worker_amount <= 2 ^ 31 -> 0 <= index < worker_amount ->
  drawn index worker_amount (1 + index).
Proof.
  intros HW Hi. unfold drawn, steal_distribution_a, steal_distribution_b.
  rewrite (wrap_u32_id (worker_amount - 1)) by (unfold uint32_max; lia).
  rewrite !wrap_u32_id by (unfold uint32_max; lia). lia.
Qed.

(** C10. The victim index, a draw from the worker's distribution reduced modulo
    the worker count, is never the worker's own index when there is more than
    one worker, and is 0, the worker itself, when there is one. *)
Theorem victim_is_another_worker worker_amount index d :
  1 <= worker_amount <= uint32_max ->
  0 <= index < worker_amount ->
  drawn index worker_amount d ->
  (1 < worker_amount -> target_index d worker_amount <> index) /\
  (worker_amount = 1 -> target_index d worker_amount = 0).
Proof.
  unfold drawn, steal_distribution_a, steal_distribution_b, target_index.
  intros HW Hi. unfold uint32_max in HW.
  rewrite (wrap_u32_id (worker_amount - 1)) by (unfold uint32_max; lia).
  rewrite (wrap_u32_id (1 + index)) by (unfold uint32_max; lia).
  intros Hd. split.
  - intros H1 Heq.
    rewrite Z.max_l in Hd by lia.
    assert (Hb : wrap_u32 (worker_amount - 1 + index) <= worker_amount - 1 + index).
    { unfold wrap_u32. apply Z.mod_le; lia. }
    assert (Hmod : (d - index) mod worker_amount = 0).
    { rewrite Zminus_mod, Heq, (Z.mod_small index worker_amount) by lia.
      rewrite Z.sub_diag. apply Z.mod_0_l. lia. }
    apply Z.mod_divide in Hmod; [| lia]. destruct Hmod as [c Hc].
    assert (0 < c * worker_amount < worker_amount) by lia.
    assert (0 < c) by nia. nia.
  - intros ->. apply Z.mod_1_r.
Qed.

Lemma victim_is_another_worker_witness :
  target_index 5 4 <> 2 /\ target_index 1 1 = 0.
Proof.
  split.
  - apply (victim_is_another_worker 4 2 5); unfold uint32_max; try lia.
    vm_compute. split; discriminate.
  - apply (victim_is_another_worker 1 0 1); unfold uint32_max; try lia.
    vm_compute. split; discriminate.
Defined.

End VictimFacts.

(** ** Spawning *)

Section SpawnFacts.
Import JobSpawner.

Tactic Notation "step_bind" hyp(H) "as" simple_intropattern(x) ident(E) :=
  match type of H with
  | context [mbind _ ?r] =>
      destruct r as [x | ?] eqn:E;
        [cbn [mbind result_bind] in H | cbn [mbind result_bind] in H; discriminate H]
  end.

Lemma allocate_chunk_job a ca job a' ca' :
  JobAllocator.allocate a ca = Ok (Some job, a', ca') ->
  exists c s, job = ChunkJob c s.
Proof.
  unfold JobAllocator.allocate, JobAllocator.take_slot. intros H.
  destruct (JobAllocator.chunk a) as [c |].
  - cbn [mbind result_bind] in H. destruct (_ =? _) in H; cbn in H;
      injection H as <- _ _; eauto.
  - step_bind H as r E. destruct r as [[c |] ca1];
      cbn [JobAllocator.chunk mbind result_bind] in H.
    + destruct (_ =? _) in H; cbn in H; injection H as <- _ _; eauto.
    + discriminate H.
Qed.

Lemma store_chunk_job_graph c s j w w' :
  store_job (ChunkJob c s) j w = Ok w' ->
  graph_nodes w' = graph_nodes w /\ queue w' = queue w /\
  load_job (ChunkJob c s) w' = Ok j.
Proof.
  unfold store_job, load_job. intros H.
  destruct (JobChunkAllocator.chunks (chunk_allocator w) !! c) as [chunk |] eqn:Hc;
    [| discriminate].
  destruct (chunk !! s) as [j0 |] eqn:Hs; [| discriminate].
  injection H as <-. cbn [graph_nodes queue chunk_allocator JobChunkAllocator.chunks].
  split; [reflexivity |]. split; [reflexivity |].
  rewrite list_lookup_insert_eq by (eapply lookup_lt_Some; eassumption).
  rewrite list_lookup_insert_eq by (eapply lookup_lt_Some; eassumption).
  reflexivity.
Qed.

(** With a bound node, a sub-job that is spawned carries the node as its
    back-pointer and the node's [unfinished_amount] has gone up by one. *)
Lemma spawn_sub_job_counts p function params w w' :
  spawn_impl (mk (Some p)) function params true w = Ok w' ->
  exists n job j,
    graph_nodes w !! p = Some n /\
    graph_nodes w' =
      <[p := JobGraphNode.set_unfinished_amount n
               (wrap_u32 (JobGraphNode.unfinished_amount n + 1))]> (graph_nodes w) /\
    load_job job w' = Ok j /\ Job.node j = Some p.
Proof.
  unfold spawn_impl. intros H. step_bind H as r Ea. destruct r as [[job a] ca].
  destruct job as [job |]; [cbn [assert non_null mbind result_bind] in H | discriminate H].
  destruct (allocate_chunk_job _ _ _ _ _ Ea) as (c & s & ->).
  step_bind H as j0 El0. step_bind H as w1 Es1.
  apply store_chunk_job_graph in Es1. destruct Es1 as (G1 & Q1 & L1).
  rewrite L1 in H. cbn [mbind result_bind] in H.
  step_bind H as w2 Es2. apply store_chunk_job_graph in Es2. destruct Es2 as (G2 & Q2 & L2).
  step_bind H as w3 Es3. rewrite L2 in Es3. cbn [mbind result_bind] in Es3.
  step_bind Es3 as w4 Es4. apply store_chunk_job_graph in Es4. destruct Es4 as (G3 & Q3 & L3).
  cbn [node] in Es3. unfold JobGraphNode.job_added, JobGraphNode.deref in Es3.
  rewrite G3, G2, G1 in Es3. cbn [graph_nodes] in Es3.
  destruct (graph_nodes w !! p) as [n |] eqn:Hn; [| discriminate Es3].
  cbn [mbind result_bind] in Es3. injection Es3 as <-.
  cbn [queue allocator chunk_allocator graph_nodes] in H.
  step_bind H as r Ep. destruct r as [pushed q].
  destruct pushed; [cbn [assert mbind result_bind] in H | discriminate H].
  injection H as <-. cbn [graph_nodes].
  eexists n, (ChunkJob c s), _.
  split; [reflexivity |]. split; [reflexivity |]. split.
  - unfold load_job in L3 |- *. cbn [chunk_allocator]. exact L3.
  - reflexivity.
Qed.

(** A job that is not a sub-job gets a null back-pointer and no node changes. *)
Lemma spawn_detached_job self function params w w' :
  spawn_impl self function params false w = Ok w' ->
  graph_nodes w' = graph_nodes w /\
  exists job j, load_job job w' = Ok j /\ Job.node j = None.
Proof.
  unfold spawn_impl. intros H. step_bind H as r Ea. destruct r as [[job a] ca].
  destruct job as [job |]; [cbn [assert non_null mbind result_bind] in H | discriminate H].
  destruct (allocate_chunk_job _ _ _ _ _ Ea) as (c & s & ->).
  step_bind H as j0 El0. step_bind H as w1 Es1.
  apply store_chunk_job_graph in Es1. destruct Es1 as (G1 & Q1 & L1).
  rewrite L1 in H. cbn [mbind result_bind] in H.
  step_bind H as w2 Es2. apply store_chunk_job_graph in Es2. destruct Es2 as (G2 & Q2 & L2).
  step_bind H as w3 Es3. rewrite L2 in Es3. cbn [mbind result_bind] in Es3.
  apply store_chunk_job_graph in Es3. destruct Es3 as (G3 & Q3 & L3).
  step_bind H as r Ep. destruct r as [pushed q].
  destruct pushed; [cbn [assert mbind result_bind] in H | discriminate H].
  injection H as <-. cbn [graph_nodes] in G1 |- *. split; [congruence |].
  eexists (ChunkJob c s), _. split.
  - unfold load_job in L3 |- *. cbn [chunk_allocator]. exact L3.
  - reflexivity.
Qed.

(** C1, where the code departs from the claim.  A spawner whose bound node is
    null never returns from [spawn] of a sub-job: after storing the null
    back-pointer it calls [job_added] through the null pointer.  A root job
    that spawns a detached job which in turn spawns a sub-job runs into this. *)
Theorem spawn_sub_job_without_node_faults :
  (forall function params w w',
     spawn_impl (mk None) function params true w <> Ok w') /\
  spawn_impl (mk None) (Some 1%nat) []
    true (mkMachine JobAllocator.new (JobChunkAllocator.new 1) JobQueue.new [])
  = Fault NullDereference /\
  is_ok detached_client_root_run = true /\
  (w ← detached_client_root_run; run_own_job detached_client_functions w)
  = Fault NullDereference.
Proof.
  split; [| split; [| split]].
  - intros function params w w' H. unfold spawn_impl in H.
    step_bind H as r Ea. destruct r as [[job a] ca].
    destruct job as [job |]; [cbn [assert non_null mbind result_bind] in H | discriminate H].
    step_bind H as j0 El0. step_bind H as w1 Es1. step_bind H as j1 El1.
    step_bind H as w2 Es2. step_bind H as w3 Es3.
    step_bind Es3 as j2 El2. step_bind Es3 as w4 Es4. discriminate Es3.
  - vm_compute. reflexivity.
  - vm_compute. reflexivity.
  - vm_compute. reflexivity.
Qed.

End SpawnFacts.

(** ** The termination protocol of [work_loop] *)

Section TerminationFacts.
Import Scheduler.

Variable worker_amount : Z.

Lemma worker_step_point_after index pt s e pt' s' :
  worker_step worker_amount index pt s e pt' s' ->
  pt' = point_after worker_amount (Some e).
Proof.
  destruct 1; cbn [point_after]; try reflexivity.
  - destruct (Z.geb_spec (stealer_amount s) worker_amount); [reflexivity | lia].
  - destruct (Z.geb_spec (stealer_amount s) worker_amount); [lia | reflexivity].
  - destruct (Z.eqb_spec (active_amount s) 1); [reflexivity | contradiction].
  - destruct (Z.eqb_spec (active_amount s) 1); [contradiction | reflexivity].
  - destruct (Z.gtb_spec (stealer_amount s) worker_amount); [reflexivity | lia].
  - destruct (Z.gtb_spec (stealer_amount s) worker_amount); [lia | reflexivity].
Qed.

Lemma events_of_snoc i tr j e :
  events_of i (tr ++ [(j, e)]) = events_of i tr ++ (if Nat.eqb j i then [e] else []).
Proof.
  unfold events_of. rewrite List.filter_app, fmap_app. cbn [List.filter fst].
  destruct (Nat.eqb j i); reflexivity.
Qed.

Lemma last_event_snoc i tr j e :
  last_event i (tr ++ [(j, e)]) = if Nat.eqb j i then Some e else last_event i tr.
Proof.
  unfold last_event. rewrite events_of_snoc.
  destruct (Nat.eqb j i); [apply last_snoc | rewrite app_nil_r; reflexivity].
Qed.

(** Every worker is at the program point that follows its latest event. *)
Lemma execution_points sys0 tr sys :
  execution worker_amount sys0 tr sys ->
  Forall (fun pt => pt = OwnQueue) (points sys0) ->
  forall i pt, points sys !! i = Some pt ->
    pt = point_after worker_amount (last_event i tr).
Proof.
  induction 1 as [sys | sys tr sys' le sys'' _ IH Hstep]; intros H0 i pt Hi.
  - cbn. eapply (Forall_lookup_1 _ _ _ _ H0). exact Hi.
  - destruct Hstep as [sys' j e ptj ptj' s' Hj Hw]. cbn [points] in Hi.
    rewrite last_event_snoc. destruct (Nat.eqb_spec j i) as [-> | Hne].
    + rewrite list_lookup_insert_eq in Hi by (eapply lookup_lt_Some; eassumption).
      injection Hi as <-. eapply worker_step_point_after; eassumption.
    + rewrite list_lookup_insert_ne in Hi by assumption. apply IH; assumption.
Qed.

Lemma execution_snoc_inv sys0 tr le sys :
  execution worker_amount sys0 (tr ++ [le]) sys ->
  exists s', execution worker_amount sys0 tr s' /\ step worker_amount s' le sys.
Proof.
  intros H. remember (tr ++ [le]) as tr' eqn:Heq.
  destruct H as [sys | sys tr0 sys' le0 sys'' Hex Hst].
  - destruct tr; discriminate.
  - apply app_inj_tail in Heq. destruct Heq as [-> ->]. eauto.
Qed.

Lemma execution_split sys0 tr1 le tr2 sys :
  execution worker_amount sys0 (tr1 ++ le :: tr2) sys ->
  exists s1 s2,
    execution worker_amount sys0 tr1 s1 /\
    step worker_amount s1 le s2 /\
    execution worker_amount s2 tr2 sys.
Proof.
  revert sys. induction tr2 as [| le2 tr2 IH] using rev_ind; intros sys H.
  - apply execution_snoc_inv in H. destruct H as (s' & Hex & Hst).
    exists s', sys. split; [exact Hex |]. split; [exact Hst | constructor].
  - replace (tr1 ++ le :: tr2 ++ [le2]) with ((tr1 ++ le :: tr2) ++ [le2]) in H
      by (rewrite <- app_assoc; reflexivity).
    apply execution_snoc_inv in H. destruct H as (s' & Hex & Hst).
    destruct (IH _ Hex) as (s1 & s2 & H1 & H2 & H3).
    exists s1, s2. split; [exact H1 |]. split; [exact H2 |].
    econstructor; eassumption.
Qed.

Lemma point_after_PublishDone e :
  point_after worker_amount e = PublishDone -> e = Some (EvActiveFetchSub 1).
Proof.
  destruct e as [[[] | | ? [] | | v | old | | | v | |] |]; cbn [point_after];
    try discriminate.
  - destruct (v >=? worker_amount); discriminate.
  - destruct (Z.eqb_spec old 1) as [-> | ?]; [reflexivity | discriminate].
  - destruct (v >? worker_amount); discriminate.
Qed.

Lemma point_after_Returned e :
  point_after worker_amount e = Returned ->
  exists v, e = Some (EvStealerLoad v) /\ v > worker_amount.
Proof.
  destruct e as [[[] | | ? [] | | v | old | | | v | |] |]; cbn [point_after];
    try discriminate.
  - destruct (v >=? worker_amount); discriminate.
  - destruct (old =? 1); discriminate.
  - destruct (Z.gtb_spec v worker_amount); [| discriminate]. intros _. exists v. split; [reflexivity | lia].
Qed.

(** What a worker at [Reactivate] does next: increment [active_amount], yield,
    try to steal. *)
Lemma execution_resumes sys0 tr sys i :
  execution worker_amount sys0 tr sys ->
  points sys0 !! i = Some Reactivate ->
  (events_of i tr = [] /\ points sys !! i = Some Reactivate) \/
  (exists old, events_of i tr = [EvActiveFetchAdd old] /\ points sys !! i = Some Yield) \/
  (exists old, events_of i tr = [EvActiveFetchAdd old; EvYield] /\
     points sys !! i = Some Steal) \/
  (exists old target got_job rest,
     events_of i tr = EvActiveFetchAdd old :: EvYield :: EvSteal target got_job :: rest).
Proof.
  induction 1 as [sys | sys tr sys' le sys'' _ IH Hstep]; intros H0.
  - left. split; [reflexivity | exact H0].
  - specialize (IH H0). destruct Hstep as [sys' j e ptj ptj' s' Hj Hw].
    rewrite events_of_snoc. cbn [points]. destruct (Nat.eqb_spec j i) as [-> | Hne].
    + assert (Hlt : (i < List.length (points sys'))%nat) by (eapply lookup_lt_Some; eassumption).
      rewrite list_lookup_insert_eq by assumption.
      destruct IH as [[He Hp] | [(old & He & Hp) | [(old & He & Hp) | (old & t & g & rest & He)]]];
        rewrite He; try (rewrite Hp in Hj; injection Hj as <-; inversion Hw; subst).
      * right. left. eexists. split; reflexivity.
      * right. right. left. eexists. split; reflexivity.
      * right. right. right. eexists _, _, _, []. reflexivity.
      * right. right. right. eexists _, _, _, []. reflexivity.
      * right. right. right. eexists _, _, _, (rest ++ [e]). reflexivity.
    + rewrite app_nil_r, list_lookup_insert_ne by assumption. exact IH.
Qed.

(** C6. In every execution of the workers from the top of [work_loop]:
    a worker that has returned did so on loading from [stealer_amount] a value
    greater than the worker count; a store of the sentinel [worker_amount + 1]
    into [stealer_amount] is made by a worker whose preceding step was the
    [fetch_sub] of [active_amount] that observed 1; and a worker that wakes to
    a [stealer_amount] not above the worker count is not returned but goes on to
    increment [active_amount], yield and steal. *)
Theorem work_loop_termination_protocol sys0 tr sys :
  Forall (fun pt => pt = OwnQueue) (points sys0) ->
  execution worker_amount sys0 tr sys ->
  (forall i,
     points sys !! i = Some Returned ->
     exists v, last_event i tr = Some (EvStealerLoad v) /\ v > worker_amount) /\
  (forall i v tr1 tr2,
     tr = tr1 ++ (i, EvStealerStore v) :: tr2 ->
     v = wrap_u32 (worker_amount + 1) /\
     last_event i tr1 = Some (EvActiveFetchSub 1)) /\
  (forall i v tr1 tr2,
     tr = tr1 ++ (i, EvStealerLoad v) :: tr2 ->
     v <= worker_amount ->
     point_after worker_amount (Some (EvStealerLoad v)) = Reactivate /\
     (forall s,
        worker_step worker_amount (Z.of_nat i) Reactivate s
          (EvActiveFetchAdd (active_amount s)) Yield
          (mkShared (stealer_amount s) (wrap_u32 (active_amount s + 1)))) /\
     exists old target got_job,
       events_of i tr2 `prefix_of` [EvActiveFetchAdd old; EvYield; EvSteal target got_job] \/
       [EvActiveFetchAdd old; EvYield; EvSteal target got_job] `prefix_of` events_of i tr2).
Proof.
  intros H0 Hex. split; [| split].
  - intros i Hi. apply point_after_Returned. symmetry.
    eapply execution_points; eassumption.
  - intros i v tr1 tr2 ->.
    destruct (execution_split _ _ _ _ _ Hex) as (s1 & s2 & H1 & H2 & _).
    inversion H2 as [? ? ? pt pt' s' Hpt Hw]; subst.
    pose proof (execution_points _ _ _ H1 H0 _ _ Hpt) as Hpa.
    inversion Hw; subst. split; [reflexivity |].
    apply point_after_PublishDone. symmetry. assumption.
  - intros i v tr1 tr2 -> Hv.
    destruct (execution_split _ _ _ _ _ Hex) as (s1 & s2 & H1 & H2 & H3).
    assert (Hpa : point_after worker_amount (Some (EvStealerLoad v)) = Reactivate).
    { cbn [point_after]. destruct (Z.gtb_spec v worker_amount); [lia | reflexivity]. }
    split; [exact Hpa |]. split; [intros s; constructor |].
    assert (Hp2 : points s2 !! i = Some Reactivate).
    { inversion H2 as [? ? ? pt pt' s' Hpt Hw]; subst. cbn [points].
      rewrite list_lookup_insert_eq by (eapply lookup_lt_Some; eassumption).
      rewrite (worker_step_point_after _ _ _ _ _ _ Hw). rewrite Hpa. reflexivity. }
    destruct (execution_resumes _ _ _ _ H3 Hp2)
      as [[He _] | [(old & He & _) | [(old & He & _) | (old & t & g & rest & He)]]];
      rewrite He.
    + exists 0, 0, true. left. apply prefix_nil.
    + exists old, 0, true. left. eexists. reflexivity.
    + exists old, 0, true. left. eexists. reflexivity.
    + exists old, t, g. right. exists rest. reflexivity.
Qed.

End TerminationFacts.

(** ** The theorems at work on small inputs *)

Section Instances.
Import JobGraphNode JobGraph Protocol Scheduler.

Lemma chain_graph_built :
  do_calls [NewNode (Some 0%nat) []; NewNodeAfter (Some 1%nat) [] [0%nat]] (JobGraph.new 0)
  = Ok chain_graph.
Proof. vm_compute. reflexivity. Qed.

Lemma chain_graph_well_formed : well_formed chain_graph.
Proof.
  destruct (do_calls_well_formed
              [NewNode (Some 0%nat) []; NewNodeAfter (Some 1%nat) [] [0%nat]]
              (JobGraph.new 0) (new_well_formed 0)) as (g & Hg & Hwf).
  - cbn. split; [repeat constructor | split; [unfold uint32_max; lia | exact I]].
  - rewrite chain_graph_built in Hg. injection Hg as <-. exact Hwf.
Qed.

Lemma chain_graph_reaches : reaches (nodes chain_graph) 0 1.
Proof.
  apply tc_once. eexists. split; [reflexivity |]. left. reflexivity.
Qed.

Lemma job_completed_protocol_witness :
  job_completed 0
    [JobGraphNode.set_unfinished_amount (JobGraphNode.new (Some 0%nat) [] 0 0) 2]
    JobQueue.new
  = Ok ([JobGraphNode.new (Some 0%nat) [] 0 0], JobQueue.new) /\
  exists m' q', job_completed 0 (nodes chain_graph) JobQueue.new = Ok (m', q').
Proof.
  split.
  - apply (proj1 (job_completed_protocol 0
             [JobGraphNode.set_unfinished_amount (JobGraphNode.new (Some 0%nat) [] 0 0) 2]
             JobQueue.new _ eq_refl)).
    cbn. unfold uint32_max. lia.
  - destruct (proj2 (job_completed_protocol 0 (nodes chain_graph) JobQueue.new _ eq_refl))
      as (m1 & q1 & n1 & _ & _ & _ & _ & H).
    + reflexivity.
    + split; [| split; [apply valid_new | split]].
      * intros s [<- | []]. eexists. split; [reflexivity |].
        cbn. unfold uint32_max. lia.
      * vm_compute. discriminate.
      * vm_compute. discriminate.
    + eexists _, _. exact H.
Defined.

(** C4 as stated fails on a full deque: the node's [unfinished_amount] and its
    successor's [predecessor_amount] are both exactly 1, so the successor's
    root job is to be pushed, but the caller's deque already holds
    [queue_capacity] jobs; [push] returns false and [job_completed] aborts on
    [assert(pushed)] instead of pushing the job and resetting the node's
    counters. *)
Lemma job_completed_on_full_deque_aborts :
  let m := nodes chain_graph in
  let q := JobQueue.mk (JobQueue.ring_buffer JobQueue.new) 0 queue_capacity in
  JobQueue.valid q /\
  JobQueue.length q = queue_capacity /\
  (exists n s,
     m !! 0%nat = Some n /\ unfinished_amount n = 1 /\ successors n = [1%nat] /\
     m !! 1%nat = Some s /\ predecessor_amount s = 1) /\
  job_completed 0 m q = Fault AssertionFailed /\
  ~ (exists m' q', job_completed 0 m q = Ok (m', q')).
Proof.
  cbv zeta. split; [| split; [| split; [| split]]].
  - unfold JobQueue.valid, JobQueue.new, JobQueue.size_max, int32_max, queue_capacity.
    cbn [JobQueue.ring_buffer JobQueue.top JobQueue.bottom].
    rewrite length_replicate. lia.
  - reflexivity.
  - eexists _, _. repeat split.
  - vm_compute. reflexivity.
  - intros (m' & q' & H). vm_compute in H. discriminate H.
Qed.

Lemma redundant_predecessor_dropped_witness :
  new_node_after (Some 2%nat) [] [0%nat; 1%nat] chain_graph
  = new_node_after (Some 2%nat) [] [1%nat] chain_graph.
Proof.
  destruct (redundant_predecessor_dropped (Some 2%nat) [] chain_graph 0 1
              chain_graph_well_formed ltac:(discriminate) chain_graph_reaches)
    as (nA & nB & g' & _ & _ & H1 & H2 & _).
  rewrite H1, H2. reflexivity.
Defined.

Lemma predecessor_form_never_root_witness :
  (exists g',
     new_node_after (Some 2%nat) [] [0%nat; 1%nat] chain_graph = Ok (2%nat, g') /\
     root_nodes g' = root_nodes chain_graph) /\
  forall index, get_root_job index chain_graph <> Some (RootJobOf 1).
Proof.
  split.
  - destruct (proj1 predecessor_form_never_root (Some 2%nat) [] [0%nat; 1%nat] chain_graph
                chain_graph_well_formed ltac:(discriminate))
      as (g' & Hn & _ & _ & _ & Hr & _).
    + repeat constructor.
    + cbn. unfold uint32_max. lia.
    + exists g'. split; assumption.
  - eapply (proj2 predecessor_form_never_root); [exact chain_graph_built | reflexivity].
Defined.

Lemma lone_worker_execution :
  execution 1 (initial 1) lone_worker_trace
    (mkSystem (mkShared 2 0) [Returned]).
Proof.
  unfold lone_worker_trace.
  change [(0%nat, EvPop false); (0%nat, EvStealerFetchAdd 0); (0%nat, EvSteal 0 false);
          (0%nat, EvStealerLoadRelaxed 1); (0%nat, EvActiveFetchSub 1);
          (0%nat, EvStealerStore 2); (0%nat, EvStealerWait 2); (0%nat, EvStealerLoad 2)]
    with ((((((((([] ++ [(0%nat, EvPop false)]) ++ [(0%nat, EvStealerFetchAdd 0)])
            ++ [(0%nat, EvSteal 0 false)]) ++ [(0%nat, EvStealerLoadRelaxed 1)])
            ++ [(0%nat, EvActiveFetchSub 1)]) ++ [(0%nat, EvStealerStore 2)])
            ++ [(0%nat, EvStealerWait 2)]) ++ [(0%nat, EvStealerLoad 2)])).
  eapply execution_step with (sys' := mkSystem (mkShared 2 0) [Woken]).
  eapply execution_step with (sys' := mkSystem (mkShared 2 0) [Wait]).
  eapply execution_step with (sys' := mkSystem (mkShared 1 0) [PublishDone]).
  eapply execution_step with (sys' := mkSystem (mkShared 1 1) [Deactivate]).
  eapply execution_step with (sys' := mkSystem (mkShared 1 1) [CheckAllStealing]).
  eapply execution_step with (sys' := mkSystem (mkShared 1 1) [Steal]).
  eapply execution_step with (sys' := mkSystem (mkShared 0 1) [EnterStealing]).
  eapply execution_step with (sys' := initial 1).
  - apply execution_start.
  - apply (step_worker 1 (initial 1) 0 (EvPop false) OwnQueue EnterStealing _ eq_refl).
    apply step_own_empty.
  - apply (step_worker 1 (mkSystem (mkShared 0 1) [EnterStealing]) 0 _ _ _ _ eq_refl).
    apply (step_enter_stealing 1 0 (mkShared 0 1)).
  - apply (step_worker 1 (mkSystem (mkShared 1 1) [Steal]) 0 _ _ _ _ eq_refl).
    apply (step_steal_nothing 1 0 (mkShared 1 1) 1). vm_compute. split; discriminate.
  - apply (step_worker 1 (mkSystem (mkShared 1 1) [CheckAllStealing]) 0 _ _ _ _ eq_refl).
    apply (step_all_stealing 1 0 (mkShared 1 1)). cbn. lia.
  - apply (step_worker 1 (mkSystem (mkShared 1 1) [Deactivate]) 0 _ _ _ _ eq_refl).
    apply (step_deactivate_last 1 0 (mkShared 1 1)). reflexivity.
  - apply (step_worker 1 (mkSystem (mkShared 1 0) [PublishDone]) 0 _ _ _ _ eq_refl).
    apply (step_publish_done 1 0 (mkShared 1 0)).
  - apply (step_worker 1 (mkSystem (mkShared 2 0) [Wait]) 0 _ _ _ _ eq_refl).
    apply (step_wait 1 0 (mkShared 2 0)). cbn. lia.
  - apply (step_worker 1 (mkSystem (mkShared 2 0) [Woken]) 0 _ _ _ _ eq_refl).
    apply (step_woken_done 1 0 (mkShared 2 0)). cbn. lia.
Qed.

Lemma work_loop_termination_protocol_witness :
  (exists v, last_event 0 lone_worker_trace = Some (EvStealerLoad v) /\ v > 1) /\
  last_event 0 (take 5 lone_worker_trace) = Some (EvActiveFetchSub 1).
Proof.
  pose proof (work_loop_termination_protocol 1 (initial 1) lone_worker_trace _
                ltac:(repeat constructor) lone_worker_execution) as (Ha & Hb & _).
  split.
  - apply Ha. reflexivity.
  - apply (Hb 0%nat 2 (take 5 lone_worker_trace) (drop 6 lone_worker_trace)). reflexivity.
Defined.

End Instances.

(** ** The deque as a sequence: owner at the bottom, thieves at the top *)

Section DequeFacts.
Import JobQueue Deque.

Lemma slot_index_apart a b :
  0 <= a -> a < b -> b - a < queue_capacity -> b <= size_max ->
  slot_index a <> slot_index b.
Proof.
  intros H0 Hab Hd Hb. rewrite !slot_index_mod by lia. intros He.
  apply Z2Nat.inj in He; try (apply Z.mod_pos_bound; unfold queue_capacity; lia).
  assert (Hm : (b - a) mod queue_capacity = 0).
  { rewrite Zminus_mod, He, Z.sub_diag. apply Z.mod_0_l. unfold queue_capacity. lia. }
  apply Z.mod_divide in Hm; [| unfold queue_capacity; lia].
  destruct Hm as [c Hc]. unfold queue_capacity in *. nia.
Qed.

Lemma contents_length q : List.length (contents q) = Z.to_nat (length q).
Proof. unfold contents. rewrite length_fmap, length_seq. reflexivity. Qed.

Lemma contents_ext q q' n :
  top q' = top q ->
  (forall i, (i < n)%nat ->
     load_slot q' (top q + Z.of_nat i) = load_slot q (top q + Z.of_nat i)) ->
  (fun i => load_slot q' (top q' + Z.of_nat i)) <$> seq 0 n =
  (fun i => load_slot q (top q + Z.of_nat i)) <$> seq 0 n.
Proof.
  intros Ht Hs. rewrite Ht. apply list_fmap_ext. intros k i Hi.
  apply lookup_seq in Hi. destruct Hi as [-> Hlt]. apply Hs. lia.
Qed.

(** Every state reached by uncontended operations holds between zero and
    [queue_capacity] jobs. *)
Lemma reachable_bounded q : reachable q -> bounded q.
Proof.
  intros Hr. split; [apply reachable_valid; exact Hr |].
  induction Hr as [| q Hr IH | q job b q' Hr IH Hp | q Hr IH | q Hr IH].
  - unfold length, new, queue_capacity; cbn. lia.
  - unfold length, reset, queue_capacity; cbn. lia.
  - pose proof (reachable_valid _ Hr) as Hv. pose proof Hv as (Hl & H0 & H1 & H2).
    assert (Hb : bottom q < size_max).
    { unfold push, assert in Hp.
      destruct (Z.ltb_spec (bottom q) size_max); [assumption | discriminate]. }
    rewrite push_eq in Hp by assumption.
    destruct (Z.eqb_spec (length q) queue_capacity); injection Hp as <- <-; [assumption |].
    unfold length in *; cbn [top bottom]. lia.
  - pose proof (reachable_valid _ Hr) as Hv. pose proof Hv as (Hl & H0 & H1 & H2).
    unfold pop. destruct (Z.lt_trichotomy (length q) 1) as [Hlt | [Heq | Hgt]].
    + rewrite pop_with_empty by (unfold length in Hlt; lia || assumption). assumption.
    + rewrite pop_with_last by assumption. rewrite Z.eqb_refl.
      unfold length in *; cbn [snd top bottom]. unfold queue_capacity. lia.
    + rewrite pop_with_many by assumption.
      unfold length, set_bottom in *; cbn [snd top bottom]. lia.
  - pose proof (reachable_valid _ Hr) as Hv. pose proof Hv as (Hl & H0 & H1 & H2).
    unfold steal, steal_with, compare_exchange_strong.
    destruct (Z.geb_spec (top q) (bottom q)); [assumption |].
    cbn [set_top top]. rewrite Z.eqb_refl. cbn [negb snd].
    unfold length, set_top, size_max, int32_max in *; cbn [top bottom].
    rewrite wrap_i32_id by (unfold int32_max; lia). lia.
Qed.

(** X1. The deque never holds more than its capacity: every state reached from
    a fresh queue by [push], [pop], [steal] and [reset] has
    [0 <= bottom - top <= queue_capacity], with both counters in
    [[0, size_max]]. *)
Theorem deque_length_within_capacity q :
  reachable q ->
  0 <= length q <= queue_capacity /\
  0 <= top q <= size_max /\ 0 <= bottom q <= size_max /\
  List.length (contents q) = Z.to_nat (length q).
Proof.
  intros Hr. destruct (reachable_bounded q Hr) as [(Hl & H0 & H1 & H2) Hc].
  unfold length in *. repeat split; try lia. apply contents_length.
Qed.

Lemma deque_length_within_capacity_witness :
  0 <= length (snd (steal new)) <= queue_capacity.
Proof.
  apply (deque_length_within_capacity (snd (steal new))).
  apply reachable_steal, reachable_new.
Defined.

(** [push] in terms of the sequence a deque holds. *)
Lemma push_contents job q :
  bounded q -> bottom q < size_max ->
  (length q < queue_capacity ->
     exists q', push job q = Ok (true, q') /\
       contents q' = contents q ++ [job] /\ bounded q') /\
  (length q = queue_capacity -> push job q = Ok (false, q)).
Proof.
  intros [Hv Hc] Hb. pose proof Hv as (Hl & H0 & H1 & H2).
  rewrite (push_eq job q Hv Hb). split.
  - intros Hlt. destruct (Z.eqb_spec (length q) queue_capacity) as [? | _]; [lia |].
    eexists. split; [reflexivity |].
    set (q' := mk _ _ _).
    assert (Hlen' : length q' = length q + 1) by (unfold length, q'; cbn [top bottom]; lia).
    split; [| split].
    + unfold contents at 1. rewrite Hlen'.
      replace (Z.to_nat (length q + 1)) with (S (Z.to_nat (length q)))
        by (unfold length; lia).
      rewrite seq_S, fmap_app. cbn [fmap list_fmap Nat.add]. f_equal.
      * apply contents_ext; [reflexivity |]. intros i Hi.
        unfold load_slot, q'; cbn [ring_buffer].
        rewrite <- slot_index_mod by lia.
        rewrite list_lookup_insert_ne; [reflexivity |].
        apply not_eq_sym, slot_index_apart; unfold length in *; lia.
      * f_equal. unfold load_slot, q'; cbn [ring_buffer top].
        replace (top q + Z.of_nat (Z.to_nat (length q))) with (bottom q)
          by (unfold length; lia).
        rewrite <- slot_index_mod by lia.
        rewrite list_lookup_insert_eq; [reflexivity |].
        rewrite Hl. apply slot_index_lt.
    + unfold valid, q'; cbn [ring_buffer top bottom]. rewrite length_insert. lia.
    + lia.
  - intros ->. rewrite Z.eqb_refl. reflexivity.
Qed.

(** X2. [push] appends at the bottom: on a deque that holds fewer than
    [queue_capacity] jobs (and whose [bottom] is below [size_max]) it returns
    true and the contents gain the job at the end; on a deque that holds
    exactly [queue_capacity] jobs it returns false and the deque is as before. *)
Theorem push_appends job q :
  bounded q -> bottom q < size_max ->
  (length q < queue_capacity ->
     exists q', push job q = Ok (true, q') /\
       contents q' = contents q ++ [job] /\ bounded q') /\
  (length q = queue_capacity -> push job q = Ok (false, q)).
Proof. exact (push_contents job q). Qed.

Lemma push_appends_witness :
  exists q', push (Some (RootJobOf 3)) new = Ok (true, q') /\
    contents q' = contents new ++ [Some (RootJobOf 3)] /\ bounded q'.
Proof.
  apply (push_appends (Some (RootJobOf 3)) new).
  - split; [apply valid_new | vm_compute; discriminate].
  - vm_compute. reflexivity.
  - vm_compute. reflexivity.
Defined.

(** [pop] in terms of the sequence a deque holds. *)
Lemma pop_contents q :
  bounded q ->
  (forall older job, contents q = older ++ [job] ->
     fst (pop q) = job /\ contents (snd (pop q)) = older /\ bounded (snd (pop q))) /\
  (contents q = [] -> pop q = (None, q)).
Proof.
  intros [Hv Hc]. pose proof Hv as (Hl & H0 & H1 & H2). split.
  - intros older job Hcont.
    assert (Hlen : Z.to_nat (length q) = S (List.length older)).
    { rewrite <- contents_length, Hcont, length_app. cbn. lia. }
    assert (Hjob : job = load_slot q (bottom q - 1)).
    { unfold contents in Hcont. rewrite Hlen, seq_S, fmap_app in Hcont.
      apply app_inj_tail in Hcont. destruct Hcont as [_ Hj]. rewrite <- Hj.
      cbn [Nat.add]. f_equal. unfold length in Hlen. lia. }
    assert (Holder : older =
              (fun i => load_slot q (top q + Z.of_nat i)) <$> seq 0 (List.length older)).
    { unfold contents in Hcont. rewrite Hlen, seq_S, fmap_app in Hcont.
      apply app_inj_tail in Hcont. destruct Hcont as [Ho _]. symmetry. exact Ho. }
    unfold pop. destruct (Z.eq_dec (length q) 1) as [H1' | Hn1].
    + rewrite pop_with_last by assumption. rewrite Z.eqb_refl. cbn [fst snd].
      split; [symmetry; exact Hjob |].
      assert (older = []) as -> by (destruct older; [reflexivity | cbn in Hlen; lia]).
      split.
      * unfold contents, length; cbn [top bottom].
        replace (bottom q - 1 + 1 - (top q + 1)) with 0 by (unfold length in H1'; lia).
        reflexivity.
      * split; [| unfold length, queue_capacity in *; cbn [top bottom]; lia].
        unfold valid, length in *; cbn [ring_buffer top bottom]. lia.
    + rewrite pop_with_many by (assumption || lia). cbn [fst snd].
      split; [symmetry; exact Hjob |]. split.
      * etransitivity; [| symmetry; exact Holder]. unfold contents.
        replace (Z.to_nat (length (set_bottom q (bottom q - 1)))) with (List.length older)
          by (unfold length, set_bottom in *; cbn [top bottom]; lia).
        reflexivity.
      * split; [| unfold length, set_bottom in *; cbn [top bottom]; lia].
        unfold valid, length, set_bottom in *; cbn [ring_buffer top bottom]. lia.
  - intros He. apply pop_with_empty; [assumption |].
    pose proof (contents_length q) as Hlen. rewrite He in Hlen. cbn in Hlen.
    unfold length in Hlen. lia.
Qed.

(** X3. [pop] takes from the bottom: on a deque whose contents end with [job]
    it returns [job] and leaves the rest; on an empty deque it returns null and
    leaves the deque as it was. *)
Theorem pop_takes_newest q :
  bounded q ->
  (forall older job, contents q = older ++ [job] ->
     fst (pop q) = job /\ contents (snd (pop q)) = older /\ bounded (snd (pop q))) /\
  (contents q = [] -> pop q = (None, q)).
Proof. exact (pop_contents q). Qed.

Lemma pop_takes_newest_witness :
  pop new = (None, new) /\
  fst (pop (mk (<[0%nat := Some (RootJobOf 3)]> (ring_buffer new)) 0 1)) = Some (RootJobOf 3).
Proof.
  split.
  - apply (pop_takes_newest new).
    + split; [apply valid_new | vm_compute; discriminate].
    + reflexivity.
  - apply (proj1 (pop_takes_newest
                    (mk (<[0%nat := Some (RootJobOf 3)]> (ring_buffer new)) 0 1)
                    ltac:(split; [split; [vm_compute; reflexivity | vm_compute; intuition discriminate]
                                 | vm_compute; discriminate]))
             [] (Some (RootJobOf 3))).
    vm_compute. reflexivity.
Defined.

(** X4. [steal] takes from the top: on a deque whose contents start with [job]
    an uncontended [steal] returns [job] and leaves the rest; on an empty deque
    it returns null and leaves the deque as it was. *)
Theorem steal_takes_oldest q :
  bounded q ->
  (forall job newer, contents q = job :: newer ->
     fst (steal q) = job /\ contents (snd (steal q)) = newer /\ bounded (snd (steal q))) /\
  (contents q = [] -> steal q = (None, q)).
Proof.
  intros [Hv Hc]. pose proof Hv as (Hl & H0 & H1 & H2). split.
  - intros job newer Hcont.
    assert (Hlen : Z.to_nat (length q) = S (List.length newer)).
    { rewrite <- contents_length, Hcont. reflexivity. }
    unfold contents in Hcont. rewrite Hlen in Hcont. cbn [seq fmap list_fmap] in Hcont.
    injection Hcont as Hjob Hnewer.
    unfold steal, steal_with, compare_exchange_strong.
    destruct (Z.geb_spec (top q) (bottom q)); [unfold length in Hlen; lia |].
    cbn [set_top top]. rewrite Z.eqb_refl. cbn [negb fst snd].
    unfold size_max, int32_max in *.
    rewrite wrap_i32_id by (unfold int32_max, length in *; lia).
    split; [rewrite <- Hjob; f_equal; lia |]. split.
    + rewrite <- Hnewer. unfold contents.
      replace (Z.to_nat (length (set_top (set_top q (top q)) (top q + 1))))
        with (List.length newer) by (unfold length, set_top in *; cbn [top bottom]; lia).
      rewrite <- seq_shift, <- list_fmap_compose. apply list_fmap_ext.
      intros k i _. cbn. unfold load_slot, set_top; cbn [ring_buffer top]. do 3 f_equal. lia.
    + split; [| unfold length, set_top in *; cbn [top bottom]; lia].
      unfold valid, length, set_top, size_max, int32_max in *; cbn [ring_buffer top bottom]. lia.
  - intros He. unfold steal, steal_with.
    pose proof (contents_length q) as Hlen. rewrite He in Hlen. cbn in Hlen.
    destruct (Z.geb_spec (top q) (bottom q)); [reflexivity | unfold length in Hlen; lia].
Qed.

Lemma steal_takes_oldest_witness :
  steal new = (None, new) /\
  fst (steal (mk (<[0%nat := Some (RootJobOf 3)]> (ring_buffer new)) 0 1)) = Some (RootJobOf 3).
Proof.
  split.
  - apply (steal_takes_oldest new).
    + split; [apply valid_new | vm_compute; discriminate].
    + reflexivity.
  - apply (proj1 (steal_takes_oldest
                    (mk (<[0%nat := Some (RootJobOf 3)]> (ring_buffer new)) 0 1)
                    ltac:(split; [split; [vm_compute; reflexivity | vm_compute; intuition discriminate]
                                 | vm_compute; discriminate]))
             (Some (RootJobOf 3)) []).
    vm_compute. reflexivity.
Defined.

End DequeFacts.

(** ** The per-worker job allocator *)

Section AllocationFacts.
Import Allocation.

Lemma allocate_progress k chunk_list a ca :
  progress k chunk_list a ca ->
  0 <= k < allocation_chunk_size * Z.of_nat (List.length chunk_list) ->
  Z.of_nat (List.length chunk_list) <= uint32_max ->
  exists a' ca',
    JobAllocator.allocate a ca =
      Ok (Some (ChunkJob (Z.to_nat (k / allocation_chunk_size))
                         (Z.to_nat (k mod allocation_chunk_size))), a', ca') /\
    progress (k + 1) chunk_list a' ca'.
Proof.
  unfold progress, allocation_chunk_size, uint32_max.
  intros (Hch & Hz & Hnz) Hk HC.
  destruct (Z.eq_dec (k mod 2048) 0) as [Hm | Hm].
  - destruct (Hz Hm) as [Hc Hn]. unfold JobAllocator.allocate. rewrite Hc.
    rewrite allocate_eq
      by (unfold JobChunkAllocator.size_max, uint32_max; rewrite Hn;
          Z.to_euclidean_division_equations; lia).
    rewrite Hch, Hn.
    destruct (Z.ltb_spec (k / 2048) (Z.of_nat (List.length chunk_list)));
      [| Z.to_euclidean_division_equations; lia].
    cbn [mbind result_bind]. unfold JobAllocator.take_slot, allocation_chunk_size.
    cbn [JobAllocator.chunk JobAllocator.next_index mbind result_bind].
    rewrite Hm. eexists _, _. split; [reflexivity |].
    cbn [JobChunkAllocator.set_next_index JobChunkAllocator.chunks
         JobChunkAllocator.next_index JobAllocator.chunk JobAllocator.next_index].
    split; [exact Hch |]. split.
    + intros H0. exfalso. Z.to_euclidean_division_equations; lia.
    + intros _. split; [f_equal; Z.to_euclidean_division_equations; lia |].
      change (wrap_u32 (0 + 1)) with 1.
      split; Z.to_euclidean_division_equations; lia.
  - destruct (Hnz Hm) as (Hc & Ha & Hn). unfold JobAllocator.allocate. rewrite Hc.
    unfold JobAllocator.take_slot, allocation_chunk_size. rewrite Hc, Ha.
    rewrite wrap_u32_id by (unfold uint32_max; Z.to_euclidean_division_equations; lia).
    destruct (Z.eqb_spec (k mod 2048 + 1) 2048) as [He | Hne];
      cbn [mbind result_bind]; (eexists _, _; split; [reflexivity |]);
      cbn [JobAllocator.chunk JobAllocator.next_index]; (split; [exact Hch |]); split.
    + intros _. split; [reflexivity |]. rewrite Hn.
      Z.to_euclidean_division_equations; lia.
    + intros H0. exfalso. Z.to_euclidean_division_equations; lia.
    + intros H0. exfalso. Z.to_euclidean_division_equations; lia.
    + intros _. split; [f_equal; Z.to_euclidean_division_equations; lia |].
      split; [| rewrite Hn]; Z.to_euclidean_division_equations; lia.
Qed.

Lemma progress_reset a ca :
  progress 0 (JobChunkAllocator.chunks ca)
    (JobAllocator.reset a) (JobChunkAllocator.reset ca).
Proof.
  split; [reflexivity |]. split.
  - intros _. split; reflexivity.
  - intros H. exfalso. apply H. reflexivity.
Qed.

Lemma after_allocations_progress chunk_list a ca :
  Z.of_nat (List.length chunk_list) <= uint32_max ->
  progress 0 chunk_list a ca ->
  forall n,
    Z.of_nat n <= allocation_chunk_size * Z.of_nat (List.length chunk_list) ->
    exists a' ca',
      after_allocations n a ca = Ok (a', ca') /\ progress (Z.of_nat n) chunk_list a' ca'.
Proof.
  intros HC H0. induction n as [| n IH]; intros Hn.
  - exists a, ca. split; [reflexivity | exact H0].
  - destruct IH as (a1 & ca1 & Hr & Hp); [lia |].
    destruct (allocate_progress _ _ _ _ Hp ltac:(lia) HC) as (a2 & ca2 & Ha & Hp2).
    exists a2, ca2. cbn [after_allocations]. rewrite Hr. cbn [mbind result_bind].
    rewrite Ha. cbn [mbind result_bind]. split; [reflexivity |].
    replace (Z.of_nat (S n)) with (Z.of_nat n + 1) by lia. exact Hp2.
Qed.

(** X5. Counted from a reset (or fresh) job allocator and chunk allocator, the
    allocation that follows [n] earlier ones returns slot
    [n mod allocation_chunk_size] of chunk [n / allocation_chunk_size], as long
    as [n] is below the number of jobs in all chunks; so no slot is handed out
    twice, and the worker asks for a chunk once per [allocation_chunk_size]
    jobs. *)
Theorem allocation_after_reset a ca n :
  Z.of_nat (List.length (JobChunkAllocator.chunks ca)) <= uint32_max ->
  Z.of_nat n < allocation_chunk_size * Z.of_nat (List.length (JobChunkAllocator.chunks ca)) ->
  exists a' ca',
    allocation_after n (JobAllocator.reset a) (JobChunkAllocator.reset ca) =
      Ok (Some (ChunkJob (Z.to_nat (Z.of_nat n / allocation_chunk_size))
                         (Z.to_nat (Z.of_nat n mod allocation_chunk_size))), a', ca') /\
    (Z.to_nat (Z.of_nat n / allocation_chunk_size)
       < List.length (JobChunkAllocator.chunks ca))%nat /\
    JobChunkAllocator.chunks ca' = JobChunkAllocator.chunks ca /\
    JobChunkAllocator.next_index ca' = Z.of_nat n / allocation_chunk_size + 1.
Proof.
  intros HC Hn.
  destruct (after_allocations_progress _ _ _ HC (progress_reset a ca) n ltac:(lia))
    as (a1 & ca1 & Hr & Hp).
  destruct (allocate_progress _ _ _ _ Hp ltac:(lia) HC) as (a2 & ca2 & Ha & Hp2).
  exists a2, ca2. unfold allocation_after. rewrite Hr. cbn [mbind result_bind].
  split; [exact Ha |]. destruct Hp2 as (Hch & Hz & Hnz).
  unfold allocation_chunk_size in *.
  split; [Z.to_euclidean_division_equations; lia |].
  split; [exact Hch |].
  destruct (Z.eq_dec ((Z.of_nat n + 1) mod 2048) 0) as [Hm | Hm].
  - destruct (Hz Hm) as [_ ->]. Z.to_euclidean_division_equations; lia.
  - destruct (Hnz Hm) as (_ & _ & ->). Z.to_euclidean_division_equations; lia.
Qed.

Lemma allocation_after_reset_witness :
  exists a' ca',
    allocation_after 2049 JobAllocator.new (JobChunkAllocator.new 2) =
      Ok (Some (ChunkJob 1 1), a', ca').
Proof.
  destruct (allocation_after_reset JobAllocator.new (JobChunkAllocator.new 2) 2049)
    as (a' & ca' & H & _).
  - unfold JobChunkAllocator.new; cbn [JobChunkAllocator.chunks].
    rewrite length_replicate. unfold uint32_max. lia.
  - unfold JobChunkAllocator.new; cbn [JobChunkAllocator.chunks].
    rewrite length_replicate. unfold allocation_chunk_size. lia.
  - exists a', ca'. exact H.
Defined.

(** The allocation that follows the last slot of the last chunk. *)
Lemma allocation_after_all_slots a ca :
  Z.of_nat (List.length (JobChunkAllocator.chunks ca)) < uint32_max ->
  exists a' ca',
    allocation_after
      (Z.to_nat (allocation_chunk_size * Z.of_nat (List.length (JobChunkAllocator.chunks ca))))
      (JobAllocator.reset a) (JobChunkAllocator.reset ca)
    = Ok (None, a', ca') /\
    JobAllocator.chunk a' = None.
Proof.
  intros HC.
  assert (HC' : Z.of_nat (List.length (JobChunkAllocator.chunks ca)) <= uint32_max) by lia.
  set (C := Z.of_nat (List.length (JobChunkAllocator.chunks ca))) in *.
  destruct (after_allocations_progress (JobChunkAllocator.chunks ca) _ _ HC'
              (progress_reset a ca) (Z.to_nat (allocation_chunk_size * C)))
    as (a1 & ca1 & Hr & Hp).
  { fold C. unfold allocation_chunk_size. lia. }
  unfold allocation_after. rewrite Hr. cbn [mbind result_bind].
  rewrite Z2Nat.id in Hp by (unfold allocation_chunk_size, C; lia).
  destruct Hp as (Hch & Hz & _).
  destruct Hz as [Hc Hn].
  { unfold allocation_chunk_size. rewrite Z.mul_comm. apply Z.mod_mul. lia. }
  assert (Hn' : JobChunkAllocator.next_index ca1 = C).
  { rewrite Hn. unfold allocation_chunk_size. rewrite Z.mul_comm. apply Z.div_mul. lia. }
  unfold JobAllocator.allocate. rewrite Hc.
  rewrite allocate_eq
    by (unfold JobChunkAllocator.size_max; rewrite Hn'; unfold C; lia).
  rewrite Hch, Hn'. fold C. rewrite Z.ltb_irrefl. cbn [mbind result_bind].
  eexists _, _. split; reflexivity.
Qed.

(** X6. Once every slot of every chunk has been handed out, the next
    allocation returns null and hands out nothing. *)
Theorem allocation_exhausted a ca :
  Z.of_nat (List.length (JobChunkAllocator.chunks ca)) < uint32_max ->
  exists a' ca',
    allocation_after
      (Z.to_nat (allocation_chunk_size * Z.of_nat (List.length (JobChunkAllocator.chunks ca))))
      (JobAllocator.reset a) (JobChunkAllocator.reset ca)
    = Ok (None, a', ca') /\
    JobAllocator.chunk a' = None.
Proof. exact (allocation_after_all_slots a ca). Qed.

Lemma allocation_exhausted_witness :
  exists a' ca',
    allocation_after 2048 JobAllocator.new (JobChunkAllocator.new 1) = Ok (None, a', ca').
Proof.
  destruct (allocation_exhausted JobAllocator.new (JobChunkAllocator.new 1))
    as (a' & ca' & H & _).
  - unfold JobChunkAllocator.new; cbn [JobChunkAllocator.chunks].
    rewrite length_replicate. unfold uint32_max. lia.
  - exists a', ca'.
    unfold JobChunkAllocator.new in H; cbn [JobChunkAllocator.chunks] in H.
    rewrite length_replicate in H. exact H.
Defined.

End AllocationFacts.

(** ** Spawning, from allocation to the deque *)

Section SpawnRoundTrip.
Import JobSpawner Deque.

Lemma store_then_load c s j j0 w :
  load_job (ChunkJob c s) w = Ok j0 ->
  exists w',
    store_job (ChunkJob c s) j w = Ok w' /\
    load_job (ChunkJob c s) w' = Ok j /\
    allocator w' = allocator w /\ queue w' = queue w /\
    graph_nodes w' = graph_nodes w /\
    JobChunkAllocator.next_index (chunk_allocator w')
      = JobChunkAllocator.next_index (chunk_allocator w).
Proof.
  unfold load_job, store_job. intros H.
  destruct (JobChunkAllocator.chunks (chunk_allocator w) !! c) as [chunk |] eqn:Hc;
    [| discriminate].
  destruct (chunk !! s) as [j1 |] eqn:Hs; [| discriminate].
  eexists. split; [reflexivity |].
  cbn [chunk_allocator JobChunkAllocator.chunks allocator queue graph_nodes
       JobChunkAllocator.next_index].
  rewrite list_lookup_insert_eq by (eapply lookup_lt_Some; eassumption).
  rewrite list_lookup_insert_eq by (eapply lookup_lt_Some; eassumption).
  repeat split.
Qed.

(** X7. A spawn whose allocation returns a slot, on a deque with room, returns;
    the job it wrote carries the function, the parameter bytes and the
    back-pointer ([node] for a sub-job, null otherwise); the job is appended to
    the deque and is what the owner pops next; and the graph changes only by
    the sub-job's increment of [unfinished_amount]. *)
Theorem spawn_then_pop self function params is_sub_job w c s a' ca' j0 :
  JobAllocator.allocate (allocator w) (chunk_allocator w) = Ok (Some (ChunkJob c s), a', ca') ->
  load_job (ChunkJob c s) (mkMachine a' ca' (queue w) (graph_nodes w)) = Ok j0 ->
  bounded (queue w) ->
  JobQueue.length (queue w) < queue_capacity ->
  JobQueue.bottom (queue w) < JobQueue.size_max ->
  (is_sub_job = true -> exists p, node self = Some p /\ is_Some (graph_nodes w !! p)) ->
  exists w',
    spawn_impl self function params is_sub_job w = Ok w' /\
    load_job (ChunkJob c s) w' =
      Ok (Job.mk (memcpy (Job.param_buffer j0) params) function
                 (if is_sub_job then node self else None)) /\
    contents (queue w') = contents (queue w) ++ [Some (ChunkJob c s)] /\
    fst (JobQueue.pop (queue w')) = Some (ChunkJob c s) /\
    allocator w' = a' /\
    (is_sub_job = false -> graph_nodes w' = graph_nodes w) /\
    (forall p n, is_sub_job = true -> node self = Some p -> graph_nodes w !! p = Some n ->
       graph_nodes w' =
         <[p := JobGraphNode.set_unfinished_amount n
                  (wrap_u32 (JobGraphNode.unfinished_amount n + 1))]> (graph_nodes w)).
Proof.
  intros Halloc Hload Hb Hroom Hbot Hnode.
  destruct (push_contents (Some (ChunkJob c s)) (queue w) Hb Hbot) as [Hpush _].
  destruct (Hpush Hroom) as (q' & Hq' & Hcont & Hb').
  assert (Hpop : fst (JobQueue.pop q') = Some (ChunkJob c s)).
  { apply (proj1 (pop_contents q' Hb') (contents (queue w))). exact Hcont. }
  unfold spawn_impl. rewrite Halloc. cbn [mbind result_bind assert non_null].
  rewrite Hload. cbn [mbind result_bind].
  destruct (store_then_load c s
              (Job.set_param_buffer j0 (memcpy (Job.param_buffer j0) params)) j0 _ Hload)
    as (w1 & S1 & L1 & A1 & Q1 & G1 & N1).
  rewrite S1. cbn [mbind result_bind]. rewrite L1. cbn [mbind result_bind].
  destruct (store_then_load c s
              (Job.set_function
                 (Job.set_param_buffer j0 (memcpy (Job.param_buffer j0) params)) function)
              _ _ L1)
    as (w2 & S2 & L2 & A2 & Q2 & G2 & N2).
  rewrite S2. cbn [mbind result_bind].
  cbn [allocator queue graph_nodes] in A1, Q1, G1.
  destruct is_sub_job.
  - destruct (Hnode eq_refl) as (p & Hp & [n Hn]).
    rewrite L2. cbn [mbind result_bind].
    destruct (store_then_load c s
                (Job.set_node
                   (Job.set_function
                      (Job.set_param_buffer j0 (memcpy (Job.param_buffer j0) params))
                      function) (node self)) _ _ L2)
      as (w3 & S3 & L3 & A3 & Q3 & G3 & N3).
    rewrite S3. cbn [mbind result_bind]. rewrite Hp.
    unfold JobGraphNode.job_added, JobGraphNode.deref.
    rewrite G3, G2, G1, Hn. cbn [mbind result_bind queue].
    rewrite Q3, Q2, Q1, Hq'. cbn [mbind result_bind assert].
    eexists. split; [reflexivity |].
    cbn [queue allocator graph_nodes].
    split; [unfold load_job in L3 |- *; cbn [chunk_allocator]; rewrite <- Hp; exact L3 |].
    split; [exact Hcont |]. split; [exact Hpop |]. split; [congruence |].
    split; [discriminate |].
    intros p' n' _ Hp' Hn'. injection Hp' as <-.
    rewrite Hn in Hn'. injection Hn' as <-. reflexivity.
  - rewrite L2. cbn [mbind result_bind].
    destruct (store_then_load c s
                (Job.set_node
                   (Job.set_function
                      (Job.set_param_buffer j0 (memcpy (Job.param_buffer j0) params))
                      function) None) _ _ L2)
      as (w3 & S3 & L3 & A3 & Q3 & G3 & N3).
    rewrite S3. cbn [mbind result_bind].
    rewrite Q3, Q2, Q1, Hq'. cbn [mbind result_bind assert].
    eexists. split; [reflexivity |].
    cbn [queue allocator graph_nodes].
    split; [unfold load_job in L3 |- *; cbn [chunk_allocator]; exact L3 |].
    split; [exact Hcont |]. split; [exact Hpop |]. split; [congruence |].
    split; [intros _; congruence |]. intros p n Hf. discriminate Hf.
Qed.


Lemma spawn_then_pop_witness :
  exists w',
    spawn_impl (JobSpawner.mk (Some 1%nat)) (Some 5%nat) [7; 8] true fresh_worker = Ok w' /\
    fst (JobQueue.pop (queue w')) = Some (ChunkJob 0 0) /\
    (JobGraphNode.unfinished_amount <$> graph_nodes w' !! 1%nat) = Some 2.
Proof.
  destruct (JobAllocator.allocate (allocator fresh_worker) (chunk_allocator fresh_worker))
    as [[[job a'] ca'] | e] eqn:Halloc; [| vm_compute in Halloc; discriminate Halloc].
  assert (Hjob : job = Some (ChunkJob 0 0)).
  { vm_compute in Halloc. injection Halloc as <- _ _. reflexivity. }
  subst job.
  destruct (load_job (ChunkJob 0 0)
              (mkMachine a' ca' (queue fresh_worker) (graph_nodes fresh_worker)))
    as [j0 | e] eqn:Hload.
  2: { vm_compute in Halloc. injection Halloc as <- <-. vm_compute in Hload.
       discriminate Hload. }
  destruct (spawn_then_pop (JobSpawner.mk (Some 1%nat)) (Some 5%nat) [7; 8] true
              fresh_worker 0 0 a' ca' j0 Halloc Hload)
    as (w' & Hs & _ & _ & Hpop & _ & _ & Hg).
  - split; [apply valid_new | vm_compute; discriminate].
  - vm_compute. reflexivity.
  - vm_compute. reflexivity.
  - intros _. exists 1%nat. split; [reflexivity |]. eexists. reflexivity.
  - exists w'. split; [exact Hs |]. split; [exact Hpop |].
    rewrite (Hg 1%nat _ eq_refl eq_refl eq_refl). reflexivity.
Defined.

(** X8. A spawn on a deque that already holds [queue_capacity] jobs aborts on
    the assertion that the push succeeded. *)
Theorem spawn_on_full_deque_aborts self function params w c s a' ca' j0 :
  JobAllocator.allocate (allocator w) (chunk_allocator w) = Ok (Some (ChunkJob c s), a', ca') ->
  load_job (ChunkJob c s) (mkMachine a' ca' (queue w) (graph_nodes w)) = Ok j0 ->
  bounded (queue w) ->
  JobQueue.length (queue w) = queue_capacity ->
  JobQueue.bottom (queue w) < JobQueue.size_max ->
  spawn_impl self function params false w = Fault AssertionFailed.
Proof.
  intros Halloc Hload Hb Hfull Hbot.
  destruct (push_contents (Some (ChunkJob c s)) (queue w) Hb Hbot) as [_ Hpush].
  specialize (Hpush Hfull).
  unfold spawn_impl. rewrite Halloc. cbn [mbind result_bind assert non_null].
  rewrite Hload. cbn [mbind result_bind].
  destruct (store_then_load c s
              (Job.set_param_buffer j0 (memcpy (Job.param_buffer j0) params)) j0 _ Hload)
    as (w1 & S1 & L1 & A1 & Q1 & G1 & N1).
  rewrite S1. cbn [mbind result_bind]. rewrite L1. cbn [mbind result_bind].
  destruct (store_then_load c s
              (Job.set_function
                 (Job.set_param_buffer j0 (memcpy (Job.param_buffer j0) params)) function)
              _ _ L1)
    as (w2 & S2 & L2 & A2 & Q2 & G2 & N2).
  rewrite S2. cbn [mbind result_bind]. rewrite L2. cbn [mbind result_bind].
  destruct (store_then_load c s
              (Job.set_node
                 (Job.set_function
                    (Job.set_param_buffer j0 (memcpy (Job.param_buffer j0) params))
                    function) None) _ _ L2)
    as (w3 & S3 & L3 & A3 & Q3 & G3 & N3).
  rewrite S3. cbn [mbind result_bind].
  cbn [queue] in Q1. rewrite Q3, Q2, Q1, Hpush. reflexivity.
Qed.


Lemma spawn_on_full_deque_aborts_witness :
  spawn_impl (JobSpawner.mk None) (Some 5%nat) [7; 8] false full_worker = Fault AssertionFailed.
Proof.
  destruct (JobAllocator.allocate (allocator full_worker) (chunk_allocator full_worker))
    as [[[job a'] ca'] | e] eqn:Halloc; [| vm_compute in Halloc; discriminate Halloc].
  assert (Hjob : job = Some (ChunkJob 0 0)).
  { vm_compute in Halloc. injection Halloc as <- _ _. reflexivity. }
  subst job.
  destruct (load_job (ChunkJob 0 0)
              (mkMachine a' ca' (queue full_worker) (graph_nodes full_worker)))
    as [j0 | e] eqn:Hload.
  2: { vm_compute in Halloc. injection Halloc as <- <-. vm_compute in Hload.
       discriminate Hload. }
  apply (spawn_on_full_deque_aborts (JobSpawner.mk None) (Some 5%nat) [7; 8]
           full_worker 0 0 a' ca' j0 Halloc Hload).
  - split; [| vm_compute; discriminate].
    split; [reflexivity |]. vm_compute. repeat split; discriminate.
  - vm_compute. reflexivity.
  - vm_compute. reflexivity.
Defined.

(** X9. When every slot of every chunk has been handed out, the next spawn
    aborts on the assertion that the allocation succeeded. *)
Theorem spawn_out_of_jobs_aborts self function params is_sub_job a ca a1 ca1 q m :
  Z.of_nat (List.length (JobChunkAllocator.chunks ca)) < uint32_max ->
  Allocation.after_allocations
    (Z.to_nat (allocation_chunk_size * Z.of_nat (List.length (JobChunkAllocator.chunks ca))))
    (JobAllocator.reset a) (JobChunkAllocator.reset ca) = Ok (a1, ca1) ->
  spawn_impl self function params is_sub_job (mkMachine a1 ca1 q m) = Fault AssertionFailed.
Proof.
  intros HC Hafter.
  destruct (allocation_after_all_slots a ca HC) as (a' & ca' & Hex & _).
  unfold Allocation.allocation_after in Hex. rewrite Hafter in Hex.
  cbn [mbind result_bind] in Hex.
  unfold spawn_impl. cbn [allocator chunk_allocator]. rewrite Hex. reflexivity.
Qed.


Lemma spawn_out_of_jobs_aborts_witness :
  exists a1 ca1,
    Allocation.after_allocations 2048 JobAllocator.new (JobChunkAllocator.new 1) = Ok (a1, ca1) /\
    spawn_impl (JobSpawner.mk None) (Some 5%nat) [] false
      (mkMachine a1 ca1 JobQueue.new []) = Fault AssertionFailed.
Proof.
  destruct (Allocation.after_allocations 2048 JobAllocator.new (JobChunkAllocator.new 1))
    as [[a1 ca1] | e] eqn:Hafter; [| vm_compute in Hafter; discriminate Hafter].
  exists a1, ca1. split; [reflexivity |].
  apply (spawn_out_of_jobs_aborts (JobSpawner.mk None) (Some 5%nat) [] false
           JobAllocator.new (JobChunkAllocator.new 1) a1 ca1 JobQueue.new []).
  - vm_compute. reflexivity.
  - exact Hafter.
Defined.

End SpawnRoundTrip.

(** ** Sub-jobs and the shape of the graph during a run *)

Section RunFacts.
Import JobGraphNode Shape.

Lemma same_shape_refl m : same_shape m m.
Proof. apply Forall2_same_length_lookup_2; [reflexivity |]. intros i x y Hx Hy.
  rewrite Hx in Hy. injection Hy as <-. repeat split. Qed.

Lemma same_shape_trans m1 m2 m3 :
  same_shape m1 m2 -> same_shape m2 m3 -> same_shape m1 m3.
Proof.
  unfold same_shape. intros H12 H23. revert m3 H23.
  induction H12 as [| n1 n2 m1 m2 (S1 & I1 & O1 & R1) _ IH]; intros m3 H23.
  - inversion H23. constructor.
  - inversion H23 as [| ? n3 ? m3' (S2 & I2 & O2 & R2) H23']; subst.
    constructor; [repeat split; congruence | apply IH; assumption].
Qed.

Lemma same_shape_counter m i n n' :
  m !! i = Some n ->
  successors n' = successors n ->
  initial_predecessor_amount n' = initial_predecessor_amount n ->
  owner n' = owner n -> root_job n' = root_job n ->
  same_shape m (<[i := n']> m).
Proof.
  intros Hi Hs Hin Ho Hr. unfold same_shape.
  rewrite <- (list_insert_id m i n Hi) at 1.
  apply Forall2_insert; [apply same_shape_refl | repeat split; assumption].
Qed.

Lemma fire_successors_shape succs : forall m q m' q',
  fire_successors succs m q = Ok (m', q') ->
  same_shape m m' /\ JobQueue.top q' = JobQueue.top q.
Proof.
  induction succs as [| s succs IH]; intros m q m' q' H; cbn [fire_successors] in H.
  - injection H as <- <-. split; [apply same_shape_refl | reflexivity].
  - unfold deref in H. destruct (m !! s) as [ns |] eqn:Hs; [| discriminate].
    cbn [mbind result_bind] in H.
    destruct (predecessor_amount ns >? 0); cbn [assert mbind result_bind] in H;
      [| discriminate].
    destruct (predecessor_amount ns =? 1).
    + destruct (JobQueue.push _ q) as [[pushed q1] |] eqn:Hp; [| discriminate].
      cbn [mbind result_bind] in H. destruct pushed; [| discriminate].
      cbn [assert mbind result_bind] in H. apply IH in H. destruct H as [Hsh Ht].
      split.
      * eapply same_shape_trans; [| exact Hsh].
        eapply same_shape_counter; [exact Hs | reflexivity ..].
      * rewrite Ht. unfold JobQueue.push in Hp.
        destruct (JobQueue.bottom q <? JobQueue.size_max);
          cbn [assert mbind result_bind] in Hp; [| discriminate].
        destruct (_ =? _) in Hp; [discriminate Hp | injection Hp as <-; reflexivity].
    + cbn [mbind result_bind] in H. apply IH in H. destruct H as [Hsh Ht].
      split; [| exact Ht].
      eapply same_shape_trans; [| exact Hsh].
      eapply same_shape_counter; [exact Hs | reflexivity ..].
Qed.

(** X10. Whatever [job_completed] does when it returns, it leaves the shape of
    the graph alone: every node keeps its successors, its
    [initial_predecessor_amount], its owner and its root job, and the arena
    keeps its size; and it takes nothing from the deque ([top] is unchanged). *)
Theorem job_completed_keeps_shape p m q m' q' :
  job_completed p m q = Ok (m', q') ->
  same_shape m m' /\ List.length m' = List.length m /\
  JobQueue.top q' = JobQueue.top q.
Proof.
  intros H.
  assert (Hgoal : same_shape m m' /\ JobQueue.top q' = JobQueue.top q).
  { unfold job_completed, deref in H.
    destruct (m !! p) as [n |] eqn:Hp; [| discriminate]. cbn [mbind result_bind] in H.
    destruct (unfinished_amount n >? 0); cbn [assert mbind result_bind] in H;
      [| discriminate].
    assert (Hs0 : same_shape m
                    (<[p := set_unfinished_amount n (wrap_u32 (unfinished_amount n - 1))]> m))
      by (eapply same_shape_counter; [exact Hp | reflexivity ..]).
    destruct (unfinished_amount n >? 1).
    - injection H as <- <-. split; [exact Hs0 | reflexivity].
    - destruct (fire_successors _ _ q) as [[m1 q1] |] eqn:Hf; [| discriminate].
      cbn [mbind result_bind] in H. apply fire_successors_shape in Hf.
      destruct Hf as [Hs1 Ht].
      destruct (m1 !! p) as [n1 |] eqn:Hp1; [| discriminate]. cbn [mbind result_bind] in H.
      destruct (_ !! p) as [n2 |] eqn:Hp2 in H; [| discriminate].
      cbn [mbind result_bind] in H. injection H as <- <-. split; [| exact Ht].
      eapply same_shape_trans; [exact Hs0 |]. eapply same_shape_trans; [exact Hs1 |].
      eapply same_shape_trans.
      + eapply (same_shape_counter m1 p n1 (set_unfinished_amount n1 1)); [exact Hp1 | reflexivity ..].
      + eapply same_shape_counter; [exact Hp2 | reflexivity ..]. }
  destruct Hgoal as [Hs Ht]. split; [exact Hs |]. split; [| exact Ht].
  symmetry. eapply Forall2_length. exact Hs.
Qed.

Lemma job_completed_keeps_shape_witness :
  exists m' q',
    job_completed 0 (JobGraph.nodes chain_graph) JobQueue.new = Ok (m', q') /\
    same_shape (JobGraph.nodes chain_graph) m'.
Proof.
  destruct (job_completed 0 (JobGraph.nodes chain_graph) JobQueue.new) as [[m' q'] |] eqn:H.
  - exists m', q'. split; [reflexivity |].
    apply (job_completed_keeps_shape 0 (JobGraph.nodes chain_graph) JobQueue.new m' q' H).
  - vm_compute in H. discriminate H.
Defined.

(** X11. A sub-job keeps its node open: [job_added] followed by one
    [job_completed] puts the arena and the deque back as they were, so no
    successor is fired while a spawned sub-job is outstanding. *)
Theorem sub_job_keeps_node_open p m q n :
  m !! p = Some n ->
  1 <= unfinished_amount n < uint32_max ->
  exists m1,
    job_added p m = Ok m1 /\
    (exists n1, m1 !! p = Some n1 /\ unfinished_amount n1 = unfinished_amount n + 1) /\
    job_completed p m1 q = Ok (m, q).
Proof.
  intros Hp Hu. pose proof (lookup_lt_Some _ _ _ Hp) as Hlt.
  unfold job_added. rewrite (deref_Some _ _ _ Hp). cbn [mbind result_bind].
  rewrite wrap_u32_id by lia.
  eexists. split; [reflexivity |].
  assert (H1 : (<[p := set_unfinished_amount n (unfinished_amount n + 1)]> m) !! p
               = Some (set_unfinished_amount n (unfinished_amount n + 1)))
    by (apply list_lookup_insert_eq; assumption).
  split; [eexists; split; [exact H1 | reflexivity] |].
  unfold job_completed. rewrite (deref_Some _ _ _ H1). cbn [mbind result_bind].
  cbn [set_unfinished_amount unfinished_amount].
  unfold assert.
  destruct (Z.gtb_spec (unfinished_amount n + 1) 0) as [_ | ?]; [| lia].
  cbn [mbind result_bind].
  destruct (Z.gtb_spec (unfinished_amount n + 1) 1) as [_ | ?]; [| lia].
  rewrite wrap_u32_id by lia. rewrite list_insert_insert_eq.
  do 2 f_equal. apply list_insert_id. rewrite Hp. f_equal.
  destruct n; unfold set_unfinished_amount; cbn. f_equal. lia.
Qed.

Lemma sub_job_keeps_node_open_witness :
  exists m1,
    job_added 1 (JobGraph.nodes chain_graph) = Ok m1 /\
    job_completed 1 m1 JobQueue.new = Ok (JobGraph.nodes chain_graph, JobQueue.new).
Proof.
  destruct (sub_job_keeps_node_open 1 (JobGraph.nodes chain_graph) JobQueue.new _ eq_refl)
    as (m1 & Ha & _ & Hc).
  - cbn. unfold uint32_max. lia.
  - exists m1. split; assumption.
Defined.

End RunFacts.

(** ** Graphs built through the construction interface *)

Section BuiltGraphFacts.
Import JobGraphNode JobGraph Degree.

Lemma built_well_formed cs g_this g :
  well_scoped 0 cs -> do_calls cs (new g_this) = Ok g -> well_formed g.
Proof.
  intros Hs Hb.
  destruct (do_calls_well_formed cs (new g_this) (new_well_formed g_this) Hs)
    as (g' & Hg' & Hwf).
  rewrite Hb in Hg'. injection Hg' as <-. exact Hwf.
Qed.

(** X12. On every graph built by calls whose predecessors are earlier nodes,
    [is_ancestor_of] returns, and returns true exactly when the descendant is
    reachable over one or more successor edges; in particular no node is its
    own ancestor. *)
Theorem is_ancestor_of_decides_reachability cs g_this g p d :
  well_scoped 0 cs -> do_calls cs (new g_this) = Ok g ->
  (p < List.length (nodes g))%nat ->
  (exists b, is_ancestor_of (nodes g) p d = Ok b /\ (b = true <-> reaches (nodes g) p d)) /\
  is_ancestor_of (nodes g) p p = Ok false.
Proof.
  intros Hs Hb Hp. pose proof (built_well_formed _ _ _ Hs Hb) as (Ht & _).
  split; [apply is_ancestor_of_spec; assumption |].
  destruct (is_ancestor_of_spec (nodes g) p p Ht Hp) as ([] & Hr & Hiff); [| exact Hr].
  pose proof (reaches_bounds _ _ _ Ht (proj1 Hiff eq_refl)). lia.
Qed.

Lemma is_ancestor_of_decides_reachability_witness :
  is_ancestor_of (nodes chain_graph) 1 1 = Ok false /\
  exists b, is_ancestor_of (nodes chain_graph) 0 1 = Ok b /\
    (b = true <-> reaches (nodes chain_graph) 0 1).
Proof.
  assert (Hs : well_scoped 0 [NewNode (Some 0%nat) []; NewNodeAfter (Some 1%nat) [] [0%nat]]).
  { cbn. split; [repeat constructor | split; [unfold uint32_max; lia | exact I]]. }
  split.
  - apply (is_ancestor_of_decides_reachability _ 0 chain_graph 1 1 Hs chain_graph_built).
    cbn. lia.
  - apply (is_ancestor_of_decides_reachability _ 0 chain_graph 0 1 Hs chain_graph_built).
    cbn. lia.
Defined.

Lemma in_degree_app m l i :
  in_degree (m ++ l) i = (in_degree m i + in_degree l i)%nat.
Proof. unfold in_degree. apply sum_list_with_app. Qed.

Lemma in_degree_cons x m i :
  in_degree (x :: m) i = (count_occ Nat.eq_dec (successors x) i + in_degree m i)%nat.
Proof. reflexivity. Qed.

Lemma in_degree_insert m p np np' i :
  m !! p = Some np ->
  (in_degree (<[p := np']> m) i + count_occ Nat.eq_dec (successors np) i
   = in_degree m i + count_occ Nat.eq_dec (successors np') i)%nat.
Proof.
  revert p. induction m as [| x m IH]; intros p Hp; [discriminate |].
  destruct p as [| p]; cbn in Hp.
  - injection Hp as ->.
    change (<[0%nat := np']> (np :: m)) with (np' :: m).
    rewrite !in_degree_cons. lia.
  - specialize (IH p Hp).
    change (<[S p := np']> (x :: m)) with (x :: <[p := np']> m).
    rewrite !in_degree_cons. lia.
Qed.

Lemma in_degree_beyond m i :
  topological m -> (List.length m <= i)%nat -> in_degree m i = 0%nat.
Proof.
  intros Ht Hi. unfold in_degree.
  assert (Hall : forall a n, m !! a = Some n -> count_occ Nat.eq_dec (successors n) i = 0%nat).
  { intros a n Ha. apply count_occ_not_In. intros Hin. specialize (Ht a n Ha).
    rewrite Forall_forall in Ht. apply list_elem_of_In, Ht in Hin. lia. }
  clear Ht Hi. induction m as [| x m IH]; [reflexivity |].
  cbn. rewrite (Hall 0%nat x eq_refl). apply IH. intros a n Ha. apply (Hall (S a) n Ha).
Qed.

Lemma in_degree_extend m f params g_this this i :
  in_degree (m ++ [JobGraphNode.new f params g_this this]) i = in_degree m i.
Proof. rewrite in_degree_app. unfold in_degree at 2. cbn. lia. Qed.

Lemma counters_match_extend g_this m f params :
  topological m -> counters_match g_this m ->
  counters_match g_this (m ++ [JobGraphNode.new f params g_this (List.length m)]).
Proof.
  intros Ht Hc i n Hi. rewrite in_degree_extend.
  apply lookup_app_Some in Hi. destruct Hi as [Hl | [Hge Hr]].
  - apply Hc. exact Hl.
  - destruct (i - List.length m)%nat eqn:Hd; [| discriminate].
    injection Hr as <-. assert (i = List.length m) as -> by lia.
    rewrite in_degree_beyond by (assumption || lia). cbn. repeat split.
Qed.

(** An [add_successor] adds one edge, into the successor. *)
Lemma add_successor_in_degree m p node np nn m' i :
  m !! p = Some np -> m !! node = Some nn -> p <> node ->
  add_successor p node m = Ok m' ->
  in_degree m' i = (in_degree m i + (if Nat.eq_dec node i then 1 else 0))%nat.
Proof.
  intros Hnp Hnn Hne Ha.
  rewrite (add_successor_eq _ _ _ _ _ Hnp Hnn Hne) in Ha. injection Ha as <-.
  set (m1 := <[p := set_successors np (successors np ++ [node])]> m).
  assert (Hnn1 : m1 !! node = Some nn)
    by (unfold m1; rewrite list_lookup_insert_ne by assumption; exact Hnn).
  match goal with |- in_degree (<[node := ?x]> m1) i = _ =>
    pose proof (in_degree_insert m1 node nn x i Hnn1) as H1 end.
  pose proof (in_degree_insert m p np (set_successors np (successors np ++ [node])) i Hnp)
    as H2.
  fold m1 in H2. cbn [set_predecessor_amount set_initial_predecessor_amount
                      set_successors successors] in H1, H2.
  rewrite count_occ_app in H2. cbn [count_occ] in H2.
  destruct (Nat.eq_dec node i); lia.
Qed.

Lemma add_successor_counters g_this node m k p m' :
  wiring g_this node m k -> counters_match g_this m ->
  (p < node)%nat -> 0 <= k < uint32_max ->
  add_successor p node m = Ok m' ->
  counters_match g_this m'.
Proof.
  intros (Ht & Ho & Hlen & nn & Hnn & Hi & Hpa) Hc Hp Hk Ha.
  destruct (lookup_lt_is_Some_2 m p ltac:(lia)) as [np Hnp].
  assert (Hne : p <> node) by lia.
  pose proof (fun i => add_successor_in_degree m p node np nn m' i Hnp Hnn Hne Ha) as Hdeg.
  rewrite (add_successor_eq _ _ _ _ _ Hnp Hnn Hne) in Ha. injection Ha as <-.
  rewrite Hi in Hdeg |- *. rewrite wrap_u32_id in Hdeg |- * by lia.
  set (m1 := <[p := set_successors np (successors np ++ [node])]> m) in *.
  intros i n Hin. rewrite Hdeg.
  destruct (Nat.eq_dec node i) as [<- | Hni].
  - rewrite list_lookup_insert_eq in Hin by (unfold m1; rewrite length_insert; lia).
    injection Hin as <-.
    destruct (Hc node nn Hnn) as (H1 & H2 & H3 & H4 & H5).
    cbn [set_predecessor_amount set_initial_predecessor_amount initial_predecessor_amount
         predecessor_amount unfinished_amount root_job owner].
    repeat split; try assumption. lia.
  - rewrite list_lookup_insert_ne in Hin by assumption. rewrite Nat.add_0_r.
    destruct (Nat.eq_dec p i) as [<- | Hpi].
    + unfold m1 in Hin. rewrite list_lookup_insert_eq in Hin by lia. injection Hin as <-.
      destruct (Hc p np Hnp) as (H1 & H2 & H3 & H4 & H5).
      cbn [set_successors initial_predecessor_amount predecessor_amount unfinished_amount
           root_job owner].
      repeat split; assumption.
    + unfold m1 in Hin. rewrite list_lookup_insert_ne in Hin by assumption.
      apply Hc. exact Hin.
Qed.

(** The loop of the predecessor form keeps the counters in step with the edges
    and adds edges into the new node only. *)
Lemma wire_predecessors_counters g_this predecessors node : forall rest m k m',
  wiring g_this node m k -> counters_match g_this m ->
  Forall (fun p => (p < node)%nat) rest ->
  0 <= k -> k + Z.of_nat (List.length rest) <= uint32_max ->
  wire_predecessors g_this predecessors rest node m = Ok m' ->
  counters_match g_this m' /\
  forall i, i <> node -> in_degree m' i = in_degree m i.
Proof.
  induction rest as [| p rest IH]; intros m k m' Hw Hc Hrest Hk0 Hk Hwire.
  - injection Hwire as <-. split; [exact Hc | reflexivity].
  - cbn [List.length] in Hk. apply Forall_cons in Hrest as [Hp Hrest'].
    pose proof Hw as (Ht & Ho & Hlen & nn & Hnn & _).
    destruct (lookup_lt_is_Some_2 m p ltac:(lia)) as [np Hnp].
    cbn [wire_predecessors] in Hwire. unfold deref in Hwire. rewrite Hnp in Hwire.
    cbn [mbind result_bind] in Hwire.
    rewrite (Forall_lookup_1 _ _ _ _ Ho Hnp), Nat.eqb_refl in Hwire.
    cbn [assert mbind result_bind] in Hwire.
    destruct (redundant_spec m predecessors p Ht ltac:(lia)) as (b & Hb & _).
    rewrite Hb in Hwire. cbn [mbind result_bind] in Hwire. destruct b.
    + cbn [mbind result_bind] in Hwire.
      apply (IH m k m' Hw Hc Hrest' Hk0 ltac:(lia) Hwire).
    + destruct (add_successor_wiring g_this node m k p Hw Hp ltac:(lia))
        as (m1 & Ha & Hw1 & _).
      rewrite Ha in Hwire. cbn [mbind result_bind] in Hwire.
      destruct (IH m1 (k + 1) m' Hw1
                  (add_successor_counters _ _ _ _ _ _ Hw Hc Hp ltac:(lia) Ha)
                  Hrest' ltac:(lia) ltac:(lia) Hwire) as [Hc' Hd'].
      split; [exact Hc' |]. intros i Hi. rewrite (Hd' i Hi).
      rewrite (add_successor_in_degree m p node np nn m1 i Hnp Hnn ltac:(lia) Ha).
      destruct (Nat.eq_dec node i); [congruence | lia].
Qed.

Lemma do_calls_counters cs : forall g g',
  well_formed g -> counters_match (this g) (nodes g) ->
  Forall (fun r => in_degree (nodes g) r = 0%nat) (root_nodes g) ->
  well_scoped (List.length (nodes g)) cs ->
  do_calls cs g = Ok g' ->
  counters_match (this g') (nodes g') /\ this g' = this g /\
  Forall (fun r => in_degree (nodes g') r = 0%nat) (root_nodes g').
Proof.
  induction cs as [| c cs IH]; intros g g' Hwf Hc Hroots Hs Hb.
  - injection Hb as <-. split; [exact Hc |]. split; [reflexivity | exact Hroots].
  - pose proof Hwf as (Ht & Ho & Hrb).
    destruct c as [f params | f params predecessors]; cbn [well_scoped] in Hs;
      cbn [do_calls do_call mbind result_bind] in Hb.
    + apply IH in Hb.
      * cbn [new_node snd this] in Hb. exact Hb.
      * apply new_node_well_formed. exact Hwf.
      * cbn [new_node snd this nodes]. apply counters_match_extend; assumption.
      * cbn [new_node snd nodes root_nodes]. apply Forall_app. split.
        -- eapply Forall_impl; [exact Hroots |]. cbn. intros r Hr.
           rewrite in_degree_extend. exact Hr.
        -- constructor; [| constructor]. rewrite in_degree_extend.
           apply in_degree_beyond; [exact Ht | lia].
      * cbn [new_node snd nodes]. rewrite length_app. cbn [List.length].
        replace (List.length (nodes g) + 1)%nat with (S (List.length (nodes g))) by lia.
        exact Hs.
    + destruct Hs as (Hp & Hlen & Hs).
      destruct (new_node_after_spec f params predecessors g Hwf Hp Hlen)
        as (m' & k' & Hn & Hw & _).
      rewrite Hn in Hb. cbn [mbind result_bind] in Hb.
      unfold new_node_after in Hn.
      destruct (wire_predecessors _ _ _ _ _) as [m1 |] eqn:Hwire; [| discriminate].
      cbn [mbind result_bind] in Hn. injection Hn as ->.
      destruct (wire_predecessors_counters (this g) predecessors (List.length (nodes g))
                  predecessors _ 0 m'
                  (topological_extend _ _ f params Ht Ho)
                  (counters_match_extend _ _ f params Ht Hc)
                  Hp ltac:(lia) ltac:(lia) Hwire) as [Hc' Hd'].
      apply IH in Hb.
      * cbn [this] in Hb. exact Hb.
      * eapply wiring_well_formed; eassumption.
      * cbn [this nodes]. exact Hc'.
      * cbn [nodes root_nodes]. rewrite Forall_forall in Hroots, Hrb. apply Forall_forall.
        intros r Hr. rewrite Hd' by (specialize (Hrb r Hr); lia).
        rewrite in_degree_extend. apply Hroots, Hr.
      * cbn [nodes]. destruct Hw as (_ & _ & -> & _). exact Hs.
Qed.

(** X13. In every graph built by calls whose predecessors are earlier nodes,
    each node's [initial_predecessor_amount] and [predecessor_amount] equal the
    number of successor edges that point at it, its [unfinished_amount] is 1,
    its root job points back at it and its owner is the graph; the nodes of the
    root list have no predecessor, and every edge leads to a node created
    later. *)
Theorem built_graph_counters cs g_this g :
  well_scoped 0 cs -> do_calls cs (new g_this) = Ok g ->
  (forall i n, nodes g !! i = Some n ->
     initial_predecessor_amount n = Z.of_nat (in_degree (nodes g) i) /\
     predecessor_amount n = initial_predecessor_amount n /\
     unfinished_amount n = 1 /\
     Job.node (root_job n) = Some i /\
     owner n = g_this /\
     Forall (fun s => (i < s < List.length (nodes g))%nat) (successors n)) /\
  (forall r n, In r (root_nodes g) -> nodes g !! r = Some n ->
     initial_predecessor_amount n = 0).
Proof.
  intros Hs Hb.
  pose proof (built_well_formed _ _ _ Hs Hb) as (Ht & _).
  destruct (do_calls_counters cs (new g_this) g (new_well_formed g_this)) as (Hc & Hthis & Hr);
    try assumption.
  { intros i n Hi. discriminate. }
  { constructor. }
  cbn [new this] in Hthis. split.
  - intros i n Hi. destruct (Hc i n Hi) as (H1 & H2 & H3 & H4 & H5).
    repeat split; try assumption; [congruence | exact (Ht i n Hi)].
  - intros r n Hin Hn. destruct (Hc r n Hn) as (H1 & _).
    rewrite Forall_forall in Hr. apply list_elem_of_In, Hr in Hin. lia.
Qed.

Lemma built_graph_counters_witness :
  exists n, nodes chain_graph !! 1%nat = Some n /\
    initial_predecessor_amount n = Z.of_nat (in_degree (nodes chain_graph) 1) /\
    predecessor_amount n = 1.
Proof.
  eexists. split; [reflexivity |].
  destruct (proj1 (built_graph_counters
                     [NewNode (Some 0%nat) []; NewNodeAfter (Some 1%nat) [] [0%nat]]
                     0 chain_graph
                     ltac:(cbn; split; [repeat constructor | split; [unfold uint32_max; lia | exact I]])
                     chain_graph_built) 1%nat _ eq_refl) as (Hi & _).
  split; [exact Hi | reflexivity].
Defined.

End BuiltGraphFacts.

(** ** The redundant-edge rule in full *)

Section FilterFacts.
Import JobGraphNode JobGraph Filter.

(** Edges into a node without successors do not change what is reachable
    among the other nodes. *)
Lemma reaches_without_sink m m0 node :
  (forall a na, a <> node -> m !! a = Some na ->
     exists na0 k, m0 !! a = Some na0 /\ successors na = successors na0 ++ replicate k node) ->
  (forall nn, m !! node = Some nn -> successors nn = []) ->
  forall a b, reaches m a b -> b <> node -> reaches m0 a b.
Proof.
  intros Hold Hsink a b Hr.
  assert (Hedge : forall a b, edge m a b -> b <> node -> edge m0 a b).
  { intros x y (nx & Hx & Hin) Hy.
    destruct (Nat.eq_dec x node) as [-> | Hne].
    - rewrite (Hsink nx Hx) in Hin. destruct Hin.
    - destruct (Hold x nx Hne Hx) as (nx0 & k & Hx0 & Hs). exists nx0. split; [exact Hx0 |].
      rewrite Hs in Hin. apply in_app_or in Hin. destruct Hin as [Hin | Hin]; [exact Hin |].
      apply list_elem_of_In, elem_of_replicate in Hin. destruct Hin as [-> _]. congruence. }
  induction Hr as [a b He | a s b He Hr IH]; intros Hb.
  - apply tc_once. apply Hedge; assumption.
  - destruct (Nat.eq_dec s node) as [-> | Hs].
    + exfalso. apply reaches_unfold in Hr.
      destruct Hr as [(nn & Hn & Hin) | (x & (nn & Hn & Hin) & _)];
        rewrite (Hsink nn Hn) in Hin; destruct Hin.
    + eapply tc_l; [apply Hedge; eassumption | apply IH; exact Hb].
Qed.

Lemma wiring_sink g_this node m k nn :
  wiring g_this node m k -> m !! node = Some nn -> successors nn = [].
Proof.
  intros (Ht & _ & Hlen & _) Hn. specialize (Ht node nn Hn).
  destruct (successors nn) as [| s l]; [reflexivity |].
  inversion Ht; subst. lia.
Qed.

(** While the predecessors are wired, reachability among the nodes of the
    graph is what it was before the call. *)
Lemma wired_reaches g_this m0 predecessors visited node m k a b :
  List.length m0 = node ->
  wiring g_this node m k -> wired m0 predecessors visited node m ->
  (a < node)%nat -> (b < node)%nat ->
  reaches m a b <-> reaches m0 a b.
Proof.
  intros Hlen0 Hw Hwd Ha Hb. split.
  - intros Hr. apply (reaches_without_sink m m0 node); [| | exact Hr | lia].
    + intros x nx Hx Hmx.
      assert (x < node)%nat as Hxl.
      { destruct Hw as (_ & _ & Hlen & _). apply lookup_lt_Some in Hmx. lia. }
      destruct (lookup_lt_is_Some_2 m0 x ltac:(lia)) as [nx0 Hx0].
      destruct (Hwd x nx0 Hx0) as (nx' & kx & Hx' & Hs & _).
      rewrite Hmx in Hx'. injection Hx' as <-. eauto.
    + intros nn Hn. eapply wiring_sink; eassumption.
  - clear Ha Hb. induction 1 as [x y (nx & Hx & Hin) | x s y (nx & Hx & Hin) _ IH].
    + destruct (Hwd x nx Hx) as (nx' & kx & Hx' & Hs & _).
      apply tc_once. exists nx'. split; [exact Hx' |]. rewrite Hs. apply in_or_app. left. exact Hin.
    + destruct (Hwd x nx Hx) as (nx' & kx & Hx' & Hs & _).
      eapply tc_l; [| exact IH].
      exists nx'. split; [exact Hx' |]. rewrite Hs. apply in_or_app. left. exact Hin.
Qed.

Lemma wire_predecessors_wired g_this m0 predecessors node :
  List.length m0 = node -> topological m0 ->
  Forall (fun p => (p < node)%nat) predecessors ->
  forall rest visited m k,
    wiring g_this node m k -> wired m0 predecessors visited node m ->
    Forall (fun p => (p < node)%nat) rest ->
    0 <= k -> k + Z.of_nat (List.length rest) <= uint32_max ->
    exists m',
      wire_predecessors g_this predecessors rest node m = Ok m' /\
      wired m0 predecessors (visited ++ rest) node m'.
Proof.
  intros Hlen0 Ht0 Hall.
  induction rest as [| p rest IH]; intros visited m k Hw Hwd Hrest Hk0 Hk.
  - exists m. split; [reflexivity |]. rewrite app_nil_r. exact Hwd.
  - cbn [List.length] in Hk. apply Forall_cons in Hrest as [Hp Hrest'].
    pose proof Hw as (Ht & Ho & Hlen & nn & Hnn & _).
    destruct (lookup_lt_is_Some_2 m p ltac:(lia)) as [np Hnp].
    cbn [wire_predecessors]. unfold deref. rewrite Hnp. cbn [mbind result_bind].
    rewrite (Forall_lookup_1 _ _ _ _ Ho Hnp), Nat.eqb_refl. cbn [assert mbind result_bind].
    destruct (redundant_spec m predecessors p Ht ltac:(lia)) as (b & Hb & Hiff).
    rewrite Hb. cbn [mbind result_bind].
    replace (visited ++ p :: rest) with ((visited ++ [p]) ++ rest)
      by (rewrite <- app_assoc; reflexivity).
    assert (Hsame : forall c, In c predecessors -> reaches m p c <-> reaches m0 p c).
    { intros c Hc. rewrite Forall_forall in Hall.
      apply (wired_reaches g_this m0 predecessors visited node m k p c Hlen0 Hw Hwd Hp).
      apply Hall, list_elem_of_In, Hc. }
    destruct b.
    + cbn [mbind result_bind]. apply (IH (visited ++ [p]) m k Hw); [| exact Hrest' | lia | lia].
      assert (Hred : redundant_in m0 predecessors p).
      { destruct (proj1 Hiff eq_refl) as (c & Hc & Hne & Hr).
        exists c. split; [exact Hc |]. split; [exact Hne |]. apply Hsame; assumption. }
      intros q nq Hq. destruct (Hwd q nq Hq) as (nq' & kq & Hq' & Hs & Hr0 & Hs0).
      exists nq', kq. split; [exact Hq' |]. split; [exact Hs |]. split; [exact Hr0 |].
      intros Hsv. rewrite count_occ_app. cbn [count_occ].
      destruct (Nat.eq_dec p q) as [<- | Hne].
      * destruct Hred as (c & Hc & Hcp & Hr). destruct (Hsv c Hc Hcp Hr).
      * rewrite (Hs0 Hsv). lia.
    + assert (Hsv : survives_in m0 predecessors p).
      { intros c Hc Hne Hr. apply Hsame in Hr; [| exact Hc].
        assert (false = true) by (apply Hiff; eauto). discriminate. }
      destruct (add_successor_wiring g_this node m k p Hw Hp ltac:(lia))
        as (m1 & Ha & Hw1 & _).
      rewrite Ha. cbn [mbind result_bind].
      apply (IH (visited ++ [p]) m1 (k + 1) Hw1); [| exact Hrest' | lia | lia].
      rewrite (add_successor_eq _ _ _ _ _ Hnp Hnn ltac:(lia)) in Ha. injection Ha as <-.
      intros q nq Hq.
      assert (Hql : (q < node)%nat) by (apply lookup_lt_Some in Hq; lia).
      destruct (Hwd q nq Hq) as (nq' & kq & Hq' & Hs & Hr0 & Hs0).
      rewrite list_lookup_insert_ne by lia.
      destruct (Nat.eq_dec p q) as [<- | Hne].
      * rewrite Hnp in Hq'. injection Hq' as <-.
        rewrite list_lookup_insert_eq by lia.
        exists (set_successors np (successors np ++ [node])), (S kq).
        split; [reflexivity |]. split.
        -- cbn [set_successors successors]. rewrite Hs, <- app_assoc. f_equal.
           change [node] with (replicate 1 node). rewrite <- replicate_add.
           f_equal. lia.
        -- split.
           ++ intros (c & Hc & Hcp & Hr). destruct (Hsv c Hc Hcp Hr).
           ++ intros _. rewrite count_occ_app. cbn [count_occ].
              destruct (Nat.eq_dec p p); [| congruence]. rewrite (Hs0 Hsv). lia.
      * rewrite list_lookup_insert_ne by assumption.
        exists nq', kq. split; [exact Hq' |]. split; [exact Hs |]. split; [exact Hr0 |].
        intros Hsq. rewrite count_occ_app. cbn [count_occ].
        destruct (Nat.eq_dec p q); [congruence |]. rewrite (Hs0 Hsq). lia.
Qed.

(** X14. The predecessor form wires the new node to exactly the listed
    predecessors from which no other listed predecessor is reachable: such a
    node gains the new node as a successor once per occurrence in the array,
    and a node from which another listed predecessor is reachable (or that is
    not listed) gains nothing. *)
Theorem new_node_after_filters f params predecessors g :
  well_formed g ->
  Forall (fun p => (p < List.length (nodes g))%nat) predecessors ->
  Z.of_nat (List.length predecessors) <= uint32_max ->
  exists g',
    new_node_after f params predecessors g = Ok (List.length (nodes g), g') /\
    forall p np, nodes g !! p = Some np ->
      exists np',
        nodes g' !! p = Some np' /\
        (redundant_in (nodes g) predecessors p -> successors np' = successors np) /\
        (survives_in (nodes g) predecessors p ->
           successors np' =
             successors np ++ replicate (count_occ Nat.eq_dec predecessors p)
                                        (List.length (nodes g))).
Proof.
  intros Hwf Hp Hlen. pose proof Hwf as (Ht & Ho & _).
  pose proof (topological_extend (this g) (nodes g) f params Ht Ho) as Hw.
  destruct (wire_predecessors_wired (this g) (nodes g) predecessors (List.length (nodes g))
              eq_refl Ht Hp predecessors [] _ 0 Hw) as (m' & Hwire & Hwd).
  - intros p np Hnp. exists np, 0%nat. split; [apply lookup_app_l_Some; exact Hnp |].
    split; [cbn; rewrite app_nil_r; reflexivity |]. split; [reflexivity |].
    intros _. reflexivity.
  - exact Hp.
  - lia.
  - lia.
  - exists (mk (this g) m' (root_nodes g)). unfold new_node_after. rewrite Hwire.
    cbn [mbind result_bind]. split; [reflexivity |].
    intros p np Hnp. cbn [app] in Hwd.
    destruct (Hwd p np Hnp) as (np' & k & Hnp' & Hs & Hr0 & Hs0).
    exists np'. cbn [nodes]. split; [exact Hnp' |]. split.
    + intros Hr. rewrite Hs, (Hr0 Hr). cbn. apply app_nil_r.
    + intros Hsv. rewrite Hs, (Hs0 Hsv). reflexivity.
Qed.

Lemma new_node_after_filters_witness :
  exists g',
    new_node_after (Some 2%nat) [] [0%nat; 1%nat] chain_graph = Ok (2%nat, g') /\
    exists n1', nodes g' !! 1%nat = Some n1' /\ successors n1' = [2%nat].
Proof.
  destruct (new_node_after_filters (Some 2%nat) [] [0%nat; 1%nat] chain_graph
              chain_graph_well_formed)
    as (g' & Hn & Hs).
  - repeat constructor.
  - cbn. unfold uint32_max. lia.
  - exists g'. split; [exact Hn |].
    destruct (Hs 1%nat _ eq_refl) as (n1' & H1 & _ & Hsv).
    exists n1'. split; [exact H1 |]. rewrite Hsv; [reflexivity |].
    intros c [<- | [<- | []]] Hne Hr; [| congruence].
    pose proof (reaches_bounds _ _ _ (proj1 chain_graph_well_formed) Hr). lia.
Defined.

End FilterFacts.

(** ** What [stealer_amount] and [active_amount] count *)

Section ActivityFacts.
Import Scheduler Activity.

Lemma count_cons f pt pts :
  count f (pt :: pts) = ((if f pt then 1 else 0) + count f pts)%nat.
Proof. reflexivity. Qed.

Lemma count_le_length f pts : (count f pts <= List.length pts)%nat.
Proof.
  induction pts as [| pt pts IH]; [cbn; lia |].
  rewrite count_cons. cbn [List.length]. destruct (f pt); lia.
Qed.

Lemma count_insert f pts i pt pt' :
  pts !! i = Some pt ->
  (count f (<[i := pt']> pts) + (if f pt then 1 else 0)
   = count f pts + (if f pt' then 1 else 0))%nat.
Proof.
  revert i. induction pts as [| x pts IH]; intros i Hi; [discriminate |].
  destruct i as [| i]; cbn in Hi.
  - injection Hi as ->. change (<[0%nat := pt']> (pt :: pts)) with (pt' :: pts).
    rewrite !count_cons. lia.
  - specialize (IH i Hi).
    change (<[S i := pt']> (x :: pts)) with (x :: <[i := pt']> pts).
    rewrite !count_cons. lia.
Qed.

Lemma count_replicate_false f n pt : f pt = false -> count f (replicate n pt) = 0%nat.
Proof.
  intros Hf. induction n as [| n IH]; [reflexivity |].
  change (replicate (S n) pt) with (pt :: replicate n pt).
  rewrite count_cons, Hf, IH. reflexivity.
Qed.

Lemma count_all f pts :
  count f pts = List.length pts -> Forall (fun pt => f pt = true) pts.
Proof.
  induction pts as [| pt pts IH]; intros Hc; [constructor |].
  rewrite count_cons in Hc. cbn [List.length] in Hc.
  pose proof (count_le_length f pts).
  destruct (f pt) eqn:Hf; [| lia].
  constructor; [exact Hf | apply IH; lia].
Qed.

Lemma published_snoc tr j e :
  published (tr ++ [(j, e)]) =
    published tr || match e with EvStealerStore _ => true | _ => false end.
Proof. unfold published. rewrite existsb_app. cbn. rewrite orb_false_r. reflexivity. Qed.

(** What the counters hold after any interleaving of the workers' steps. *)
Lemma execution_counters worker_amount tr sys :
  1 <= worker_amount <= uint32_max ->
  execution worker_amount (initial worker_amount) tr sys ->
  List.length (points sys) = Z.to_nat worker_amount /\
  active_amount (atomics sys) = worker_amount - Z.of_nat (count deactivated (points sys)) /\
  (published tr = false ->
     stealer_amount (atomics sys) = Z.of_nat (count stealing (points sys))).
Proof.
  intros HW Hex. remember (initial worker_amount) as sys0 eqn:H0.
  induction Hex as [sys | sys tr sys' le sys'' _ IH Hstep]; subst.
  - cbn [initial points atomics active_amount stealer_amount].
    rewrite length_replicate, !count_replicate_false by reflexivity.
    split; [reflexivity |]. split; [lia | intros _; reflexivity].
  - destruct (IH eq_refl) as (Hlen & Hact & Hst). clear IH.
    destruct Hstep as [sys' j e pt pt' s' Hj Hw].
    cbn [points atomics]. rewrite length_insert.
    split; [exact Hlen |].
    pose proof (count_insert deactivated _ j pt pt' Hj) as Hd.
    pose proof (count_insert stealing _ j pt pt' Hj) as Hs.
    pose proof (count_le_length deactivated (points sys')) as Hd1.
    pose proof (count_le_length deactivated (<[j := pt']> (points sys'))) as Hd2.
    pose proof (count_le_length stealing (points sys')) as Hs1.
    pose proof (count_le_length stealing (<[j := pt']> (points sys'))) as Hs2.
    rewrite length_insert in Hd2, Hs2.
    rewrite published_snoc.
    unfold uint32_max in HW.
    destruct Hw; cbn [deactivated stealing] in Hd, Hs;
      cbn [active_amount stealer_amount orb];
      rewrite ?orb_false_r, ?orb_true_r;
      (split;
       [ try (rewrite wrap_u32_id by (unfold uint32_max; lia)); lia
       | try discriminate; intros Hp; specialize (Hst Hp);
         try (rewrite wrap_u32_id by (unfold uint32_max; lia)); lia ]).
Qed.

(** X15. In every interleaving of the workers' steps from the state [run]
    sets up, [active_amount] is the number of workers that have not
    deactivated themselves (none of its updates wraps), and, until some worker
    stores the all-done value, [stealer_amount] is the number of workers in
    their stealing phase, so at most [worker_amount]. *)
Theorem counters_count_workers worker_amount tr sys :
  1 <= worker_amount <= uint32_max ->
  execution worker_amount (initial worker_amount) tr sys ->
  active_amount (atomics sys) = worker_amount - Z.of_nat (count deactivated (points sys)) /\
  0 <= active_amount (atomics sys) <= worker_amount /\
  (published tr = false ->
     stealer_amount (atomics sys) = Z.of_nat (count stealing (points sys)) /\
     0 <= stealer_amount (atomics sys) <= worker_amount).
Proof.
  intros HW Hex. destruct (execution_counters worker_amount tr sys HW Hex) as (Hlen & Ha & Hs).
  pose proof (count_le_length deactivated (points sys)).
  pose proof (count_le_length stealing (points sys)).
  split; [exact Ha |]. split; [lia |].
  intros Hp. specialize (Hs Hp). split; [exact Hs | lia].
Qed.

Lemma counters_count_workers_witness :
  active_amount (mkShared 2 0) = 1 - Z.of_nat (count deactivated [Returned]).
Proof.
  apply (counters_count_workers 1 lone_worker_trace (mkSystem (mkShared 2 0) [Returned])).
  - unfold uint32_max. lia.
  - exact lone_worker_execution.
Defined.

(** X16. No worker returns from [work_loop] before some worker has stored the
    all-done value [worker_amount + 1] to [stealer_amount]. *)
Theorem return_needs_all_done worker_amount tr sys i :
  1 <= worker_amount <= uint32_max ->
  execution worker_amount (initial worker_amount) tr sys ->
  points sys !! i = Some Returned ->
  published tr = true.
Proof.
  intros HW Hex. revert i. remember (initial worker_amount) as sys0 eqn:H0.
  induction Hex as [sys | sys tr sys' le sys'' Hex IH Hstep]; intros i Hi; subst.
  - cbn [initial points] in Hi. apply lookup_replicate in Hi. destruct Hi; discriminate.
  - destruct (published (tr ++ [le])) eqn:Hp; [reflexivity | exfalso].
    destruct (execution_counters worker_amount tr sys' HW Hex) as (Hlen & _ & Hs).
    destruct Hstep as [sys' j e pt pt' s' Hj Hw]. cbn [points] in Hi.
    rewrite published_snoc in Hp. apply orb_false_elim in Hp. destruct Hp as [Hp _].
    destruct (Nat.eq_dec j i) as [-> | Hne].
    + rewrite list_lookup_insert_eq in Hi by (eapply lookup_lt_Some; eassumption).
      injection Hi as ->.
      pose proof (count_le_length stealing (points sys')) as Hc.
      specialize (Hs Hp).
      inversion Hw; subst; lia.
    + rewrite list_lookup_insert_ne in Hi by assumption.
      specialize (IH eq_refl i Hi). congruence.
Qed.

Lemma return_needs_all_done_witness : published lone_worker_trace = true.
Proof.
  apply (return_needs_all_done 1 lone_worker_trace (mkSystem (mkShared 2 0) [Returned]) 0).
  - unfold uint32_max. lia.
  - exact lone_worker_execution.
  - reflexivity.
Defined.

(** A quiescent moment of a trace is one of every longer trace. *)
Lemma quiescent_later worker_amount tr le :
  quiescent_before worker_amount tr -> quiescent_before worker_amount (tr ++ [le]).
Proof.
  intros (tr1 & tr2 & sys1 & -> & Hex & Ha & Hall).
  exists tr1, (tr2 ++ [le]), sys1. rewrite app_assoc. auto.
Qed.

Lemma execution_quiescent worker_amount tr sys :
  1 <= worker_amount <= uint32_max ->
  execution worker_amount (initial worker_amount) tr sys ->
  (forall i, points sys !! i = Some PublishDone -> quiescent_before worker_amount tr) /\
  (published tr = true -> quiescent_before worker_amount tr).
Proof.
  intros HW Hex. remember (initial worker_amount) as sys0 eqn:H0.
  induction Hex as [sys | sys tr sys' le sys'' Hex IH Hstep]; subst.
  - split; [| discriminate].
    intros i Hi. cbn [initial points] in Hi. apply lookup_replicate in Hi.
    destruct Hi; discriminate.
  - destruct (IH eq_refl) as [IH1 IH2]. clear IH.
    pose proof (execution_step _ _ _ _ _ _ Hex Hstep) as Hex'.
    destruct (execution_counters worker_amount _ _ HW Hex') as (Hlen & Hact & _).
    destruct Hstep as [sys' j e pt pt' s' Hj Hw]. split.
    + intros i Hi. cbn [points] in Hi.
      destruct (Nat.eq_dec j i) as [-> | Hne].
      * rewrite list_lookup_insert_eq in Hi by (eapply lookup_lt_Some; eassumption).
        injection Hi as ->.
        exists (tr ++ [(i, e)]), [], (mkSystem s' (<[i := PublishDone]> (points sys'))).
        split; [rewrite app_nil_r; reflexivity |]. split; [exact Hex' |].
        assert (Hz : active_amount s' = 0).
        { inversion Hw; subst. cbn [active_amount].
          match goal with H : active_amount _ = 1 |- _ => rewrite H end. reflexivity. }
        split; [exact Hz |].
        apply count_all. cbn [atomics points] in Hact, Hlen |- *.
        rewrite Hz in Hact. lia.
      * rewrite list_lookup_insert_ne in Hi by assumption.
        apply quiescent_later. eapply IH1. exact Hi.
    + rewrite published_snoc. intros Hp. apply quiescent_later.
      destruct (published tr) eqn:Hpt; [apply IH2; reflexivity |].
      cbn [orb] in Hp. apply (IH1 j).
      inversion Hw; subst; try discriminate Hp. exact Hj.
Qed.

(** X17. The all-done value is stored only after a moment at which
    [active_amount] was 0 and every worker had deactivated itself, that is,
    had seen every worker stealing and had not gone back to stealing since. *)
Theorem all_done_needs_quiescence worker_amount tr sys :
  1 <= worker_amount <= uint32_max ->
  execution worker_amount (initial worker_amount) tr sys ->
  published tr = true ->
  exists tr1 tr2 sys1,
    tr = tr1 ++ tr2 /\
    execution worker_amount (initial worker_amount) tr1 sys1 /\
    active_amount (atomics sys1) = 0 /\
    Forall (fun pt => deactivated pt = true) (points sys1).
Proof.
  intros HW Hex Hp.
  exact (proj2 (execution_quiescent worker_amount tr sys HW Hex) Hp).
Qed.

Lemma all_done_needs_quiescence_witness :
  exists tr1 tr2 sys1,
    lone_worker_trace = tr1 ++ tr2 /\
    execution 1 (initial 1) tr1 sys1 /\
    active_amount (atomics sys1) = 0 /\
    Forall (fun pt => deactivated pt = true) (points sys1).
Proof.
  apply (all_done_needs_quiescence 1 lone_worker_trace (mkSystem (mkShared 2 0) [Returned])).
  - unfold uint32_max. lia.
  - exact lone_worker_execution.
  - reflexivity.
Defined.

End ActivityFacts.

(** ** How the root jobs are divided among the workers *)

Section RootJobsFacts.
Import JobGraph RootJobs.

Lemma filter_seq_none (P : nat -> bool) first amount :
  (forall j, (first <= j < first + amount)%nat -> P j = false) ->
  List.filter P (seq first amount) = [].
Proof.
  revert first. induction amount as [| amount IH]; intros first HP; [reflexivity |].
  cbn [seq List.filter]. rewrite HP by lia. apply IH. intros j Hj. apply HP. lia.
Qed.

(** From a position of the worker's residue class, the next one is
    [worker_amount] further. *)
Lemma positions_from_stride R W index i :
  1 <= W -> Z.of_nat i mod W = index -> (i < R)%nat ->
  positions_from i (R - i) W index =
    i :: positions_from (i + Z.to_nat W) (R - (i + Z.to_nat W)) W index.
Proof.
  intros HW Hi HR. unfold positions_from.
  set (P := fun j : nat => Z.of_nat j mod W =? index).
  set (gap := Nat.min (Z.to_nat W - 1) (R - i - 1)).
  replace (R - i)%nat with (1 + (gap + (R - (i + Z.to_nat W))))%nat by (unfold gap; lia).
  rewrite seq_app, List.filter_app. cbn [seq List.filter].
  replace (P i) with true by (symmetry; apply Z.eqb_eq; exact Hi).
  cbn [app]. f_equal.
  rewrite seq_app, List.filter_app, filter_seq_none.
  - cbn [app]. destruct (Nat.le_gt_cases (i + Z.to_nat W) R) as [Hle | Hgt].
    + replace (i + 1 + gap)%nat with (i + Z.to_nat W)%nat by (unfold gap; lia). reflexivity.
    + replace (R - (i + Z.to_nat W))%nat with 0%nat by lia. reflexivity.
  - intros j Hj. apply Z.eqb_neq. intros Hjm. subst index.
    assert (Hd : (Z.of_nat j - Z.of_nat i) mod W = 0).
    { rewrite Zminus_mod, Hjm, Z.sub_diag. apply Z.mod_0_l. lia. }
    apply Z.mod_divide in Hd; [| lia]. destruct Hd as [k Hk].
    assert (Hr : 0 < Z.of_nat j - Z.of_nat i < W) by (unfold gap in Hj; lia).
    rewrite Hk in Hr. destruct Hr as [Hr1 Hr2].
    assert (Hk1 : 0 < k) by nia. nia.
Qed.

Lemma run_root_jobs_from functions g W index :
  1 <= W -> 0 <= index < W ->
  Z.of_nat (List.length (root_nodes g)) + W <= uint32_max + 1 ->
  forall n i fuel w,
    (List.length (root_nodes g) - i <= n)%nat -> (n < fuel)%nat ->
    Z.of_nat i mod W = index ->
    (i < List.length (root_nodes g) + Z.to_nat W)%nat ->
    run_root_jobs fuel functions g W (Z.of_nat i) w =
      run_each functions
        ((fun j => JobGraphNode.get_root_job (root_nodes g !!! j))
           <$> positions_from i (List.length (root_nodes g) - i) W index) w.
Proof.
  intros HW Hindex HR. set (R := List.length (root_nodes g)) in *.
  induction n as [| n IH]; intros i fuel w Hn Hfuel Hi HiR;
    (destruct fuel as [| fuel]; [lia |]); cbn [run_root_jobs]; unfold get_root_job; fold R.
  - destruct (Z.geb_spec (Z.of_nat i) (Z.of_nat R)) as [_ | Hlt]; [| lia].
    replace (R - i)%nat with 0%nat by lia. reflexivity.
  - destruct (Z.geb_spec (Z.of_nat i) (Z.of_nat R)) as [Hge | Hlt].
    + replace (R - i)%nat with 0%nat by lia. reflexivity.
    + rewrite Nat2Z.id.
      destruct (lookup_lt_is_Some_2 (root_nodes g) i ltac:(fold R; lia)) as [p Hp].
      rewrite Hp. cbn [fmap option_fmap option_map].
      rewrite (positions_from_stride R W index i HW Hi ltac:(lia)).
      rewrite fmap_cons. cbn [run_each].
      rewrite (list_lookup_total_correct _ _ _ Hp).
      destruct (load_job (JobGraphNode.get_root_job p) w) as [j | e];
        cbn [mbind result_bind]; [| reflexivity].
      destruct (Job_run functions j w) as [w1 | e]; cbn [mbind result_bind]; [| reflexivity].
      rewrite wrap_u32_id by (unfold uint32_max in *; lia).
      replace (Z.of_nat i + W) with (Z.of_nat (i + Z.to_nat W)) by lia.
      apply IH; [lia | lia | | lia].
      rewrite Nat2Z.inj_add, Z2Nat.id by lia.
      rewrite <- Hi. rewrite <- (Z.mul_1_l W) at 1. apply Z.mod_add. lia.
Qed.

(** X18. With [worker_amount] workers and at most [2^32 - worker_amount]
    root nodes, the first loop of [run_worker] ends and runs, in increasing
    order of position, exactly the root jobs whose position in [root_nodes] is
    congruent to the worker's index modulo [worker_amount]: every root job is
    in the share of one worker, the one of index [position mod worker_amount]. *)
Theorem root_jobs_divided functions g worker_amount index w :
  1 <= worker_amount -> 0 <= index < worker_amount ->
  Z.of_nat (List.length (root_nodes g)) + worker_amount <= uint32_max + 1 ->
  run_root_jobs (S (List.length (root_nodes g))) functions g worker_amount index w =
    run_each functions (share g worker_amount index) w /\
  (forall j, In j (positions g worker_amount index) <->
     (j < List.length (root_nodes g))%nat /\ Z.of_nat j mod worker_amount = index) /\
  NoDup (positions g worker_amount index).
Proof.
  intros HW Hindex HR. split; [| split].
  - unfold share, positions.
    rewrite <- (Z2Nat.id index) at 1 by lia.
    rewrite (run_root_jobs_from functions g worker_amount index HW Hindex HR
               (List.length (root_nodes g)) (Z.to_nat index)); try lia.
    + destruct (Nat.le_gt_cases (List.length (root_nodes g)) (Z.to_nat index)) as [Hge | Hlt].
      * replace (List.length (root_nodes g) - Z.to_nat index)%nat with 0%nat by lia.
        unfold positions_from at 1. cbn [seq List.filter fmap list_fmap].
        unfold positions_from. rewrite filter_seq_none; [reflexivity |].
        intros j Hj. apply Z.eqb_neq. rewrite Z.mod_small by lia. lia.
      * f_equal. f_equal. unfold positions_from.
        replace (List.length (root_nodes g))
          with (Z.to_nat index + (List.length (root_nodes g) - Z.to_nat index))%nat at 2 by lia.
        rewrite seq_app, List.filter_app.
        rewrite (filter_seq_none _ 0 (Z.to_nat index)); [reflexivity |].
        intros j Hj. apply Z.eqb_neq. rewrite Z.mod_small by lia. lia.
    + rewrite Z2Nat.id by lia. apply Z.mod_small. lia.
  - intros j. unfold positions, positions_from. rewrite filter_In, in_seq, Z.eqb_eq.
    split; intros [H1 H2]; (split; [lia | exact H2]).
  - unfold positions, positions_from. apply NoDup_ListNoDup, List.NoDup_filter, seq_NoDup.
Qed.

Lemma root_jobs_divided_witness :
  run_root_jobs 2 (fun _ _ _ w => Ok w) chain_graph 2 0 fresh_worker =
    run_each (fun _ _ _ w => Ok w) [RootJobOf 0] fresh_worker /\
  run_root_jobs 2 (fun _ _ _ w => Ok w) chain_graph 2 1 fresh_worker = Ok fresh_worker.
Proof.
  split.
  - apply (root_jobs_divided (fun _ _ _ w => Ok w) chain_graph 2 0 fresh_worker);
      [lia | lia | vm_compute; discriminate].
  - apply (root_jobs_divided (fun _ _ _ w => Ok w) chain_graph 2 1 fresh_worker);
      [lia | lia | vm_compute; discriminate].
Defined.

End RootJobsFacts.

(** ** No job slot is handed out twice *)

Section PoolFacts.
Import Pool.

Lemma owns_insert p i a' ca' j c n a :
  allocators p !! i = Some a ->
  owns (mk (<[i := a']> (allocators p)) ca') j c n <->
    (j = i /\ JobAllocator.chunk a' = Some c /\ JobAllocator.next_index a' = n) \/
    (j <> i /\ owns p j c n).
Proof.
  intros Hi. unfold owns. cbn [allocators]. split.
  - intros (b & Hb & Hc & Hn). destruct (Nat.eq_dec j i) as [-> | Hne].
    + rewrite list_lookup_insert_eq in Hb by (eapply lookup_lt_Some; eassumption).
      injection Hb as <-. left. auto.
    + rewrite list_lookup_insert_ne in Hb by congruence. right. eauto.
  - intros [(-> & Hc & Hn) | (Hne & b & Hb & Hc & Hn)].
    + exists a'. rewrite list_lookup_insert_eq by (eapply lookup_lt_Some; eassumption). auto.
    + exists b. rewrite list_lookup_insert_ne by congruence. auto.
Qed.

(** One call keeps the invariant and adds the job it returns. *)
Lemma allocate_by_invariant i p out :
  invariant p out ->
  (i < List.length (allocators p))%nat ->
  JobChunkAllocator.next_index (chunk_allocator p) < uint32_max ->
  exists job p',
    allocate_by i p = Ok (job, p') /\
    invariant p' (match job with Some r => r :: out | None => out end) /\
    List.length (allocators p') = List.length (allocators p) /\
    JobChunkAllocator.chunks (chunk_allocator p') = JobChunkAllocator.chunks (chunk_allocator p) /\
    JobChunkAllocator.next_index (chunk_allocator p')
      <= JobChunkAllocator.next_index (chunk_allocator p) + 1.
Proof.
  intros (HN & Hown & Huniq & Hout & Hnd) Hi HNlt.
  destruct (lookup_lt_is_Some_2 _ _ Hi) as [a Ha].
  unfold allocate_by. rewrite Ha.
  destruct a as [[c |] n]; unfold JobAllocator.allocate; cbn [JobAllocator.chunk].
  - (* the worker holds a chunk *)
    assert (Ho : owns p i c n) by (exists (JobAllocator.mk (Some c) n); auto).
    destruct (Hown i c n Ho) as (HcN & HcC & Hn).
    unfold JobAllocator.take_slot. cbn [JobAllocator.chunk JobAllocator.next_index].
    rewrite wrap_u32_id by (unfold allocation_chunk_size, uint32_max in *; lia).
    set (a' := if n + 1 =? allocation_chunk_size
               then JobAllocator.mk None (n + 1) else JobAllocator.mk (Some c) (n + 1)).
    exists (Some (ChunkJob c (Z.to_nat n))), (mk (<[i := a']> (allocators p)) (chunk_allocator p)).
    split.
    { unfold a'. destruct (n + 1 =? allocation_chunk_size); reflexivity. }
    assert (Ha' : forall c' n', JobAllocator.chunk a' = Some c' ->
                    JobAllocator.next_index a' = n' ->
                    c' = c /\ n' = n + 1 /\ n + 1 < allocation_chunk_size).
    { intros c' n'. unfold a'.
      destruct (Z.eqb_spec (n + 1) allocation_chunk_size);
        cbn [JobAllocator.chunk JobAllocator.next_index]; [discriminate |].
      intros [= <-] <-. split; [reflexivity |]. split; [reflexivity | lia]. }
    cbn [allocators chunk_allocator]. rewrite length_insert.
    split; [| split; [reflexivity | split; [reflexivity | lia]]].
    unfold invariant. cbn [chunk_allocator].
    split; [exact HN |]. split; [| split; [| split]].
    + intros j c' n' Hj. apply (owns_insert p i a' _ j c' n' _ Ha) in Hj.
      destruct Hj as [(-> & Hc' & Hn') | (Hne & Hj)]; [| exact (Hown j c' n' Hj)].
      destruct (Ha' c' n' Hc' Hn') as (-> & -> & Hlt). split; [exact HcN |].
      split; [exact HcC | lia].
    + intros j1 j2 c' n1 n2 H1 H2.
      apply (owns_insert p i a' _ j1 c' n1 _ Ha) in H1.
      apply (owns_insert p i a' _ j2 c' n2 _ Ha) in H2.
      destruct H1 as [(-> & Hc1 & Hn1) | (Hne1 & H1)];
        destruct H2 as [(-> & Hc2 & Hn2) | (Hne2 & H2)].
      * reflexivity.
      * destruct (Ha' c' n1 Hc1 Hn1) as (-> & _). exfalso. apply Hne2.
        exact (Huniq _ _ _ _ _ H2 Ho).
      * destruct (Ha' c' n2 Hc2 Hn2) as (-> & _). exfalso. apply Hne1.
        exact (Huniq _ _ _ _ _ H1 Ho).
      * exact (Huniq _ _ _ _ _ H1 H2).
    + intros job [<- | Hin].
      * exists c, (Z.to_nat n). split; [reflexivity |]. split; [exact HcN |].
        split; [exact HcC |]. split; [lia |].
        intros j n' Hj. apply (owns_insert p i a' _ j c n' _ Ha) in Hj.
        destruct Hj as [(-> & Hc' & Hn') | (Hne & Hj)].
        -- destruct (Ha' c n' Hc' Hn') as (_ & -> & _). lia.
        -- exfalso. apply Hne. exact (Huniq _ _ _ _ _ Hj Ho).
      * destruct (Hout job Hin) as (c1 & s1 & -> & H1 & H2 & H3 & H4).
        exists c1, s1. split; [reflexivity |]. split; [exact H1 |]. split; [exact H2 |].
        split; [exact H3 |].
        intros j n' Hj. apply (owns_insert p i a' _ j c1 n' _ Ha) in Hj.
        destruct Hj as [(-> & Hc' & Hn') | (Hne & Hj)]; [| exact (H4 j n' Hj)].
        destruct (Ha' c1 n' Hc' Hn') as (-> & -> & _).
        specialize (H4 i n Ho). lia.
    + constructor; [| exact Hnd].
      intros Hin. apply list_elem_of_In in Hin.
      destruct (Hout _ Hin) as (c1 & s1 & [= <- <-] & _ & _ & _ & H4).
      specialize (H4 i n Ho). lia.
  - (* the worker asks for a chunk *)
    unfold JobChunkAllocator.allocate, JobChunkAllocator.fetch_add_next_index.
    set (N := JobChunkAllocator.next_index (chunk_allocator p)) in *.
    set (C := List.length (JobChunkAllocator.chunks (chunk_allocator p))) in *.
    unfold JobChunkAllocator.size_max.
    destruct (Z.ltb_spec N uint32_max) as [_ | ?]; [| lia].
    cbn [assert mbind result_bind JobChunkAllocator.set_next_index JobChunkAllocator.chunks].
    rewrite wrap_u32_id by lia. fold C.
    destruct (Z.geb_spec N (Z.of_nat C)) as [Hge | Hlt]; cbn [mbind result_bind].
    + (* no chunk left *)
      exists None, (mk (<[i := JobAllocator.mk None n]> (allocators p))
                      (JobChunkAllocator.mk (JobChunkAllocator.chunks (chunk_allocator p)) (N + 1))).
      split; [reflexivity |].
      cbn [allocators chunk_allocator JobChunkAllocator.chunks JobChunkAllocator.next_index].
      rewrite length_insert.
      split; [| split; [reflexivity | split; [reflexivity | lia]]].
      unfold invariant.
      cbn [chunk_allocator JobChunkAllocator.chunks JobChunkAllocator.next_index]. fold C.
      split; [lia |]. split; [| split; [| split]].
      * intros j c' n' Hj. apply (owns_insert p i _ _ j c' n' _ Ha) in Hj.
        destruct Hj as [(_ & Hc' & _) | (Hne & Hj)]; [discriminate Hc' |].
        destruct (Hown j c' n' Hj) as (? & ? & ?). fold N in H. lia.
      * intros j1 j2 c' n1 n2 H1 H2.
        apply (owns_insert p i _ _ j1 c' n1 _ Ha) in H1.
        apply (owns_insert p i _ _ j2 c' n2 _ Ha) in H2.
        destruct H1 as [(_ & Hc1 & _) | (_ & H1)]; [discriminate Hc1 |].
        destruct H2 as [(_ & Hc2 & _) | (_ & H2)]; [discriminate Hc2 |].
        exact (Huniq _ _ _ _ _ H1 H2).
      * intros job Hin. destruct (Hout job Hin) as (c1 & s1 & -> & H1 & H2 & H3 & H4).
        exists c1, s1. split; [reflexivity |]. split; [lia |]. split; [exact H2 |].
        split; [exact H3 |].
        intros j n' Hj. apply (owns_insert p i _ _ j c1 n' _ Ha) in Hj.
        destruct Hj as [(_ & Hc' & _) | (_ & Hj)]; [discriminate Hc' | exact (H4 j n' Hj)].
      * exact Hnd.
    + (* a new chunk *)
      unfold JobAllocator.take_slot. cbn [JobAllocator.chunk JobAllocator.next_index].
      change (wrap_u32 (0 + 1) =? allocation_chunk_size) with false.
      change (wrap_u32 (0 + 1)) with 1. change (Z.to_nat 0) with 0%nat.
      cbn [mbind result_bind].
      exists (Some (ChunkJob (Z.to_nat N) 0)),
        (mk (<[i := JobAllocator.mk (Some (Z.to_nat N)) 1]> (allocators p))
            (JobChunkAllocator.mk (JobChunkAllocator.chunks (chunk_allocator p)) (N + 1))).
      split; [reflexivity |].
      cbn [allocators chunk_allocator JobChunkAllocator.chunks JobChunkAllocator.next_index].
      rewrite length_insert.
      split; [| split; [reflexivity | split; [reflexivity | lia]]].
      unfold invariant.
      cbn [chunk_allocator JobChunkAllocator.chunks JobChunkAllocator.next_index]. fold C.
      assert (Hold : forall j c' n', owns p j c' n' -> Z.of_nat c' < N).
      { intros j c' n' Hj. destruct (Hown j c' n' Hj) as (? & _). assumption. }
      split; [lia |]. split; [| split; [| split]].
      * intros j c' n' Hj. apply (owns_insert p i _ _ j c' n' _ Ha) in Hj.
        destruct Hj as [(_ & Hc' & Hn') | (Hne & Hj)].
        -- cbn in Hc', Hn'. injection Hc' as <-. subst n'.
           unfold allocation_chunk_size. lia.
        -- destruct (Hown j c' n' Hj) as (? & ? & ?). fold N in H. lia.
      * intros j1 j2 c' n1 n2 H1 H2.
        apply (owns_insert p i _ _ j1 c' n1 _ Ha) in H1.
        apply (owns_insert p i _ _ j2 c' n2 _ Ha) in H2.
        destruct H1 as [(-> & Hc1 & _) | (Hne1 & H1)];
          destruct H2 as [(-> & Hc2 & _) | (Hne2 & H2)].
        -- reflexivity.
        -- cbn in Hc1. injection Hc1 as <-. specialize (Hold _ _ _ H2). lia.
        -- cbn in Hc2. injection Hc2 as <-. specialize (Hold _ _ _ H1). lia.
        -- exact (Huniq _ _ _ _ _ H1 H2).
      * intros job [<- | Hin].
        -- exists (Z.to_nat N), 0%nat. split; [reflexivity |]. split; [lia |].
           split; [lia |]. split; [unfold allocation_chunk_size; lia |].
           intros j n' Hj. apply (owns_insert p i _ _ j _ n' _ Ha) in Hj.
           destruct Hj as [(_ & _ & Hn') | (_ & Hj)].
           ++ cbn in Hn'. lia.
           ++ specialize (Hold _ _ _ Hj). lia.
        -- destruct (Hout job Hin) as (c1 & s1 & -> & H1 & H2 & H3 & H4).
           exists c1, s1. split; [reflexivity |]. fold N in H1. split; [lia |].
           split; [exact H2 |]. split; [exact H3 |].
           intros j n' Hj. apply (owns_insert p i _ _ j c1 n' _ Ha) in Hj.
           destruct Hj as [(_ & Hc' & _) | (_ & Hj)]; [| exact (H4 j n' Hj)].
           cbn in Hc'. injection Hc' as <-. lia.
      * constructor; [| exact Hnd].
        intros Hin. apply list_elem_of_In in Hin.
        destruct (Hout _ Hin) as (c1 & s1 & [= <- <-] & H1 & _).
        fold N in H1. lia.
Qed.

Lemma allocations_invariant callers :
  forall p out,
    invariant p out ->
    Forall (fun i => (i < List.length (allocators p))%nat) callers ->
    JobChunkAllocator.next_index (chunk_allocator p) + Z.of_nat (List.length callers)
      <= uint32_max ->
    exists jobs p',
      allocations callers p = Ok (jobs, p') /\
      invariant p' (rev (non_null_jobs jobs) ++ out) /\
      JobChunkAllocator.chunks (chunk_allocator p') = JobChunkAllocator.chunks (chunk_allocator p).
Proof.
  induction callers as [| i callers IH]; intros p out Hinv Hc Hn.
  - exists [], p. split; [reflexivity |]. split; [exact Hinv | reflexivity].
  - apply Forall_cons in Hc as [Hi Hc]. cbn [List.length] in Hn.
    destruct (allocate_by_invariant i p out Hinv Hi ltac:(lia))
      as (job & p1 & H1 & Hinv1 & Hlen1 & Hch1 & Hn1).
    destruct (IH p1 _ Hinv1) as (jobs & p' & H2 & Hinv2 & Hch2).
    + rewrite Hlen1. exact Hc.
    + lia.
    + exists (job :: jobs), p'. cbn [allocations]. rewrite H1. cbn [mbind result_bind].
      rewrite H2. cbn [mbind result_bind]. split; [reflexivity |].
      split; [| congruence].
      unfold non_null_jobs in *. destruct job as [r |]; cbn [omap list_omap id].
      * cbn [rev]. rewrite <- app_assoc. exact Hinv2.
      * exact Hinv2.
Qed.

(** X19. From the state at the start of a run, in whatever order the workers
    call [allocate], every call returns (for at most [2^32 - 1] calls), the
    pointers that are not null are pairwise distinct, and each is a slot of one
    of the chunks: no job slot is handed out twice. *)
Theorem allocations_distinct callers p :
  fresh p ->
  Forall (fun i => (i < List.length (allocators p))%nat) callers ->
  Z.of_nat (List.length callers) <= uint32_max ->
  exists jobs p',
    allocations callers p = Ok (jobs, p') /\
    NoDup (non_null_jobs jobs) /\
    Forall (fun job => exists c s, job = ChunkJob c s /\
              (c < List.length (JobChunkAllocator.chunks (chunk_allocator p)))%nat /\
              Z.of_nat s < allocation_chunk_size)
           (non_null_jobs jobs).
Proof.
  intros [Hfresh HN] Hc Hlen.
  destruct (allocations_invariant callers p []) as (jobs & p' & Ha & Hinv & Hch).
  - unfold invariant. rewrite HN. split; [unfold uint32_max; lia |].
    assert (Hno : forall i c n, ~ owns p i c n).
    { intros i c n (a & Ha & Hc' & _).
      rewrite (Forall_lookup_1 _ _ _ _ Hfresh Ha) in Hc'. discriminate. }
    split; [intros i c n Ho; destruct (Hno _ _ _ Ho) |].
    split; [intros i j c n n' Ho; destruct (Hno _ _ _ Ho) |].
    split; [intros job [] | constructor].
  - exact Hc.
  - rewrite HN. lia.
  - exists jobs, p'. split; [exact Ha |].
    destruct Hinv as (_ & _ & _ & Hout & Hnd). rewrite app_nil_r in Hout, Hnd.
    split.
    + apply NoDup_ListNoDup. apply NoDup_ListNoDup, List.NoDup_rev in Hnd.
      rewrite rev_involutive in Hnd. exact Hnd.
    + apply Forall_forall. intros job Hin.
      destruct (Hout job) as (c & s & -> & _ & HcC & Hs & _).
      * apply in_rev. rewrite rev_involutive. apply list_elem_of_In. exact Hin.
      * exists c, s. rewrite <- Hch. auto.
Qed.

Lemma allocations_distinct_witness :
  exists jobs p',
    allocations [0%nat; 1%nat; 0%nat] two_worker_pool = Ok (jobs, p') /\
    NoDup (non_null_jobs jobs).
Proof.
  destruct (allocations_distinct [0%nat; 1%nat; 0%nat] two_worker_pool)
    as (jobs & p' & Ha & Hnd & _).
  - split; [repeat constructor | reflexivity].
  - repeat constructor.
  - cbn. unfold uint32_max. lia.
  - exists jobs, p'. split; [exact Ha | exact Hnd].
Defined.

End PoolFacts.

(** ** One worker running a whole graph *)
Section FiredFacts.
Import JobGraphNode JobGraph Degree Run.

Lemma successors_of_app_l m l u :
  (u < List.length m)%nat -> successors_of (m ++ l) u = successors_of m u.
Proof. intros Hu. unfold successors_of. rewrite lookup_app_l by exact Hu. reflexivity. Qed.

Lemma in_degree_seq m v :
  in_degree m v =
    sum_list_with (fun u => count_occ Nat.eq_dec (successors_of m u) v)
      (seq 0 (List.length m)).
Proof.
  induction m as [| x m IH] using rev_ind; [reflexivity |].
  rewrite length_app, Nat.add_comm. cbn [List.length Nat.add]. rewrite seq_S.
  rewrite sum_list_with_app. unfold in_degree in *. rewrite sum_list_with_app, IH.
  f_equal.
  - clear IH. assert (H : forall u, In u (seq 0 (List.length m)) -> (u < List.length m)%nat).
    { intros u Hu. apply in_seq in Hu. lia. }
    induction (seq 0 (List.length m)) as [| u l IHl]; [reflexivity |].
    cbn [sum_list_with]. rewrite successors_of_app_l by (apply H; left; reflexivity).
    rewrite IHl; [reflexivity |]. intros u' Hu'. apply H. right. exact Hu'.
  - cbn [sum_list_with Nat.add]. unfold successors_of.
    rewrite lookup_app_r by lia. rewrite Nat.sub_diag. cbn. lia.
Qed.

(** The nodes that are not in [done]. *)
Lemma seq_split_done (m : list JobGraphNode.t) done :
  NoDup done -> Forall (fun u => (u < List.length m)%nat) done ->
  exists rest,
    seq 0 (List.length m) ≡ₚ done ++ rest /\
    forall u, u ∈ rest -> u ∉ done.
Proof.
  intros Hnd Hlt.
  assert (Hsub : done ⊆+ seq 0 (List.length m)).
  { apply NoDup_submseteq; [exact Hnd |]. intros u Hu.
    rewrite Forall_forall in Hlt. apply Hlt in Hu.
    apply list_elem_of_In, in_seq. lia. }
  apply submseteq_Permutation in Hsub. destruct Hsub as [rest Hp].
  exists rest. split; [exact Hp |].
  intros u Hu Hd.
  assert (Hnd' : NoDup (done ++ rest)).
  { rewrite <- Hp. apply NoDup_ListNoDup, seq_NoDup. }
  apply NoDup_app in Hnd'. destruct Hnd' as (_ & Hdis & _). exact (Hdis u Hd Hu).
Qed.

Lemma fired_le m done v :
  NoDup done -> Forall (fun u => (u < List.length m)%nat) done ->
  (fired m done v <= in_degree m v)%nat.
Proof.
  intros Hnd Hlt. destruct (seq_split_done m done Hnd Hlt) as (rest & Hp & _).
  rewrite in_degree_seq, Hp, sum_list_with_app. unfold fired. lia.
Qed.

Lemma fired_all m done v :
  NoDup done -> Forall (fun u => (u < List.length m)%nat) done ->
  (forall u, edge m u v -> u ∈ done) ->
  fired m done v = in_degree m v.
Proof.
  intros Hnd Hlt Hall. destruct (seq_split_done m done Hnd Hlt) as (rest & Hp & Hrest).
  rewrite in_degree_seq, Hp, sum_list_with_app. unfold fired.
  assert (Hz : sum_list_with (fun u => count_occ Nat.eq_dec (successors_of m u) v) rest = 0%nat).
  { clear Hp. induction rest as [| u rest IH]; [reflexivity |].
    cbn [sum_list_with]. rewrite IH by (intros u' Hu'; apply Hrest; right; exact Hu').
    assert (Hc : count_occ Nat.eq_dec (successors_of m u) v = 0%nat).
    { apply count_occ_not_In. intros Hin. apply (Hrest u); [left |].
      apply Hall. unfold successors_of in Hin.
      destruct (m !! u) as [n |] eqn:Hu; [| destruct Hin]. exists n. auto. }
    rewrite Hc. reflexivity. }
  rewrite Hz. lia.
Qed.

Lemma fired_all_inv m done v u :
  NoDup done -> Forall (fun u => (u < List.length m)%nat) done ->
  fired m done v = in_degree m v -> edge m u v -> u ∈ done.
Proof.
  intros Hnd Hlt Heq (n & Hu & Hin).
  destruct (seq_split_done m done Hnd Hlt) as (rest & Hp & Hrest).
  rewrite in_degree_seq, Hp, sum_list_with_app in Heq. unfold fired in Heq.
  assert (Hmem : u ∈ done ++ rest).
  { rewrite <- Hp. apply list_elem_of_In, in_seq. apply lookup_lt_Some in Hu. lia. }
  apply elem_of_app in Hmem. destruct Hmem as [Hd | Hr]; [exact Hd | exfalso].
  pose proof (sum_list_with_in u (fun u => count_occ Nat.eq_dec (successors_of m u) v) rest Hr)
    as Hle.
  cbn beta in Hle.
  assert (Hc : (0 < count_occ Nat.eq_dec (successors_of m u) v)%nat).
  { apply count_occ_In. unfold successors_of. rewrite Hu. exact Hin. }
  lia.
Qed.

Lemma fired_snoc m done p v :
  fired m (done ++ [p]) v =
    (fired m done v + count_occ Nat.eq_dec (successors_of m p) v)%nat.
Proof. unfold fired. rewrite sum_list_with_app. cbn. lia. Qed.

End FiredFacts.

Section RunHelpers.
Import JobQueue.

Lemma push_bottom job q q' :
  valid q -> bottom q < size_max -> push job q = Ok (true, q') ->
  bottom q' = bottom q + 1.
Proof.
  intros Hv Hb Hp. rewrite (push_eq job q Hv Hb) in Hp.
  destruct (length q =? queue_capacity); [discriminate |].
  injection Hp as <-. reflexivity.
Qed.

Lemma pop_bottom_le q : valid q -> bottom (snd (pop q)) <= bottom q.
Proof.
  intros Hv. pose proof Hv as (_ & _ & Htb & _). unfold pop.
  destruct (Z.lt_trichotomy (length q) 1) as [Hl | [Hl | Hl]].
  - rewrite pop_with_empty by (unfold length in Hl; assumption || lia). cbn. lia.
  - rewrite (pop_with_last _ q Hv Hl). rewrite Z.eqb_refl. cbn. lia.
  - rewrite (pop_with_many _ q Hv Hl). cbn. lia.
Qed.

Lemma NoDup_length_bound (l : list nat) n :
  NoDup l -> Forall (fun v => (v < n)%nat) l -> (List.length l <= n)%nat.
Proof.
  intros Hnd Hlt.
  assert (Hsub : l ⊆+ seq 0 n).
  { apply NoDup_submseteq; [exact Hnd |]. intros u Hu.
    rewrite Forall_forall in Hlt. apply Hlt in Hu. apply list_elem_of_In, in_seq. lia. }
  apply submseteq_length in Hsub. rewrite length_seq in Hsub. exact Hsub.
Qed.

End RunHelpers.

Section CompletionStep.
Import JobGraphNode JobGraph JobQueue Deque Degree Run.

Variables (g_this : nat) (m0 : list JobGraphNode.t) (b0 : Z).
Hypothesis Hrun : runnable g_this m0.
Hypothesis Hb0 : b0 + Z.of_nat (List.length m0) <= JobQueue.size_max.

Lemma successors_of_lookup v n0 : m0 !! v = Some n0 -> successors_of m0 v = successors n0.
Proof. intros H. unfold successors_of. rewrite H. reflexivity. Qed.

(** One round of the loop of [job_completed]. *)
Lemma fire_successors_mid p n0p done :
  m0 !! p = Some n0p -> p ∉ done ->
  NoDup done -> Forall (fun v => (v < List.length m0)%nat) done ->
  (forall pre v post, done = pre ++ v :: post -> forall u, edge m0 u v -> u ∈ pre) ->
  forall rest visited m q queued,
    successors n0p = visited ++ rest ->
    mid_ok m0 b0 p done visited m q queued ->
    exists m' q' queued',
      fire_successors rest m q = Ok (m', q') /\
      mid_ok m0 b0 p done (successors n0p) m' q' queued'.
Proof.
  intros Hp Hpd Hnd Hlt Hord.
  induction rest as [| s rest IH]; intros visited m q queued Hsplit Hmid.
  - rewrite app_nil_r in Hsplit. subst visited.
    exists m, q, queued. split; [reflexivity | exact Hmid].
  - destruct Hmid as [Hlen Har Hbd Hct Hbt Hndq Hrg Hqd Hcp].
    pose proof (run_topological _ _ Hrun p n0p Hp) as Htop.
    rewrite Hsplit in Htop. apply Forall_app in Htop as [_ Htop].
    apply Forall_cons in Htop as [Hs _].
    destruct (lookup_lt_is_Some_2 m0 s ltac:(lia)) as [n0s Hn0s].
    assert (Hsp : s <> p) by lia.
    assert (Hsd : s ∉ done).
    { intros Hin. apply list_elem_of_split in Hin. destruct Hin as (pre & post & Heq).
      apply Hpd. rewrite Heq. apply elem_of_app. left.
      apply (Hord pre s post Heq p). exists n0p. split; [exact Hp |].
      rewrite Hsplit. apply in_or_app. right. left. reflexivity. }
    pose proof (Har s n0s Hn0s) as Hms.
    destruct (decide (s = p)) as [? | _]; [contradiction |].
    unfold pending in Hms. destruct (decide (s ∈ done)) as [? | _]; [contradiction |].
    destruct (run_counters _ _ Hrun s n0s Hn0s) as (Hinit & _).
    set (old := initial_predecessor_amount n0s - Z.of_nat (fired m0 done s)
                - Z.of_nat (count_occ Nat.eq_dec visited s)) in *.
    assert (Hfl : (fired m0 (done ++ [p]) s <= in_degree m0 s)%nat).
    { apply fired_le.
      - apply NoDup_app. split; [exact Hnd |]. split; [| apply NoDup_singleton].
        intros x Hx Hx'. apply list_elem_of_singleton in Hx'. subst x. contradiction.
      - apply Forall_app. split; [exact Hlt |]. constructor; [| constructor].
        eapply lookup_lt_Some; eassumption. }
    rewrite fired_snoc, (successors_of_lookup p n0p Hp), Hsplit, count_occ_app in Hfl.
    cbn [count_occ] in Hfl. destruct (Nat.eq_dec s s) as [_ | ?]; [| congruence].
    assert (Hold : 1 <= old <= uint32_max).
    { pose proof (run_degree _ _ Hrun s). unfold old. lia. }
    cbn [fire_successors]. unfold deref. rewrite Hms. cbn [mbind result_bind].
    cbn [predecessor_amount set_predecessor_amount].
    destruct (Z.gtb_spec old 0) as [_ | ?]; [| lia].
    cbn [assert mbind result_bind].
    rewrite wrap_u32_id by lia.
    set (m1 := <[s := _]> m).
    assert (Hlen1 : List.length m1 = List.length m0).
    { unfold m1. rewrite length_insert. exact Hlen. }
    assert (Har1 : forall v n0, m0 !! v = Some n0 ->
              m1 !! v = Some (if decide (v = p)
                   then set_unfinished_amount
                          (set_predecessor_amount n0 (pending m0 done [] v n0)) 0
                   else set_predecessor_amount n0 (pending m0 done (visited ++ [s]) v n0))).
    { intros v n0 Hv. unfold m1. destruct (Nat.eq_dec v s) as [-> | Hne].
      - rewrite list_lookup_insert_eq by (rewrite Hlen; eapply lookup_lt_Some; eassumption).
        rewrite Hv in Hn0s. injection Hn0s as ->.
        destruct (decide (s = p)) as [? | _]; [contradiction |].
        unfold pending. destruct (decide (s ∈ done)) as [? | _]; [contradiction |].
        rewrite count_occ_app. cbn [count_occ].
        destruct (Nat.eq_dec s s) as [_ | ?]; [| congruence].
        f_equal. unfold set_predecessor_amount. cbn. f_equal. unfold old. lia.
      - rewrite list_lookup_insert_ne by congruence. rewrite (Har v n0 Hv).
        destruct (decide (v = p)); [reflexivity |].
        unfold pending. destruct (decide (v ∈ done)); [reflexivity |].
        rewrite count_occ_app. cbn [count_occ].
        destruct (Nat.eq_dec s v) as [? | _]; [congruence |].
        rewrite Nat.add_0_r. reflexivity. }
    assert (Hready_other : forall v, v <> s ->
              (ready m0 done (visited ++ [s]) v <-> ready m0 done visited v)).
    { intros v Hv. unfold ready. rewrite count_occ_app. cbn [count_occ].
      destruct (Nat.eq_dec s v) as [? | _]; [congruence |].
      rewrite Nat.add_0_r. reflexivity. }
    assert (Hsplit' : successors n0p = (visited ++ [s]) ++ rest).
    { rewrite <- app_assoc. exact Hsplit. }
    destruct (Z.eqb_spec old 1) as [Hone | Hmany].
    + (* the last edge into [s] fired: push its root job *)
      assert (Hsq : s ∉ queued).
      { intros Hin. destruct (Hqd s Hin) as (n0 & Hv & _ & _ & Hf).
        rewrite Hv in Hn0s. injection Hn0s as ->. unfold old in Hone. lia. }
      assert (Hcard : (List.length (done ++ p :: s :: queued) <= List.length m0)%nat).
      { apply NoDup_length_bound.
        - apply NoDup_app in Hndq. destruct Hndq as (H1 & H2 & H3).
          apply NoDup_cons in H3. destruct H3 as [H3 H4].
          apply NoDup_app. split; [exact H1 |]. split.
          + intros x Hx Hx'. apply elem_of_cons in Hx'. destruct Hx' as [-> | Hx'].
            * contradiction.
            * apply elem_of_cons in Hx'. destruct Hx' as [-> | Hx'].
              -- contradiction.
              -- apply (H2 x Hx). right. exact Hx'.
          + apply NoDup_cons. split.
            * intros Hx. apply elem_of_cons in Hx. destruct Hx as [-> | Hx];
                [congruence | contradiction].
            * apply NoDup_cons. split; assumption.
        - apply Forall_app in Hrg. destruct Hrg as [H1 H2].
          apply Forall_cons in H2. destruct H2 as [H2 H3].
          apply Forall_app. split; [exact H1 |].
          constructor; [exact H2 |]. constructor; [lia | exact H3]. }
      rewrite length_app in Hcard, Hbt. cbn [List.length] in Hcard, Hbt.
      assert (Hbq : bottom q < size_max) by lia.
      assert (Hlq : length q < queue_capacity).
      { pose proof (contents_length q) as Hcl. rewrite Hct, length_fmap in Hcl.
        destruct Hbd as [(_ & _ & Htb & _) _]. unfold length in *.
        pose proof (run_size _ _ Hrun). lia. }
      destruct (push_contents (Some (RootJobOf s)) q Hbd Hbq) as [Hpush _].
      destruct (Hpush Hlq) as (q1 & Hq1 & Hct1 & Hbd1).
      rewrite Hq1. cbn [assert mbind result_bind].
      apply (IH (visited ++ [s]) m1 q1 (queued ++ [s]) Hsplit').
      split.
      * exact Hlen1.
      * exact Har1.
      * exact Hbd1.
      * rewrite Hct1, Hct, fmap_app. reflexivity.
      * rewrite (push_bottom _ _ _ (proj1 Hbd) Hbq Hq1).
        rewrite !length_app. cbn [List.length]. rewrite length_app. cbn [List.length]. lia.
      * apply NoDup_app in Hndq. destruct Hndq as (H1 & H2 & H3).
        apply NoDup_cons in H3. destruct H3 as [H3 H4].
        apply NoDup_app. split; [exact H1 |]. split.
        -- intros x Hx Hx'. apply elem_of_cons in Hx'. destruct Hx' as [-> | Hx'].
           ++ contradiction.
           ++ apply elem_of_app in Hx'. destruct Hx' as [Hx' | Hx'].
              ** apply (H2 x Hx). right. exact Hx'.
              ** apply list_elem_of_singleton in Hx'. subst x. contradiction.
        -- apply NoDup_cons. split.
           ++ intros Hx. apply elem_of_app in Hx. destruct Hx as [Hx | Hx];
                [contradiction |]. apply list_elem_of_singleton in Hx. congruence.
           ++ apply NoDup_app. split; [exact H4 |]. split; [| apply NoDup_singleton].
              intros x Hx Hx'. apply list_elem_of_singleton in Hx'. subst x. contradiction.
      * apply Forall_app in Hrg. destruct Hrg as [H1 H2].
        apply Forall_cons in H2. destruct H2 as [H2 H3].
        apply Forall_app. split; [exact H1 |]. constructor; [exact H2 |].
        apply Forall_app. split; [exact H3 |]. constructor; [lia | constructor].
      * intros v Hv. apply elem_of_app in Hv. destruct Hv as [Hv | Hv].
        -- apply Hready_other; [intros ->; contradiction | apply Hqd; exact Hv].
        -- apply list_elem_of_singleton in Hv. subst v.
           exists n0s. split; [exact Hn0s |]. split; [unfold old in Hone; lia |].
           split; [exact Hsd |].
           rewrite count_occ_app. cbn [count_occ].
           destruct (Nat.eq_dec s s) as [_ | ?]; [| congruence].
           unfold old in Hone. lia.
      * intros v Hv Hvp. destruct (Nat.eq_dec v s) as [-> | Hne].
        -- apply elem_of_app. right. apply list_elem_of_singleton. reflexivity.
        -- apply elem_of_app. left. apply Hcp; [| exact Hvp].
           apply Hready_other; assumption.
    + (* edges into [s] remain *)
      cbn [mbind result_bind].
      assert (Hnotready : ~ ready m0 done (visited ++ [s]) s).
      { intros (n0 & Hv & _ & _ & Hf). rewrite Hv in Hn0s. injection Hn0s as ->.
        rewrite count_occ_app in Hf. cbn [count_occ] in Hf.
        destruct (Nat.eq_dec s s) as [_ | ?]; [| congruence].
        unfold old in Hmany, Hold. lia. }
      assert (Hsq : s ∉ queued).
      { intros Hin. destruct (Hqd s Hin) as (n0 & Hv & _ & _ & Hf).
        rewrite Hv in Hn0s. injection Hn0s as ->. unfold old in Hold, Hmany. lia. }
      apply (IH (visited ++ [s]) m1 q queued Hsplit').
      split; try assumption.
      * intros v Hv. apply Hready_other; [intros ->; contradiction | apply Hqd; exact Hv].
      * intros v Hv Hvp. destruct (Nat.eq_dec v s) as [-> | Hne]; [contradiction |].
        apply Hcp; [| exact Hvp]. apply Hready_other; assumption.
Qed.

Lemma pending_snoc p n0p done v n0 :
  m0 !! p = Some n0p -> v <> p ->
  pending m0 done (successors n0p) v n0 = pending m0 (done ++ [p]) [] v n0.
Proof.
  intros Hp Hvp. unfold pending.
  destruct (decide (v ∈ done)) as [Hd | Hd];
    destruct (decide (v ∈ done ++ [p])) as [Hd' | Hd'].
  - reflexivity.
  - exfalso. apply Hd'. apply elem_of_app. left. exact Hd.
  - exfalso. apply elem_of_app in Hd'. destruct Hd' as [? | Hd']; [contradiction |].
    apply list_elem_of_singleton in Hd'. contradiction.
  - rewrite fired_snoc, (successors_of_lookup p n0p Hp). cbn [count_occ]. lia.
Qed.

Lemma ready_snoc p n0p done v :
  m0 !! p = Some n0p -> v <> p ->
  (ready m0 done (successors n0p) v <-> ready m0 (done ++ [p]) [] v).
Proof.
  intros Hp Hvp. unfold ready.
  rewrite fired_snoc, (successors_of_lookup p n0p Hp). cbn [count_occ].
  rewrite Nat.add_0_r.
  assert (Hmem : v ∉ done <-> v ∉ done ++ [p]).
  { rewrite elem_of_app, list_elem_of_singleton. tauto. }
  split; intros (n0 & H1 & H2 & H3 & H4); exists n0; tauto.
Qed.

(** [job_completed] of a node whose predecessors have all completed: the node
    joins the completed ones and its ready successors join the deque. *)
Lemma job_completed_state m q done queued p n0p :
  state_ok m0 b0 1 m q done queued ->
  m0 !! p = Some n0p -> p ∉ done -> p ∉ queued ->
  fired m0 done p = in_degree m0 p ->
  (forall v, ready m0 done [] v -> v <> p -> v ∈ queued) ->
  exists m' q' queued',
    job_completed p m q = Ok (m', q') /\
    state_ok m0 b0 0 m' q' (done ++ [p]) queued' /\
    (forall v, ready m0 (done ++ [p]) [] v -> v ∈ queued').
Proof.
  intros [Hlen Har Hbd Hct Hbt Hnd Hrg Hqd Hord] Hp Hpd Hpq Hfp Hcp.
  destruct (run_counters _ _ Hrun p n0p Hp) as (Hinit & Hpa & Hunf & _).
  pose proof (Har p n0p Hp) as Hmp.
  assert (Hnd_done : NoDup done) by (apply NoDup_app in Hnd; tauto).
  assert (Hrg_done : Forall (fun v => (v < List.length m0)%nat) done)
    by (apply Forall_app in Hrg; tauto).
  unfold job_completed, deref. rewrite Hmp. cbn [mbind result_bind].
  cbn [unfinished_amount set_predecessor_amount successors]. rewrite Hunf.
  change (1 >? 0) with true. change (1 >? 1) with false.
  change (wrap_u32 (1 - 1)) with 0. cbn [assert mbind result_bind].
  set (m1 := <[p := _]> m).
  assert (Hmid : mid_ok m0 b0 p done [] m1 q queued).
  { split.
    - unfold m1. rewrite length_insert. exact Hlen.
    - intros v n0 Hv. unfold m1. destruct (decide (v = p)) as [-> | Hne].
      + rewrite list_lookup_insert_eq by (rewrite Hlen; eapply lookup_lt_Some; eassumption).
        rewrite Hv in Hp. injection Hp as ->. reflexivity.
      + rewrite list_lookup_insert_ne by congruence. apply Har. exact Hv.
    - exact Hbd.
    - exact Hct.
    - rewrite length_app in Hbt |- *. cbn [List.length]. lia.
    - apply NoDup_app in Hnd. destruct Hnd as (H1 & H2 & H3).
      apply NoDup_app. split; [exact H1 |]. split.
      + intros x Hx Hx'. apply elem_of_cons in Hx'. destruct Hx' as [-> | Hx'];
          [contradiction | exact (H2 x Hx Hx')].
      + apply NoDup_cons. split; assumption.
    - apply Forall_app in Hrg. destruct Hrg as [H1 H2].
      apply Forall_app. split; [exact H1 |]. constructor; [| exact H2].
      eapply lookup_lt_Some; eassumption.
    - exact Hqd.
    - exact Hcp. }
  destruct (fire_successors_mid p n0p done Hp Hpd Hnd_done Hrg_done Hord
              (successors n0p) [] m1 q queued eq_refl Hmid)
    as (m2 & q2 & queued2 & Hfire & Hmid2).
  rewrite Hfire. cbn [mbind result_bind].
  destruct Hmid2 as [Hlen2 Har2 Hbd2 Hct2 Hbt2 Hnd2 Hrg2 Hqd2 Hcp2].
  pose proof (Har2 p n0p Hp) as Hm2p.
  destruct (decide (p = p)) as [_ | ?]; [| congruence].
  rewrite Hm2p. cbn [mbind result_bind].
  rewrite list_lookup_insert_eq by (rewrite Hlen2; eapply lookup_lt_Some; eassumption).
  cbn [mbind result_bind]. rewrite list_insert_insert_eq.
  exists (<[p := set_predecessor_amount n0p (initial_predecessor_amount n0p)]> m2), q2, queued2.
  split.
  { f_equal. f_equal. f_equal. destruct n0p. cbn in *. subst. reflexivity. }
  assert (Hpq2 : p ∉ queued2).
  { apply NoDup_app in Hnd2. destruct Hnd2 as (_ & _ & H3).
    apply NoDup_cons in H3. tauto. }
  split; [split |].
  - rewrite length_insert. exact Hlen2.
  - intros v n0 Hv. destruct (Nat.eq_dec v p) as [-> | Hne].
    + rewrite list_lookup_insert_eq by (rewrite Hlen2; eapply lookup_lt_Some; eassumption).
      rewrite Hv in Hp. injection Hp as ->. f_equal. f_equal. unfold pending.
      destruct (decide (p ∈ done ++ [p])) as [_ | Hn]; [reflexivity |].
      exfalso. apply Hn. apply elem_of_app. right. apply list_elem_of_singleton. reflexivity.
    + rewrite list_lookup_insert_ne by congruence. rewrite (Har2 v n0 Hv).
      destruct (decide (v = p)) as [? | _]; [contradiction |].
      rewrite (pending_snoc p n0p done v n0 Hp Hne). reflexivity.
  - exact Hbd2.
  - exact Hct2.
  - rewrite <- app_assoc. cbn [app]. rewrite Nat.add_0_r. exact Hbt2.
  - rewrite <- app_assoc. exact Hnd2.
  - rewrite <- app_assoc. exact Hrg2.
  - intros v Hv. apply (ready_snoc p n0p done v Hp); [intros ->; contradiction |].
    apply Hqd2. exact Hv.
  - intros pre v post Heq u Hu.
    destruct post as [| x post _] using rev_ind.
    + apply app_inj_tail in Heq. destruct Heq as [<- <-].
      eapply fired_all_inv; eassumption.
    + rewrite app_comm_cons, app_assoc in Heq. apply app_inj_tail in Heq.
      destruct Heq as [Heq _]. exact (Hord pre v post Heq u Hu).
  - intros v Hv.
    assert (Hvp : v <> p).
    { intros ->. destruct Hv as (_ & _ & _ & Hn & _). apply Hn.
      apply elem_of_app. right. apply list_elem_of_singleton. reflexivity. }
    apply Hcp2; [| exact Hvp]. apply (ready_snoc p n0p done v Hp Hvp). exact Hv.
Qed.

Variable functions : nat -> JobFunction.
Hypothesis Hfunctions : forall f params spawner w, functions f params spawner w = Ok w.

(** Running the root job of such a node. *)
Lemma run_node_job w done queued p n0p :
  state_ok m0 b0 1 (graph_nodes w) (queue w) done queued ->
  m0 !! p = Some n0p -> p ∉ done -> p ∉ queued ->
  fired m0 done p = in_degree m0 p ->
  (forall v, ready m0 done [] v -> v <> p -> v ∈ queued) ->
  exists w' queued',
    (j ← load_job (RootJobOf p) w; Job_run functions j w) = Ok w' /\
    allocator w' = allocator w /\ chunk_allocator w' = chunk_allocator w /\
    state_ok m0 b0 0 (graph_nodes w') (queue w') (done ++ [p]) queued' /\
    (forall v, ready m0 (done ++ [p]) [] v -> v ∈ queued').
Proof.
  intros Hok Hp Hpd Hpq Hfp Hcp.
  destruct (job_completed_state _ _ _ _ p n0p Hok Hp Hpd Hpq Hfp Hcp)
    as (m' & q' & queued' & Hjc & Hok' & Hcp').
  exists (mkMachine (allocator w) (chunk_allocator w) q' m'), queued'.
  split; [| split; [reflexivity | split; [reflexivity | split; [exact Hok' | exact Hcp']]]].
  cbn [load_job]. unfold deref. rewrite (ok_arena _ _ _ _ _ _ _ Hok p n0p Hp).
  cbn [mbind result_bind root_job set_predecessor_amount].
  destruct (run_counters _ _ Hrun p n0p Hp) as (_ & _ & _ & Hnode & _).
  destruct (run_function _ _ Hrun p n0p Hp) as [f Hf].
  unfold Job_run. rewrite Hf. cbn [non_null assert mbind result_bind].
  rewrite Hfunctions. cbn [mbind result_bind]. rewrite Hnode, Hjc. reflexivity.
Qed.

(** The own-queue loop empties the deque and completes every node whose
    predecessors complete. *)
Lemma run_own_jobs_state :
  forall k fuel w done queued,
    state_ok m0 b0 0 (graph_nodes w) (queue w) done queued ->
    (forall v, ready m0 done [] v -> v ∈ queued) ->
    (List.length m0 - List.length done <= k)%nat -> (k < fuel)%nat ->
    exists extra w',
      run_own_jobs fuel functions w = Ok (RootJobOf <$> extra, w') /\
      allocator w' = allocator w /\ chunk_allocator w' = chunk_allocator w /\
      state_ok m0 b0 0 (graph_nodes w') (queue w') (done ++ extra) [] /\
      (forall v, ~ ready m0 (done ++ extra) [] v).
Proof.
  induction k as [| k IH]; intros fuel w done queued Hok Hcp Hk Hfuel;
    (destruct fuel as [| fuel]; [lia |]); cbn [run_own_jobs];
    pose proof Hok as [Hlen Har Hbd Hct Hbt Hnd Hrg Hqd Hord];
    destruct (pop_contents (queue w) Hbd) as [Hpop Hempty];
    (destruct queued as [| v queued _] using rev_ind;
     [ rewrite (Hempty Hct);
       exists [], w; destruct w as [wa wca wq wm]; cbn [allocator chunk_allocator queue graph_nodes] in *;
       split; [reflexivity |]; split; [reflexivity |]; split; [reflexivity |];
       rewrite app_nil_r; split; [exact Hok |];
       intros v Hv; apply Hcp in Hv; apply elem_of_nil in Hv; exact Hv
     | ]).
  - (* no node is left, so the deque is empty *)
    exfalso.
    assert (Hc : (List.length (done ++ queued ++ [v]) <= List.length m0)%nat)
      by (apply NoDup_length_bound; assumption).
    rewrite !length_app in Hc. cbn [List.length] in Hc. lia.
  - rewrite fmap_app in Hct. cbn [fmap list_fmap] in Hct.
    destruct (Hpop _ _ Hct) as (Hjob & Hct' & Hbd').
    destruct (pop (queue w)) as [job q'] eqn:Hpq. cbn [fst snd] in Hjob, Hct', Hbd'.
    subst job.
    pose proof (pop_bottom_le (queue w) (proj1 Hbd)) as Hble. rewrite Hpq in Hble.
    cbn [snd] in Hble.
    assert (Hvq : (v ∉ done) /\ (v ∉ queued)).
    { rewrite app_assoc in Hnd. apply NoDup_app in Hnd. destruct Hnd as (_ & H2 & _).
      split; intros Hin; apply (H2 v); try (apply list_elem_of_singleton; reflexivity);
        apply elem_of_app; [left | right]; exact Hin. }
    destruct Hvq as [Hvd Hvq].
    destruct (Hqd v) as (n0v & Hn0v & Hpos & _ & Hfv).
    { apply elem_of_app. right. apply list_elem_of_singleton. reflexivity. }
    cbn [count_occ] in Hfv. rewrite Nat.add_0_r in Hfv.
    set (w1 := mkMachine (allocator w) (chunk_allocator w) q' (graph_nodes w)).
    assert (Hok1 : state_ok m0 b0 1 (graph_nodes w1) (queue w1) done queued).
    { split; try assumption.
      - cbn. rewrite length_app in Hbt |- *. rewrite length_app in Hbt.
        cbn [List.length] in Hbt. lia.
      - rewrite app_assoc in Hnd. apply NoDup_app in Hnd. tauto.
      - rewrite app_assoc in Hrg. apply Forall_app in Hrg. tauto.
      - intros u Hu. apply Hqd. apply elem_of_app. left. exact Hu. }
    destruct (run_node_job w1 done queued v n0v Hok1 Hn0v Hvd Hvq Hfv)
      as (w2 & queued2 & Hrun2 & Ha2 & Hc2 & Hok2 & Hcp2).
    { intros u Hu Huv. apply Hcp in Hu. apply elem_of_app in Hu.
      destruct Hu as [Hu | Hu]; [exact Hu |].
      apply list_elem_of_singleton in Hu. contradiction. }
    change (load_job (RootJobOf v) w1 ≫= (fun j => Job_run functions j w1)) with
      (j ← load_job (RootJobOf v) w1; Job_run functions j w1) in Hrun2.
    destruct (load_job (RootJobOf v) w1) as [j | e] eqn:Hload;
      cbn [mbind result_bind] in Hrun2 |- *; [| discriminate].
    rewrite Hrun2. cbn [mbind result_bind].
    assert (Hlen_done : (List.length (done ++ [v]) <= List.length m0)%nat).
    { apply NoDup_length_bound.
      - pose proof (ok_nodup _ _ _ _ _ _ _ Hok2) as Hn2. apply NoDup_app in Hn2. tauto.
      - apply Forall_app. split; [rewrite app_assoc in Hrg; apply Forall_app in Hrg;
          destruct Hrg as [Hrg _]; apply Forall_app in Hrg; tauto |].
        constructor; [eapply lookup_lt_Some; eassumption | constructor]. }
    destruct (IH fuel w2 (done ++ [v]) queued2 Hok2 Hcp2) as (extra & w' & Hr & Ha & Hc & Hok' & Hno).
    { rewrite length_app in Hlen_done |- *. cbn [List.length] in *. lia. }
    { lia. }
    rewrite Hr. cbn [mbind result_bind].
    exists (v :: extra), w'. rewrite <- app_assoc in Hok', Hno. cbn [app] in Hok', Hno.
    split; [reflexivity |]. split; [rewrite Ha, Ha2; reflexivity |].
    split; [rewrite Hc, Hc2; reflexivity |].
    split; [exact Hok' | exact Hno].
Qed.

Lemma state_ok_popped m q done queued :
  state_ok m0 b0 0 m q done queued -> state_ok m0 b0 1 m q done queued.
Proof. intros [? ? ? ? ? ? ? ? ?]. split; try assumption. lia. Qed.

(** The root jobs, one after the other. *)
Lemma run_each_roots :
  forall roots w done queued,
    state_ok m0 b0 0 (graph_nodes w) (queue w) done queued ->
    (forall v, ready m0 done [] v -> v ∈ queued) ->
    NoDup (done ++ roots) ->
    Forall (fun r => (r < List.length m0)%nat /\ in_degree m0 r = 0%nat) roots ->
    exists w' queued',
      RootJobs.run_each functions (JobGraphNode.get_root_job <$> roots) w = Ok w' /\
      allocator w' = allocator w /\ chunk_allocator w' = chunk_allocator w /\
      state_ok m0 b0 0 (graph_nodes w') (queue w') (done ++ roots) queued' /\
      (forall v, ready m0 (done ++ roots) [] v -> v ∈ queued').
Proof.
  induction roots as [| r roots IH]; intros w done queued Hok Hcp Hnd Hroots.
  - exists w, queued. rewrite app_nil_r. cbn. auto.
  - apply Forall_cons in Hroots as [[Hr Hdeg] Hroots].
    destruct (lookup_lt_is_Some_2 m0 r Hr) as [n0r Hn0r].
    destruct (run_counters _ _ Hrun r n0r Hn0r) as (Hinit & _).
    assert (Hrd : r ∉ done).
    { apply NoDup_app in Hnd. destruct Hnd as (_ & H2 & _).
      intros Hin. apply (H2 r Hin). left. }
    assert (Hrq : r ∉ queued).
    { intros Hin. destruct (ok_queued _ _ _ _ _ _ _ Hok r Hin) as (n0 & Hv & Hpos & _).
      rewrite Hv in Hn0r. injection Hn0r as ->. lia. }
    assert (Hf : fired m0 done r = in_degree m0 r).
    { pose proof (ok_nodup _ _ _ _ _ _ _ Hok) as H1. apply NoDup_app in H1.
      pose proof (ok_range _ _ _ _ _ _ _ Hok) as H2. apply Forall_app in H2.
      pose proof (fired_le m0 done r (proj1 H1) (proj1 H2)). lia. }
    destruct (run_node_job w done queued r n0r (state_ok_popped _ _ _ _ Hok) Hn0r Hrd Hrq Hf)
      as (w1 & queued1 & Hrun1 & Ha1 & Hc1 & Hok1 & Hcp1).
    { intros v Hv _. apply Hcp. exact Hv. }
    destruct (IH w1 (done ++ [r]) queued1 Hok1 Hcp1) as (w' & queued' & Hr' & Ha & Hc & Hok' & Hcp').
    { rewrite <- app_assoc. exact Hnd. }
    { exact Hroots. }
    exists w', queued'. rewrite <- app_assoc in Hok', Hcp'. cbn [app] in Hok', Hcp'.
    rewrite fmap_cons. cbn [RootJobs.run_each].
    change (JobGraphNode.get_root_job r) with (RootJobOf r).
    destruct (load_job (RootJobOf r) w) as [j | e] eqn:Hload;
      cbn [mbind result_bind] in Hrun1 |- *; [| discriminate].
    rewrite Hrun1. cbn [mbind result_bind].
    split; [exact Hr' |]. split; [congruence |]. split; [congruence |].
    split; [exact Hok' | exact Hcp'].
Qed.

End CompletionStep.

Section RunGraph.
Import JobGraphNode JobGraph JobQueue Deque Degree Run RootJobs.

Lemma lookup_total_seq {A} `{Inhabited A} (pre l : list A) :
  (fun j => (pre ++ l) !!! j) <$> seq (List.length pre) (List.length l) = l.
Proof.
  revert pre. induction l as [| x l IH]; intros pre; [reflexivity |].
  cbn [List.length seq]. rewrite fmap_cons. rewrite list_lookup_total_middle by reflexivity.
  f_equal. specialize (IH (pre ++ [x])). rewrite <- app_assoc in IH. cbn [app] in IH.
  rewrite length_app in IH. cbn [List.length] in IH.
  replace (List.length pre + 1)%nat with (S (List.length pre)) in IH by lia. exact IH.
Qed.

(** With one worker, the share of worker 0 is the whole root list. *)
Lemma share_single_worker g : share g 1 0 = JobGraphNode.get_root_job <$> root_nodes g.
Proof.
  unfold share, positions, positions_from.
  assert (Hall : forall l, List.filter (fun j : nat => Z.of_nat j mod 1 =? 0) l = l).
  { induction l as [| x l IH]; [reflexivity |]. cbn [List.filter].
    rewrite Z.mod_1_r. cbn. rewrite IH. reflexivity. }
  rewrite Hall.
  pose proof (lookup_total_seq [] (root_nodes g)) as Hl. cbn [app List.length] in Hl.
  rewrite <- Hl at 2. rewrite <- list_fmap_compose. reflexivity.
Qed.

(** One worker runs a graph at the start of a run: the root jobs first, then
    its deque until the deque is empty. *)
Lemma run_graph_state functions g a ca q :
  (forall f params spawner w, functions f params spawner w = Ok w) ->
  runnable (this g) (nodes g) ->
  NoDup (root_nodes g) ->
  Forall (fun r => (r < List.length (nodes g))%nat /\ in_degree (nodes g) r = 0%nat)
         (root_nodes g) ->
  (forall v n0, nodes g !! v = Some n0 -> v ∉ root_nodes g ->
     0 < initial_predecessor_amount n0) ->
  valid q -> top q = bottom q ->
  bottom q + Z.of_nat (List.length (nodes g)) <= size_max ->
  exists w1 ran w2,
    run_root_jobs (S (List.length (root_nodes g))) functions g 1 0
      (mkMachine a ca q (nodes g)) = Ok w1 /\
    run_own_jobs (S (List.length (nodes g))) functions w1 = Ok (RootJobOf <$> ran, w2) /\
    graph_nodes w2 = nodes g /\ contents (queue w2) = [] /\
    allocator w2 = a /\ chunk_allocator w2 = ca /\
    root_nodes g ++ ran ≡ₚ seq 0 (List.length (nodes g)) /\
    (forall pre v post, root_nodes g ++ ran = pre ++ v :: post ->
       forall u, edge (nodes g) u v -> u ∈ pre).
Proof.
  intros Hfun Hrun Hnd Hroots Hinner Hv Htb Hb.
  set (m0 := nodes g) in *. set (w0 := mkMachine a ca q m0).
  assert (Hlenroots : (List.length (root_nodes g) <= List.length m0)%nat).
  { apply NoDup_length_bound; [exact Hnd |].
    eapply Forall_impl; [exact Hroots |]. cbn. tauto. }
  pose proof (run_size _ _ Hrun) as Hsize. unfold queue_capacity in Hsize.
  (* the state at the start *)
  assert (Hok0 : state_ok m0 (bottom q) 0 (graph_nodes w0) (queue w0) [] []).
  { split; cbn [graph_nodes queue w0 app List.length fmap list_fmap].
    - reflexivity.
    - intros v n0 Hn0. rewrite Hn0. f_equal.
      destruct (run_counters _ _ Hrun v n0 Hn0) as (_ & Hpa & _).
      unfold pending. destruct (decide (v ∈ [])) as [Hin | _];
        [apply elem_of_nil in Hin; destruct Hin |].
      change (fired m0 [] v) with 0%nat. cbn [count_occ]. rewrite !Z.sub_0_r.
      destruct n0 as [rj ipa pa ua su ow].
      cbn [predecessor_amount initial_predecessor_amount] in Hpa |- *.
      subst pa. reflexivity.
    - split; [exact Hv |]. unfold length, queue_capacity. lia.
    - unfold contents, length. rewrite Htb, Z.sub_diag. reflexivity.
    - lia.
    - constructor.
    - constructor.
    - intros v Hin. apply elem_of_nil in Hin. destruct Hin.
    - intros pre v post Heq. destruct pre; discriminate. }
  assert (Hcp0 : forall v, ready m0 [] [] v -> v ∈ []).
  { intros v (n0 & Hn0 & Hpos & _ & Hf). exfalso.
    destruct (run_counters _ _ Hrun v n0 Hn0) as (Hinit & _).
    cbn in Hf. lia. }
  (* the root jobs *)
  destruct (run_each_roots (this g) m0 (bottom q) Hrun Hb functions Hfun
              (root_nodes g) w0 [] [] Hok0 Hcp0 Hnd Hroots)
    as (w1 & queued1 & Hr1 & Ha1 & Hc1 & Hok1 & Hcp1).
  cbn [app] in Hok1, Hcp1.
  (* the deque *)
  destruct (run_own_jobs_state (this g) m0 (bottom q) Hrun Hb functions Hfun
              (List.length m0 - List.length (root_nodes g))%nat (S (List.length m0))
              w1 (root_nodes g) queued1 Hok1 Hcp1 ltac:(lia) ltac:(lia))
    as (ran & w2 & Hr2 & Ha2 & Hc2 & Hok2 & Hno).
  exists w1, ran, w2.
  set (done := root_nodes g ++ ran) in *.
  pose proof Hok2 as [Hlen Har _ Hct _ Hnd2 Hrg2 _ Hord].
  rewrite app_nil_r in Hnd2, Hrg2.
  (* every node has completed *)
  assert (Hall : forall v, (v < List.length m0)%nat -> v ∈ done).
  { intros v. induction v as [v IHv] using lt_wf_ind. intros Hvlt.
    destruct (decide (v ∈ done)) as [Hin | Hnin]; [exact Hin | exfalso].
    destruct (lookup_lt_is_Some_2 m0 v Hvlt) as [n0 Hn0].
    apply (Hno v). exists n0. split; [exact Hn0 |]. split.
    - apply (Hinner v n0 Hn0). intros Hin. apply Hnin. apply elem_of_app. left. exact Hin.
    - split; [exact Hnin |]. cbn [count_occ]. rewrite Nat.add_0_r.
      apply fired_all; [exact Hnd2 | exact Hrg2 |].
      intros u (nu & Hu & Hin).
      pose proof (run_topological _ _ Hrun u nu Hu) as Ht.
      rewrite Forall_forall in Ht. apply list_elem_of_In, Ht in Hin.
      apply IHv; lia. }
  split.
  { unfold w0 in Hr1. rewrite <- Hr1, <- share_single_worker.
    pose proof (run_root_jobs_from functions g 1 0 ltac:(lia) ltac:(lia)) as Hfrom.
    pose proof (Hfrom ltac:(unfold uint32_max; lia) (List.length (root_nodes g)) 0%nat
                  (S (List.length (root_nodes g))) (mkMachine a ca q m0)
                  ltac:(lia) ltac:(lia) eq_refl ltac:(lia)) as Heq.
    rewrite Nat.sub_0_r in Heq. exact Heq. }
  split; [exact Hr2 |].
  split.
  { apply list_eq. intros i. destruct (m0 !! i) as [n0 |] eqn:Hn0.
    - rewrite (Har i n0 Hn0). f_equal. unfold pending.
      destruct (decide (i ∈ done)) as [_ | Hn].
      + destruct (run_counters _ _ Hrun i n0 Hn0) as (_ & Hpa & _).
        destruct n0. cbn in *. subst. reflexivity.
      + exfalso. apply Hn, Hall. eapply lookup_lt_Some; eassumption.
    - apply lookup_ge_None in Hn0. apply lookup_ge_None. lia. }
  split; [exact Hct |].
  split; [rewrite Ha2, Ha1; reflexivity |].
  split; [rewrite Hc2, Hc1; reflexivity |].
  split; [| exact Hord].
  apply NoDup_Permutation; [exact Hnd2 | apply NoDup_ListNoDup, seq_NoDup |].
  intros v. split.
  - intros Hin. rewrite Forall_forall in Hrg2. apply Hrg2 in Hin.
    apply list_elem_of_In, in_seq. lia.
  - intros Hin. apply list_elem_of_In, in_seq in Hin. apply Hall. lia.
Qed.

Lemma add_successor_keeps p node m m' :
  add_successor p node m = Ok m' ->
  forall v n, m !! v = Some n ->
    exists n', m' !! v = Some n' /\ root_job n' = root_job n /\
      (v <> node -> initial_predecessor_amount n' = initial_predecessor_amount n).
Proof.
  unfold add_successor, deref. intros H v n Hv.
  destruct (m !! p) as [np |] eqn:Hp; [| discriminate]. cbn [mbind result_bind] in H.
  set (m1 := <[p := set_successors np (successors np ++ [node])]> m) in *.
  destruct (m1 !! node) as [s |] eqn:Hs; [| discriminate]. cbn [mbind result_bind] in H.
  injection H as <-.
  assert (H1 : exists n1, m1 !! v = Some n1 /\ root_job n1 = root_job n /\
                 initial_predecessor_amount n1 = initial_predecessor_amount n).
  { unfold m1. destruct (Nat.eq_dec v p) as [-> | Hne].
    - rewrite list_lookup_insert_eq by (eapply lookup_lt_Some; eassumption).
      rewrite Hv in Hp. injection Hp as ->. eexists. split; [reflexivity |]. split; reflexivity.
    - rewrite list_lookup_insert_ne by congruence. eauto. }
  destruct H1 as (n1 & Hn1 & Hr1 & Hi1).
  destruct (Nat.eq_dec v node) as [-> | Hne].
  - rewrite list_lookup_insert_eq by (eapply lookup_lt_Some; eassumption).
    rewrite Hn1 in Hs. injection Hs as ->.
    eexists. split; [reflexivity |]. split; [exact Hr1 | congruence].
  - rewrite list_lookup_insert_ne by congruence.
    exists n1. split; [exact Hn1 |]. split; [exact Hr1 | intros _; exact Hi1].
Qed.

Lemma wire_predecessors_keeps g_this predecessors node :
  forall rest m m',
    wire_predecessors g_this predecessors rest node m = Ok m' ->
    forall v n, m !! v = Some n ->
      exists n', m' !! v = Some n' /\ root_job n' = root_job n /\
        (v <> node -> initial_predecessor_amount n' = initial_predecessor_amount n).
Proof.
  induction rest as [| p rest IH]; intros m m' H v n Hv.
  - injection H as <-. exists n. auto.
  - cbn [wire_predecessors] in H.
    destruct (deref m p) as [np | e]; cbn [mbind result_bind] in H; [| discriminate].
    destruct (Nat.eqb (owner np) g_this); cbn [assert mbind result_bind] in H; [| discriminate].
    destruct (redundant m predecessors p) as [[|] | e]; cbn [mbind result_bind] in H;
      [| | discriminate].
    + exact (IH m m' H v n Hv).
    + destruct (add_successor p node m) as [m1 | e] eqn:Ha; cbn [mbind result_bind] in H;
        [| discriminate].
      destruct (add_successor_keeps p node m m1 Ha v n Hv) as (n1 & Hn1 & Hr1 & Hi1).
      destruct (IH m1 m' H v n1 Hn1) as (n' & Hn' & Hr' & Hi').
      exists n'. split; [exact Hn' |]. split; [congruence |].
      intros Hne. rewrite (Hi' Hne). exact (Hi1 Hne).
Qed.

Lemma list_greatest (l : list nat) :
  l <> [] -> exists p, In p l /\ forall c, In c l -> (c <= p)%nat.
Proof.
  induction l as [| x l IH]; [congruence |]. intros _.
  destruct l as [| y l].
  - exists x. split; [left; reflexivity |]. intros c [<- | []]. lia.
  - destruct (IH ltac:(discriminate)) as (p & Hp & Hmax).
    destruct (Nat.le_gt_cases x p) as [Hle | Hgt].
    + exists p. split; [right; exact Hp |]. intros c [<- | Hc]; [exact Hle | exact (Hmax c Hc)].
    + exists x. split; [left; reflexivity |].
      intros c [<- | Hc]; [lia |]. specialize (Hmax c Hc). lia.
Qed.

(** What the calls establish for every node. *)
Lemma do_calls_started cs :
  forall g g',
    well_formed g -> well_scoped (List.length (nodes g)) cs -> Forall startable cs ->
    started g -> do_calls cs g = Ok g' -> started g'.
Proof.
  induction cs as [| c cs IH]; intros g g' Hwf Hs Hst Hg Hb.
  - injection Hb as <-. exact Hg.
  - apply Forall_cons in Hst as [Hc Hst].
    destruct c as [f params | f params predecessors]; cbn [well_scoped] in Hs;
      cbn [do_calls do_call mbind result_bind] in Hb; cbn [startable] in Hc.
    + apply (IH _ g' (new_node_well_formed f params g Hwf)) in Hb; [exact Hb | | exact Hst |].
      * cbn [new_node snd nodes]. rewrite length_app, Nat.add_comm. exact Hs.
      * unfold started. cbn [new_node snd nodes root_nodes]. intros v n0 Hv.
        apply lookup_app_Some in Hv. destruct Hv as [Hl | [Hge Hr]].
        -- destruct (Hg v n0 Hl) as (H1 & H2 & H3). split; [exact H1 |]. split; [exact H2 |].
           intros Hn. apply H3. intros Hin. apply Hn. apply elem_of_app. left. exact Hin.
        -- destruct (v - List.length (nodes g))%nat eqn:Hd; [| discriminate].
           injection Hr as <-. cbn. split; [exact Hc |]. split; [unfold uint32_max; lia |].
           intros Hn. exfalso. apply Hn. apply elem_of_app. right.
           apply list_elem_of_singleton. lia.
    + destruct Hs as (Hp & Hlen & Hs). destruct Hc as [Hf Hne].
      destruct (new_node_after_spec f params predecessors g Hwf Hp Hlen)
        as (m' & k' & Hnew & Hw & Hk & _ & Hmax).
      rewrite Hnew in Hb. cbn [mbind result_bind] in Hb.
      assert (Hwf1 : well_formed (JobGraph.mk (this g) m' (root_nodes g))).
      { destruct (do_calls_well_formed [NewNodeAfter f params predecessors] g Hwf)
          as (g1 & Hg1 & Hwf1).
        - cbn [well_scoped]. auto.
        - cbn [do_calls do_call] in Hg1. rewrite Hnew in Hg1.
          cbn [mbind result_bind] in Hg1. injection Hg1 as <-. exact Hwf1. }
      pose proof Hw as (_ & _ & Hlen' & nn & Hnn & Hinn & _).
      apply (IH _ g' Hwf1) in Hb; [exact Hb | | exact Hst |].
      * cbn [nodes]. rewrite Hlen'. exact Hs.
      * unfold new_node_after in Hnew.
        destruct (wire_predecessors _ _ _ _ _) as [m1 | e] eqn:Hwire;
          cbn [mbind result_bind] in Hnew; [| discriminate].
        injection Hnew as ->.
        unfold started. cbn [nodes root_nodes]. intros v n1 Hv.
        destruct (Nat.eq_dec v (List.length (nodes g))) as [-> | Hvn].
        -- rewrite Hnn in Hv. injection Hv as <-.
           destruct (wire_predecessors_keeps _ _ _ _ _ _ Hwire (List.length (nodes g))
                       (JobGraphNode.new f params (this g) (List.length (nodes g))))
             as (n' & Hn' & Hr' & _).
           { rewrite lookup_app_r by lia. rewrite Nat.sub_diag. reflexivity. }
           rewrite Hnn in Hn'. injection Hn' as <-.
           split; [rewrite Hr'; exact Hf |].
           destruct (list_greatest predecessors Hne) as (p & Hpin & Hpmax).
           destruct (Hmax p Hpin Hpmax) as [Hpos _].
           split; [lia | intros _; lia].
        -- assert (Hvl : (v < List.length (nodes g))%nat)
             by (apply lookup_lt_Some in Hv; lia).
           destruct (lookup_lt_is_Some_2 (nodes g) v Hvl) as [n0 Hn0].
           destruct (wire_predecessors_keeps _ _ _ _ _ _ Hwire v n0) as (n' & Hn' & Hr' & Hi').
           { apply lookup_app_l_Some. exact Hn0. }
           rewrite Hv in Hn'. injection Hn' as <-.
           rewrite Hr', (Hi' Hvn). exact (Hg v n0 Hn0).
Qed.

Lemma root_calls_NoDup cs k : NoDup (root_calls k cs).
Proof.
  apply NoDup_alt. intros i j r Hi Hj.
  destruct (Nat.lt_trichotomy i j) as [Hlt | [Heq | Hgt]]; [| exact Heq |].
  - pose proof (root_calls_increasing cs k i j r r Hi Hj Hlt). lia.
  - pose proof (root_calls_increasing cs k j i r r Hj Hi Hgt). lia.
Qed.

(** Graphs built by startable calls are ready to run. *)
Lemma built_runnable cs g_this g :
  well_scoped 0 cs -> Forall startable cs -> do_calls cs (JobGraph.new g_this) = Ok g ->
  Z.of_nat (List.length cs) <= queue_capacity ->
  runnable (this g) (nodes g) /\
  NoDup (root_nodes g) /\
  Forall (fun r => (r < List.length (nodes g))%nat /\ in_degree (nodes g) r = 0%nat)
         (root_nodes g) /\
  (forall v n0, nodes g !! v = Some n0 -> v ∉ root_nodes g ->
     0 < initial_predecessor_amount n0) /\
  List.length (nodes g) = List.length cs.
Proof.
  intros Hs Hst Hb Hsize.
  pose proof (built_well_formed _ _ _ Hs Hb) as Hwf. pose proof Hwf as (Ht & _ & Hrl).
  destruct (do_calls_counters cs (JobGraph.new g_this) g (new_well_formed g_this)) as (Hc & Hthis & Hr);
    try assumption.
  { intros i n Hi. discriminate. }
  { constructor. }
  assert (Hstd : started g).
  { apply (do_calls_started cs (JobGraph.new g_this) g (new_well_formed g_this) Hs Hst); [| exact Hb].
    intros v n0 Hv. discriminate. }
  destruct (do_calls_shape cs (JobGraph.new g_this) g Hb) as [Hlen Hroots].
  cbn [JobGraph.new nodes root_nodes List.length app Nat.add] in Hlen, Hroots.
  split; [split |].
  - exact Ht.
  - exact Hc.
  - intros v. destruct (Nat.lt_ge_cases v (List.length (nodes g))) as [Hlt | Hge].
    + destruct (lookup_lt_is_Some_2 _ _ Hlt) as [n0 Hn0].
      destruct (Hc v n0 Hn0) as (Hi & _). destruct (Hstd v n0 Hn0) as (_ & Hrange & _). lia.
    + rewrite (in_degree_beyond _ _ Ht Hge). unfold uint32_max. lia.
  - intros v n0 Hn0. exact (proj1 (Hstd v n0 Hn0)).
  - rewrite Hlen. exact Hsize.
  - split; [rewrite Hroots; apply root_calls_NoDup |].
    split; [| split; [| exact Hlen]].
    + apply Forall_forall. intros r Hin. split.
      * rewrite Forall_forall in Hrl. exact (Hrl r Hin).
      * rewrite Forall_forall in Hr. exact (Hr r Hin).
    + intros v n0 Hn0 Hv. exact (proj2 (proj2 (Hstd v n0 Hn0)) Hv).
Qed.

(** X20. On a graph built by calls that each give a job function and, in the
    predecessor form, at least one predecessor, with at most [queue_capacity]
    nodes and job functions that spawn nothing, one worker that runs the root
    jobs and then its deque until the deque is empty returns; it has run the
    root job of every node exactly once, each after the root jobs of all the
    node's predecessors; the deque is empty and every counter of the graph is
    back at its value from before the run. *)
Theorem single_worker_runs_graph cs g_this g functions a ca q :
  well_scoped 0 cs -> Forall startable cs -> do_calls cs (JobGraph.new g_this) = Ok g ->
  Z.of_nat (List.length cs) <= queue_capacity ->
  (forall f params spawner w, functions f params spawner w = Ok w) ->
  valid q -> top q = bottom q ->
  bottom q + Z.of_nat (List.length cs) <= size_max ->
  exists w1 ran w2,
    run_root_jobs (S (List.length (root_nodes g))) functions g 1 0
      (mkMachine a ca q (nodes g)) = Ok w1 /\
    run_own_jobs (S (List.length (nodes g))) functions w1 = Ok (RootJobOf <$> ran, w2) /\
    graph_nodes w2 = nodes g /\ contents (queue w2) = [] /\
    allocator w2 = a /\ chunk_allocator w2 = ca /\
    root_nodes g ++ ran ≡ₚ seq 0 (List.length (nodes g)) /\
    (forall pre v post, root_nodes g ++ ran = pre ++ v :: post ->
       forall u, edge (nodes g) u v -> u ∈ pre).
Proof.
  intros Hs Hst Hb Hsize Hfun Hv Htb Hbot.
  destruct (built_runnable cs g_this g Hs Hst Hb Hsize) as (Hrun & Hnd & Hroots & Hinner & Hlen).
  apply run_graph_state; try assumption. rewrite Hlen. exact Hbot.
Qed.

Lemma single_worker_runs_graph_witness :
  exists w1 ran w2,
    run_root_jobs 2 (fun _ _ _ w => Ok w) chain_graph 1 0
      (mkMachine JobAllocator.new (JobChunkAllocator.new 1) JobQueue.new (nodes chain_graph))
      = Ok w1 /\
    run_own_jobs 3 (fun _ _ _ w => Ok w) w1 = Ok (RootJobOf <$> ran, w2) /\
    graph_nodes w2 = nodes chain_graph /\
    root_nodes chain_graph ++ ran ≡ₚ [0%nat; 1%nat].
Proof.
  destruct (single_worker_runs_graph
              [NewNode (Some 0%nat) []; NewNodeAfter (Some 1%nat) [] [0%nat]]
              0 chain_graph (fun _ _ _ w => Ok w)
              JobAllocator.new (JobChunkAllocator.new 1) JobQueue.new)
    as (w1 & ran & w2 & H1 & H2 & H3 & _ & _ & _ & H4 & _).
  - cbn. split; [repeat constructor | split; [unfold uint32_max; lia | exact I]].
  - repeat constructor; cbn; eauto; discriminate.
  - exact chain_graph_built.
  - cbn. unfold queue_capacity. lia.
  - reflexivity.
  - exact valid_new.
  - reflexivity.
  - vm_compute. discriminate.
  - exists w1, ran, w2. auto.
Defined.

End RunGraph.

(** ** The owner and a thief racing for the last job *)

Section RaceFacts.
Import JobQueue.

Lemma steal_with_nonempty thieves q :
  valid q -> top q < bottom q ->
  steal_with thieves q =
    if thieves (top q) =? top q
    then (load_slot q (top q), mk (ring_buffer q) (top q + 1) (bottom q))
    else (None, mk (ring_buffer q) (thieves (top q)) (bottom q)).
Proof.
  intros (Hl & H0 & H1 & H2) Hne. unfold steal_with, size_max, int32_max in *.
  destruct (Z.geb_spec (top q) (bottom q)) as [? | _]; [lia |].
  unfold compare_exchange_strong. cbn [top set_top ring_buffer bottom].
  rewrite wrap_i32_id by (unfold int32_max; lia).
  destruct (thieves (top q) =? top q); reflexivity.
Qed.

(** X21. When the deque holds one job and the owner's [pop] races with a
    thief's [steal], the job is returned once: if the thief's compare-and-swap
    comes first, [steal] returns the job and [pop] returns null; if the
    owner's comes first, [pop] returns the job and [steal] returns null, also
    when the thief had read [top] and [bottom] before the [pop]. Either way
    the deque is left empty and valid. *)
Theorem last_job_taken_once q :
  valid q -> length q = 1 ->
  let job := load_slot q (top q) in
  let after_steal := snd (steal q) in
  let after_pop := snd (pop q) in
  (fst (steal q) = job /\
   pop_with (fun _ => top after_steal) q = (None, after_steal)) /\
  (fst (pop q) = job /\
   fst (steal after_pop) = None /\
   steal_with (fun _ => top after_pop) q = (None, after_pop)) /\
  after_steal = after_pop /\
  length after_pop = 0 /\ valid after_pop.
Proof.
  intros Hv Hlen. pose proof Hv as (Hl & H0 & H1 & H2). unfold length in Hlen.
  assert (Hb : bottom q = top q + 1) by lia.
  cbn zeta. unfold steal, pop.
  rewrite (steal_with_nonempty _ q Hv ltac:(lia)).
  rewrite (pop_with_last (fun v => v) q Hv Hlen).
  rewrite (pop_with_last _ q Hv Hlen).
  rewrite Z.eqb_refl. cbn [fst snd top].
  rewrite (steal_with_nonempty _ q Hv ltac:(lia)). cbn [top].
  destruct (Z.eqb_spec (top q + 1) (top q)) as [? | _]; [lia |].
  replace (bottom q - 1 + 1) with (bottom q) by lia.
  replace (bottom q - 1) with (top q) by lia.
  split; [split; [reflexivity |] |].
  { rewrite Hb. reflexivity. }
  split; [split; [reflexivity |] |].
  { split; [| reflexivity].
    unfold steal_with. cbn [top bottom].
    destruct (Z.geb_spec (top q + 1) (bottom q)) as [_ | ?]; [reflexivity | lia]. }
  split; [reflexivity |].
  split; [unfold length; cbn; lia |].
  unfold valid, size_max in *. cbn [ring_buffer top bottom]. lia.
Qed.

Lemma last_job_taken_once_witness :
  exists q,
    push (Some (RootJobOf 3)) new = Ok (true, q) /\
    fst (steal q) = Some (RootJobOf 3) /\
    pop_with (fun _ => top (snd (steal q))) q = (None, snd (steal q)).
Proof.
  destruct (push (Some (RootJobOf 3)) new) as [[b q] | e] eqn:Hp;
    [| vm_compute in Hp; discriminate Hp].
  assert (Hq : b = true /\ valid q /\ length q = 1 /\ load_slot q (top q) = Some (RootJobOf 3)).
  { vm_compute in Hp. injection Hp as <- <-. split; [reflexivity |].
    split; [split; [reflexivity | vm_compute; repeat split; discriminate] |].
    split; reflexivity. }
  destruct Hq as (-> & Hv & Hlen & Hjob).
  exists q. split; [reflexivity |].
  destruct (last_job_taken_once q Hv Hlen) as ((H1 & H2) & _).
  split; [rewrite H1; exact Hjob | exact H2].
Defined.

End RaceFacts.
